(** * Collections-C doubly linked list (src/list.c): shallow embedding

    The C code manipulates heap-allocated [Node] and [List] structures
    through raw pointers.  The embedding keeps that shape: a memory holds
    a finite map of nodes and a finite map of list headers, a pointer is
    an optional address ([None] is [NULL]), and every function of
    [list.c] becomes a computation in a small state-and-fault monad.
    Dereferencing [NULL] or a freed address is a fault ([None]). *)

From Stdlib Require Import ZArith Lia.
From stdpp Require Import gmap list sorting.

Local Open Scope Z_scope.
Set Warnings "-clear-no-such-hyp".

(** ** Data model *)

Definition addr := positive.
Definition ptr := option addr.

(** [struct node_s { void *data; struct node_s *next, *prev; }].  The
    payload is an opaque machine word. *)
Record Node := mkNode { n_data : Z; n_next : ptr; n_prev : ptr }.

(** [struct dlist_s { size_t size; Node *head; Node *tail; }] *)
Record List := mkList { l_size : Z; l_head : ptr; l_tail : ptr }.

(** [struct dlist_iter_s] and [struct dlist_iter_desc_s] have the same
    fields; the cursor is passed and returned by value. *)
Record ListIter := mkIter {
  it_index : Z; it_list : ptr; it_last : ptr; it_next : ptr }.

(** [size_t] is taken to be 64 bits wide. *)
Definition SIZE_MOD : Z := 2 ^ 64.
Definition wrap (z : Z) : Z := z mod SIZE_MOD.

(** The memory: allocated nodes, allocated list headers, and the number
    of allocations the allocator will still satisfy. *)
Record mem := mkMem {
  nodes : gmap addr Node;
  lists : gmap addr List;
  avail : nat }.

(** ** State-and-fault monad *)

Definition M (A : Type) : Type := mem → option (A * mem).

Definition ret {A} (x : A) : M A := λ m, Some (x, m).
Definition bind {A B} (c : M A) (k : A → M B) : M B :=
  λ m, match c m with Some (x, m') => k x m' | None => None end.
Definition fault {A} : M A := λ _, None.

Notation "x <- c ;; k" := (bind c (λ x, k))
  (at level 69, c at next level, right associativity).
Notation "c ;;; k" := (bind c (λ _, k))
  (at level 69, right associativity).

Definition not_null (p : ptr) : bool :=
  match p with Some _ => true | None => false end.
Definition ptr_eqb (p q : ptr) : bool := bool_decide (p = q).

(** ** Primitive memory accesses *)

Definition load (p : ptr) : M Node := λ m,
  match p with
  | Some a => match nodes m !! a with Some n => Some (n, m) | None => None end
  | None => None
  end.

Definition store (p : ptr) (f : Node → Node) : M unit := λ m,
  match p with
  | Some a =>
      match nodes m !! a with
      | Some n => Some (tt, mkMem (<[a := f n]> (nodes m)) (lists m) (avail m))
      | None => None
      end
  | None => None
  end.

Definition get_data (p : ptr) : M Z := n <- load p ;; ret (n_data n).
Definition get_next (p : ptr) : M ptr := n <- load p ;; ret (n_next n).
Definition get_prev (p : ptr) : M ptr := n <- load p ;; ret (n_prev n).

Definition set_data (p : ptr) (v : Z) : M unit :=
  store p (λ n, mkNode v (n_next n) (n_prev n)).
Definition set_next (p : ptr) (v : ptr) : M unit :=
  store p (λ n, mkNode (n_data n) v (n_prev n)).
Definition set_prev (p : ptr) (v : ptr) : M unit :=
  store p (λ n, mkNode (n_data n) (n_next n) v).

Definition lload (p : ptr) : M List := λ m,
  match p with
  | Some a => match lists m !! a with Some l => Some (l, m) | None => None end
  | None => None
  end.

Definition lstore (p : ptr) (f : List → List) : M unit := λ m,
  match p with
  | Some a =>
      match lists m !! a with
      | Some l => Some (tt, mkMem (nodes m) (<[a := f l]> (lists m)) (avail m))
      | None => None
      end
  | None => None
  end.

Definition get_size (p : ptr) : M Z := l <- lload p ;; ret (l_size l).
Definition get_head (p : ptr) : M ptr := l <- lload p ;; ret (l_head l).
Definition get_tail (p : ptr) : M ptr := l <- lload p ;; ret (l_tail l).

Definition set_size (p : ptr) (v : Z) : M unit :=
  lstore p (λ l, mkList v (l_head l) (l_tail l)).
Definition set_head (p : ptr) (v : ptr) : M unit :=
  lstore p (λ l, mkList (l_size l) v (l_tail l)).
Definition set_tail (p : ptr) (v : ptr) : M unit :=
  lstore p (λ l, mkList (l_size l) (l_head l) v).

(** [calloc(1, sizeof(Node))]: [NULL] when the allocator is exhausted,
    otherwise a fresh zeroed node. *)
Definition calloc_node : M ptr := λ m,
  match avail m with
  | O => Some (None, m)
  | S k =>
      let a := fresh (dom (nodes m)) in
      Some (Some a, mkMem (<[a := mkNode 0 None None]> (nodes m)) (lists m) k)
  end.

(** [calloc(1, sizeof(List))] *)
Definition calloc_list : M ptr := λ m,
  match avail m with
  | O => Some (None, m)
  | S k =>
      let a := fresh (dom (lists m)) in
      Some (Some a, mkMem (nodes m) (<[a := mkList 0 None None]> (lists m)) k)
  end.

(** [free(p)]: a no-op on [NULL], a fault on an address not allocated. *)
Definition free_node (p : ptr) : M unit := λ m,
  match p with
  | None => Some (tt, m)
  | Some a =>
      match nodes m !! a with
      | Some _ => Some (tt, mkMem (delete a (nodes m)) (lists m) (S (avail m)))
      | None => None
      end
  end.

(** ** The functions of list.c *)

Definition list_new : M ptr := calloc_list.

(** [for (...) node = node->next;] and [for (...) node = node->prev;] *)
Fixpoint walk_next (n : nat) (node : ptr) : M ptr :=
  match n with
  | O => ret node
  | S k => nx <- get_next node ;; walk_next k nx
  end.

Fixpoint walk_prev (n : nat) (node : ptr) : M ptr :=
  match n with
  | O => ret node
  | S k => pv <- get_prev node ;; walk_prev k pv
  end.

Definition get_node_at (lst : ptr) (index : Z) : M ptr :=
  if negb (not_null lst) then ret None else
  sz <- get_size lst ;;
  if index >=? sz then ret None else
  if index <? sz / 2 then
    hd <- get_head lst ;;
    walk_next (Z.to_nat index) hd
  else
    tl <- get_tail lst ;;
    walk_prev (Z.to_nat (wrap (sz - 1) - index)) tl.

Definition link_behind (base ins : ptr) : M unit :=
  (* link the gap *)
  ins_next <- get_next ins ;;
  (if not_null ins_next
   then ins_prev <- get_prev ins ;; set_prev ins_next ins_prev
   else ret tt) ;;;
  ins_prev <- get_prev ins ;;
  (if not_null ins_prev
   then ins_next <- get_next ins ;; set_next ins_prev ins_next
   else ret tt) ;;;
  (* link behind *)
  base_prev <- get_prev base ;;
  if negb (not_null base_prev) then
    set_prev ins None ;;;
    set_next ins base ;;;
    set_prev base ins
  else
    set_prev ins base_prev ;;;
    ins_prev <- get_prev ins ;;
    set_next ins_prev ins ;;;
    set_next ins base ;;;
    set_prev base ins.

Definition link_after (base ins : ptr) : M unit :=
  ins_next <- get_next ins ;;
  (if not_null ins_next
   then ins_prev <- get_prev ins ;; set_prev ins_next ins_prev
   else ret tt) ;;;
  ins_prev <- get_prev ins ;;
  (if not_null ins_prev
   then ins_next <- get_next ins ;; set_next ins_prev ins_next
   else ret tt) ;;;
  base_next <- get_next base ;;
  if negb (not_null base_next) then
    set_prev ins base ;;;
    set_next base ins ;;;
    set_next ins None
  else
    set_next ins base_next ;;;
    ins_next <- get_next ins ;;
    set_prev ins_next ins ;;;
    set_prev ins base ;;;
    set_next base ins.

Definition swap_adjacent (n1 n2 : ptr) : M unit :=
  n1_next <- get_next n1 ;;
  if ptr_eqb n1_next n2 then
    n2_next <- get_next n2 ;;
    (if not_null n2_next then set_prev n2_next n1 else ret tt) ;;;
    n2_next <- get_next n2 ;;
    set_next n1 n2_next ;;;
    n1_prev <- get_prev n1 ;;
    (if not_null n1_prev then set_next n1_prev n2 else ret tt) ;;;
    n1_prev <- get_prev n1 ;;
    set_prev n2 n1_prev ;;;
    set_prev n1 n2 ;;;
    set_next n2 n1
  else
    n2_next <- get_next n2 ;;
    if ptr_eqb n2_next n1 then
      n1_next <- get_next n1 ;;
      (if not_null n1_next then set_prev n1_next n2 else ret tt) ;;;
      n1_next <- get_next n1 ;;
      set_next n2 n1_next ;;;
      n2_prev <- get_prev n2 ;;
      (if not_null n2_prev then set_next n2_prev n1 else ret tt) ;;;
      n2_prev <- get_prev n2 ;;
      set_prev n1 n2_prev ;;;
      set_prev n2 n1 ;;;
      set_next n1 n2
    else ret tt.

Definition swap (n1 n2 : ptr) : M unit :=
  n1_next <- get_next n1 ;;
  n2_next <- get_next n2 ;;
  if ptr_eqb n1_next n2 || ptr_eqb n2_next n1 then swap_adjacent n1 n2 else
  n1_left <- get_prev n1 ;;
  n1_right <- get_next n1 ;;
  n2_left <- get_prev n2 ;;
  n2_right <- get_next n2 ;;
  (if not_null n1_left then set_next n1_left n2 else ret tt) ;;;
  set_prev n2 n1_left ;;;
  (if not_null n1_right then set_prev n1_right n2 else ret tt) ;;;
  set_next n2 n1_right ;;;
  (if not_null n2_left then set_next n2_left n1 else ret tt) ;;;
  set_prev n1 n2_left ;;;
  (if not_null n2_right then set_prev n2_right n1 else ret tt) ;;;
  set_next n1 n2_right.

Definition unlink (lst node : ptr) : M Z :=
  d <- get_data node ;;
  node_prev <- get_prev node ;;
  (if not_null node_prev
   then node_next <- get_next node ;; set_next node_prev node_next
   else ret tt) ;;;
  node_prev <- get_prev node ;;
  (if negb (not_null node_prev)
   then node_next <- get_next node ;; set_head lst node_next
   else ret tt) ;;;
  node_next <- get_next node ;;
  (if negb (not_null node_next)
   then node_prev <- get_prev node ;; set_tail lst node_prev
   else ret tt) ;;;
  node_next <- get_next node ;;
  (if not_null node_next
   then node_prev <- get_prev node ;; set_prev node_next node_prev
   else ret tt) ;;;
  free_node node ;;;
  sz <- get_size lst ;;
  set_size lst (wrap (sz - 1)) ;;;
  ret d.

Definition list_add_at (lst : ptr) (element : Z) (index : Z) : M bool :=
  node <- get_node_at lst index ;;
  ins <- calloc_node ;;
  if negb (not_null node) || negb (not_null ins) then ret false else
  set_data ins element ;;;
  link_behind node ins ;;;
  (if index =? 0 then set_head lst ins else ret tt) ;;;
  sz <- get_size lst ;;
  set_size lst (wrap (sz + 1)) ;;;
  ret true.

(** The rollback loop [while (head) { tmp = head->next; free(head); ... }];
    the chain under construction has at most [n] nodes. *)
Fixpoint free_chain (n : nat) (head : ptr) : M unit :=
  match n with
  | O => ret tt
  | S k =>
      if not_null head then
        tmp <- get_next head ;;
        free_node head ;;;
        free_chain k tmp
      else ret tt
  end.

(** The copy loop of [list_add_all_at]; [done] counts the nodes built so
    far.  The result is [None] after a failed allocation. *)
Fixpoint add_all_copy (n : nat) (done : nat) (insert head tail : ptr)
  : M (option (ptr * ptr)) :=
  match n with
  | O => ret (Some (head, tail))
  | S k =>
      new <- calloc_node ;;
      if negb (not_null new) then
        free_chain done head ;;;
        ret None
      else
        d <- get_data insert ;;
        set_data new d ;;;
        (if negb (not_null head) then
           nx <- get_next insert ;;
           add_all_copy k (S done) nx new new
         else
           set_next tail new ;;;
           set_prev new tail ;;;
           nx <- get_next insert ;;
           add_all_copy k (S done) nx head new)
  end.

Definition list_add_all_at (list1 list2 : ptr) (index : Z) : M bool :=
  sz2 <- get_size list2 ;;
  if sz2 =? 0 then ret false else
  sz1 <- get_size list1 ;;
  if index >=? sz1 then ret false else
  insert <- get_head list2 ;;
  sz2 <- get_size list2 ;;
  r <- add_all_copy (Z.to_nat sz2) 0 insert None None ;;
  match r with
  | None => ret false
  | Some (head, tail) =>
      sz1 <- get_size list1 ;;
      end_ <- (if index <? sz1 then get_node_at list1 index else ret None) ;;
      base <- (if 0 <? index then get_prev end_ else ret None) ;;
      (if negb (not_null end_) then
         l1_tail <- get_tail list1 ;;
         set_next l1_tail head ;;;
         l1_tail <- get_tail list1 ;;
         set_prev head l1_tail ;;;
         set_tail list1 tail
       else if negb (not_null base) then
         l1_head <- get_head list1 ;;
         set_prev l1_head tail ;;;
         l1_head <- get_head list1 ;;
         set_next tail l1_head ;;;
         set_head list1 head
       else
         set_prev head base ;;;
         set_next base head ;;;
         set_next tail end_ ;;;
         set_prev end_ tail) ;;;
      sz1 <- get_size list1 ;;
      sz2 <- get_size list2 ;;
      set_size list1 (wrap (sz1 + sz2)) ;;;
      ret true
  end.

Definition list_add_all (list1 list2 : ptr) : M bool :=
  sz1 <- get_size list1 ;;
  list_add_all_at list1 list2 sz1.

Definition list_add_first (lst : ptr) (element : Z) : M bool :=
  node <- calloc_node ;;
  if negb (not_null node) then ret false else
  set_data node element ;;;
  sz <- get_size lst ;;
  (if sz =? 0 then
     set_head lst node ;;;
     set_tail lst node
   else
     hd <- get_head lst ;;
     set_next node hd ;;;
     hd <- get_head lst ;;
     set_prev hd node ;;;
     set_head lst node) ;;;
  sz <- get_size lst ;;
  set_size lst (wrap (sz + 1)) ;;;
  ret true.

Definition list_add_last (lst : ptr) (element : Z) : M bool :=
  node <- calloc_node ;;
  if negb (not_null node) then ret false else
  set_data node element ;;;
  sz <- get_size lst ;;
  (if sz =? 0 then
     set_head lst node ;;;
     set_tail lst node
   else
     tl <- get_tail lst ;;
     set_prev node tl ;;;
     tl <- get_tail lst ;;
     set_next tl node ;;;
     set_tail lst node) ;;;
  sz <- get_size lst ;;
  set_size lst (wrap (sz + 1)) ;;;
  ret true.

Definition list_add (lst : ptr) (element : Z) : M bool :=
  list_add_last lst element.

Definition splice_between (l1 l2 : ptr) (left right : ptr) : M bool :=
  sz2 <- get_size l2 ;;
  if sz2 =? 0 then ret true else
  (if not_null left
   then h2 <- get_head l2 ;; set_next left h2
   else h2 <- get_head l2 ;; set_head l1 h2) ;;;
  (if not_null right
   then t2 <- get_tail l2 ;; set_prev right t2
   else t2 <- get_tail l2 ;; set_tail l1 t2) ;;;
  sz1 <- get_size l1 ;;
  sz2 <- get_size l2 ;;
  set_size l1 (wrap (sz1 + sz2)) ;;;
  set_head l2 None ;;;
  set_tail l2 None ;;;
  set_size l2 0 ;;;
  ret true.

(** The arguments [list1->tail] and [list1->tail->next] are evaluated
    before [splice_between] is entered. *)
Definition list_splice (list1 list2 : ptr) : M bool :=
  left <- get_tail list1 ;;
  tl <- get_tail list1 ;;
  right <- get_next tl ;;
  splice_between list1 list2 left right.

Definition list_splice_before (list1 list2 : ptr) (index : Z) : M bool :=
  new_tail <- get_node_at list1 index ;;
  if negb (not_null new_tail) then ret false else
  new_head <- get_prev new_tail ;;
  splice_between list1 list2 new_head new_tail.

Definition list_splice_after (list1 list2 : ptr) (index : Z) : M bool :=
  new_head <- get_node_at list1 index ;;
  if negb (not_null new_head) then ret false else
  new_tail <- get_next new_head ;;
  splice_between list1 list2 new_head new_tail.

(** Removal returns the payload, or [None] for the C [NULL] result. *)
Definition list_remove_at (lst : ptr) (index : Z) : M (option Z) :=
  node <- get_node_at lst index ;;
  if negb (not_null node) then ret None else
  d <- unlink lst node ;; ret (Some d).

Definition list_remove_first (lst : ptr) : M (option Z) :=
  sz <- get_size lst ;;
  if sz =? 0 then ret None else
  hd <- get_head lst ;;
  d <- unlink lst hd ;; ret (Some d).

Definition list_remove_last (lst : ptr) : M (option Z) :=
  sz <- get_size lst ;;
  if sz =? 0 then ret None else
  tl <- get_tail lst ;;
  d <- unlink lst tl ;; ret (Some d).

Definition list_get (lst : ptr) (index : Z) : M (option Z) :=
  node <- get_node_at lst index ;;
  if not_null node then d <- get_data node ;; ret (Some d) else ret None.

Fixpoint reverse_loop (n : nat) (left right : ptr) : M unit :=
  match n with
  | O => ret tt
  | S k =>
      tmpl <- get_next left ;;
      tmpr <- get_prev right ;;
      swap left right ;;;
      reverse_loop k tmpl tmpr
  end.

Definition list_reverse (lst : ptr) : M unit :=
  head_old <- get_head lst ;;
  tail_old <- get_tail lst ;;
  left <- get_head lst ;;
  right <- get_tail lst ;;
  sz <- get_size lst ;;
  reverse_loop (Z.to_nat (sz / 2)) left right ;;;
  set_head lst tail_old ;;;
  set_tail lst head_old.

(** *** Sorting *)

(** The loop of [merge].  [n] is the number of iterations left
    ([size - i]); [left] and [right] are the current values of the two
    in/out parameters, returned when the loop is left. *)
Fixpoint merge_loop (cmp : Z → Z → Z) (n : nat) (size l_size r_size : Z)
    (i l r : Z) (l_part r_part left right : ptr) : M (ptr * ptr) :=
  match n with
  | O => ret (left, right)
  | S k =>
      ld <- get_data l_part ;;
      rd <- get_data r_part ;;
      let c := cmp ld rd in
      if (c =? -1) || (c =? 0) then
        if (i =? 0) && (size =? 2) then ret (left, right) else
        if l =? l_size then
          r_part <- walk_next (Z.to_nat (wrap (r_size - 1) - r)) r_part ;;
          ret (left, r_part)
        else
          l_part <- get_next l_part ;;
          merge_loop cmp k size l_size r_size (i + 1) (wrap (l + 1)) r
            l_part r_part left right
      else
        tmp <- get_next r_part ;;
        link_behind l_part r_part ;;;
        if (i =? 0) && (size =? 2) then ret (r_part, l_part) else
        let r := wrap (r + 1) in
        if r =? r_size then
          l_part <- walk_next (Z.to_nat (wrap (l_size - 1) - l)) l_part ;;
          ret (left, l_part)
        else
          let left := if i =? 0 then r_part else left in
          merge_loop cmp k size l_size r_size (i + 1) l r
            l_part tmp left right
  end.

(** [merge(&left, &right, l_size, r_size, cmp)]; the pair returned holds
    the final [*left] and [*right]. *)
Definition merge (cmp : Z → Z → Z) (left right : ptr) (l_size r_size : Z)
  : M (ptr * ptr) :=
  let size := wrap (r_size + l_size) in
  merge_loop cmp (Z.to_nat size) size l_size r_size 0 0 0 left right left right.

(** [split] recurses on half the size; [fuel] bounds the recursion
    depth. *)
Fixpoint split (cmp : Z → Z → Z) (fuel : nat) (lst : ptr) (b : ptr) (size : Z)
  : M ptr :=
  if size <? 2 then ret b else
  match fuel with
  | O => fault
  | S fuel' =>
      let l_size := size / 2 in
      let r_size := wrap (size / 2 + size mod 2) in
      center <- walk_next (Z.to_nat l_size) b ;;
      l_head <- split cmp fuel' lst b l_size ;;
      r_head <- split cmp fuel' lst center r_size ;;
      lr <- merge cmp l_head r_head l_size r_size ;;
      set_head lst (fst lr) ;;;
      set_tail lst (snd lr) ;;;
      ret (fst lr)
  end.

Definition list_sort (cmp : Z → Z → Z) (lst : ptr) : M unit :=
  hd <- get_head lst ;;
  sz <- get_size lst ;;
  split cmp (Z.to_nat sz) lst hd sz ;;;
  ret tt.

(** *** Cursors *)

(** [malloc(sizeof(ListIter))] and [malloc(sizeof(ListDIter))].  A
    cursor is handed around as a value, so its block only counts against
    the allocator; the result is [false] for [NULL], when the allocator
    is exhausted. *)
Definition malloc_iter : M bool := λ m,
  match avail m with
  | O => Some (false, m)
  | S k => Some (true, mkMem (nodes m) (lists m) k)
  end.

(** The result of [malloc] is not checked: on [NULL] the first store,
    [iter->index = 0], is a fault. *)
Definition list_iter_new (lst : ptr) : M ListIter :=
  iter <- malloc_iter ;;
  if negb iter then fault else
  hd <- get_head lst ;;
  ret (mkIter 0 lst None hd).

Definition list_iter_remove (iter : ListIter) : M (option Z * ListIter) :=
  if negb (not_null (it_last iter)) then ret (None, iter) else
  e <- unlink (it_list iter) (it_last iter) ;;
  ret (Some e, mkIter (it_index iter) (it_list iter) None (it_next iter)).

Definition list_iter_add (iter : ListIter) (element : Z)
  : M (bool * ListIter) :=
  new_node <- calloc_node ;;
  set_data new_node element ;;;
  link_behind (it_next iter) new_node ;;;
  sz <- get_size (it_list iter) ;;
  set_size (it_list iter) (wrap (sz + 1)) ;;;
  ret (true, mkIter (wrap (it_index iter + 1)) (it_list iter)
               new_node (it_next iter)).

Definition list_iter_replace (iter : ListIter) (element : Z) : M Z :=
  old <- get_data (it_last iter) ;;
  set_data (it_last iter) element ;;;
  ret old.

Definition list_iter_has_next (iter : ListIter) : bool :=
  not_null (it_next iter).

Definition list_iter_index (iter : ListIter) : Z :=
  wrap (it_index iter - 1).

Definition list_iter_next (iter : ListIter) : M (Z * ListIter) :=
  d <- get_data (it_next iter) ;;
  nx <- get_next (it_next iter) ;;
  ret (d, mkIter (wrap (it_index iter + 1)) (it_list iter) (it_next iter) nx).

(** As in [list_iter_new] the result of [malloc] is not checked; the
    first store is [iter->index = list->size - 1]. *)
Definition list_diter_new (lst : ptr) : M ListIter :=
  iter <- malloc_iter ;;
  sz <- get_size lst ;;
  if negb iter then fault else
  tl <- get_tail lst ;;
  ret (mkIter (wrap (sz - 1)) lst None tl).

Definition list_diter_add (iter : ListIter) (element : Z)
  : M (bool * ListIter) :=
  new_node <- calloc_node ;;
  set_data new_node element ;;;
  link_after (it_next iter) new_node ;;;
  sz <- get_size (it_list iter) ;;
  set_size (it_list iter) (wrap (sz + 1)) ;;;
  ret (true, mkIter (it_index iter) (it_list iter) new_node (it_next iter)).

Definition list_diter_remove (iter : ListIter) : M (option Z * ListIter) :=
  if negb (not_null (it_last iter)) then ret (None, iter) else
  e <- unlink (it_list iter) (it_last iter) ;;
  ret (Some e, mkIter (it_index iter) (it_list iter) None (it_next iter)).

Definition list_diter_replace (iter : ListIter) (element : Z) : M Z :=
  old <- get_data (it_last iter) ;;
  set_data (it_last iter) element ;;;
  ret old.

Definition list_diter_has_next (iter : ListIter) : bool :=
  not_null (it_next iter).

Definition list_diter_next (iter : ListIter) : M (Z * ListIter) :=
  d <- get_data (it_next iter) ;;
  pv <- get_prev (it_next iter) ;;
  ret (d, mkIter (wrap (it_index iter + 1)) (it_list iter) (it_next iter) pv).

(** ** Observations on a memory *)

(** The addresses met walking [next] from [p]; [None] when the walk
    leaves the allocated nodes or does not end within [fuel] steps. *)
Fixpoint chain_from (fuel : nat) (h : gmap addr Node) (p : ptr)
  : option (list addr) :=
  match p with
  | None => Some []
  | Some a =>
      match fuel with
      | O => None
      | S k =>
          match h !! a with
          | Some n =>
              match chain_from k h (n_next n) with
              | Some l => Some (a :: l)
              | None => None
              end
          | None => None
          end
      end
  end.

Fixpoint chain_back (fuel : nat) (h : gmap addr Node) (p : ptr)
  : option (list addr) :=
  match p with
  | None => Some []
  | Some a =>
      match fuel with
      | O => None
      | S k =>
          match h !! a with
          | Some n =>
              match chain_back k h (n_prev n) with
              | Some l => Some (a :: l)
              | None => None
              end
          | None => None
          end
      end
  end.

Definition data_at (h : gmap addr Node) (a : addr) : Z :=
  match h !! a with Some n => n_data n | None => 0 end.

(** The payloads of the list at [lp] in walking order from its head. *)
Definition elements (m : mem) (lp : addr) : option (list Z) :=
  match lists m !! lp with
  | Some L =>
      match chain_from (S (size (nodes m))) (nodes m) (l_head L) with
      | Some l => Some (data_at (nodes m) <$> l)
      | None => None
      end
  | None => None
  end.

(** The payloads walking [prev] from the tail. *)
Definition elements_back (m : mem) (lp : addr) : option (list Z) :=
  match lists m !! lp with
  | Some L =>
      match chain_back (S (size (nodes m))) (nodes m) (l_tail L) with
      | Some l => Some (data_at (nodes m) <$> l)
      | None => None
      end
  | None => None
  end.

Definition empty_mem (budget : nat) : mem := mkMem ∅ ∅ budget.

(** A memory holding one list built by appending [xs] in order. *)
Fixpoint add_each (lst : ptr) (xs : list Z) : M unit :=
  match xs with
  | [] => ret tt
  | x :: xs' => list_add lst x ;;; add_each lst xs'
  end.

Definition build (xs : list Z) : M ptr :=
  lst <- list_new ;; add_each lst xs ;;; ret lst.

(** ** Representation of a list in memory *)

Definition hd_or (l : list addr) (d : ptr) : ptr :=
  match l with [] => d | a :: _ => Some a end.

Definition last_or (l : list addr) (d : ptr) : ptr :=
  match last l with Some a => Some a | None => d end.

(** [dseg h p l n]: the addresses [l] form a doubly linked segment of
    [h]; the first node's [prev] is [p] and the last node's [next] is
    [n]; adjacent nodes A, B have [A.next == B] and [B.prev == A]. *)
Fixpoint dseg (h : gmap addr Node) (p : ptr) (l : list addr) (n : ptr) : Prop :=
  match l with
  | [] => True
  | a :: l' =>
      (∃ x, h !! a = Some x ∧ n_prev x = p ∧ n_next x = hd_or l' n)
      ∧ dseg h (Some a) l' n
  end.

(** The structural invariant of the list header at [lp] over the chain
    of node addresses [l]: head and tail are the ends of the chain (both
    [NULL] when it is empty), their outer links are [NULL], each node
    occurs once, and the count is the length of the chain. *)
Definition list_inv (m : mem) (lp : addr) (l : list addr) : Prop :=
  lists m !! lp = Some (mkList (Z.of_nat (length l)) (head l) (last l))
  ∧ NoDup l
  ∧ dseg (nodes m) None l None
  ∧ Z.of_nat (length l) < SIZE_MOD.

(** The payload sequence of a chain. *)
Definition contents (m : mem) (l : list addr) : list Z :=
  data_at (nodes m) <$> l.

(** Two memories hold the same payload in every node. *)
Definition same_data (h h' : gmap addr Node) : Prop :=
  ∀ c, n_data <$> h' !! c = n_data <$> h !! c.

(** A memory holding a single list, at address 1, with the payloads
    [xs] in nodes 1, 2, ... and room for further allocations. *)
Definition mem_of (xs : list Z) : mem :=
  match build xs (empty_mem 64) with
  | Some (_, m) => m
  | None => empty_mem 0
  end.

(** A memory holding two lists: [xs] at address 1 and [ys] at address 2. *)
Definition mem_of2 (xs ys : list Z) : mem :=
  match (build xs ;;; build ys) (empty_mem 64) with
  | Some (_, m) => m
  | None => empty_mem 0
  end.

(** ** Functional reading of the sort *)

(** The test [c == -1 || c == 0] of [merge] on the comparator's result. *)
Definition cmp_le (cmp : Z → Z → Z) (x y : Z) : bool :=
  (cmp x y =? -1) || (cmp x y =? 0).

(** Merging two runs: the left element goes first exactly when the
    test holds, otherwise the right element does. *)
Fixpoint merge_lists {T} (le : T → T → bool) (l1 : list T) : list T → list T :=
  fix go (l2 : list T) : list T :=
    match l1, l2 with
    | [], _ => l2
    | _, [] => l1
    | x :: l1', y :: l2' =>
        if le x y then x :: merge_lists le l1' l2 else y :: go l2'
    end.

(** Top-down merge sort splitting at half the length, the larger part
    on the right; [fuel] bounds the recursion depth as in [split]. *)
Fixpoint msort {T} (le : T → T → bool) (fuel : nat) (l : list T) : list T :=
  if (length l <? 2)%nat then l else
  match fuel with
  | O => l
  | S fuel' =>
      let n := (length l / 2)%nat in
      merge_lists le (msort le fuel' (take n l)) (msort le fuel' (drop n l))
  end.

(** A three-way comparator: it answers -1, 0 or 1, swapping the
    arguments negates the answer, and "not greater" is transitive. *)
Definition three_way (cmp : Z → Z → Z) : Prop :=
  (∀ x y, cmp x y = -1 ∨ cmp x y = 0 ∨ cmp x y = 1)
  ∧ (∀ x y, cmp y x = - cmp x y)
  ∧ (∀ x y z, cmp x y ≤ 0 → cmp y z ≤ 0 → cmp x z ≤ 0).

(** Two comparators used in the examples: [cmp_key] orders payloads by
    their tens and answers -1, 0 or 1; [cmp_diff] answers the
    difference of the payloads, as a C comparator may. *)
Definition cmp_key (x y : Z) : Z :=
  match (x / 10) ?= (y / 10) with Lt => -1 | Eq => 0 | Gt => 1 end.

Definition cmp_diff (x y : Z) : Z := x - y.

(** [cmp_seven] orders payloads by their tens as [cmp_key] does, but
    answers 7 where [cmp_key] answers 1. *)
Definition cmp_seven (x y : Z) : Z :=
  match (x / 10) ?= (y / 10) with Lt => -1 | Eq => 0 | Gt => 7 end.

(** [fseg h l n]: the [next] links alone take the walk through [l] and
    then to [n]. *)
Fixpoint fseg (h : gmap addr Node) (l : list addr) (n : ptr) : Prop :=
  match l with
  | [] => True
  | a :: l' => (∃ x, h !! a = Some x ∧ n_next x = hd_or l' n) ∧ fseg h l' n
  end.

(** ** The remaining functions of list.c *)

(** [free(list)] on a list header. *)
Definition free_list (p : ptr) : M unit := λ m,
  match p with
  | None => Some (tt, m)
  | Some a =>
      match lists m !! a with
      | Some _ => Some (tt, mkMem (nodes m) (delete a (lists m)) (S (avail m)))
      | None => None
      end
  end.

(** A [while (node)] loop is run with one step for every node allocated
    when it is entered, plus one: a walk that takes more steps has come
    back to a node it visited before, and the C loop does not end.
    Running out of steps is a fault of the model. *)
Definition bounded {A} (f : nat → M A) : M A :=
  λ m, f (S (size (nodes m))) m.

Fixpoint get_node_loop (fuel : nat) (node : ptr) (element : Z) : M ptr :=
  if negb (not_null node) then ret None else
  match fuel with
  | O => fault
  | S k =>
      d <- get_data node ;;
      if d =? element then ret node else
      nx <- get_next node ;;
      get_node_loop k nx element
  end.

Definition get_node (lst : ptr) (element : Z) : M ptr :=
  node <- get_head lst ;;
  bounded (λ fuel, get_node_loop fuel node element).

Definition list_remove (lst : ptr) (element : Z) : M (option Z) :=
  node <- get_node lst element ;;
  if negb (not_null node) then ret None else
  d <- unlink lst node ;; ret (Some d).

Definition list_replace_at (lst : ptr) (element : Z) (index : Z)
  : M (option Z) :=
  node <- get_node_at lst index ;;
  if not_null node then
    old <- get_data node ;;
    set_data node element ;;;
    ret (Some old)
  else ret None.

Definition list_get_first (lst : ptr) : M (option Z) :=
  sz <- get_size lst ;;
  if sz =? 0 then ret None else
  hd <- get_head lst ;;
  d <- get_data hd ;; ret (Some d).

Definition list_get_last (lst : ptr) : M (option Z) :=
  sz <- get_size lst ;;
  if sz =? 0 then ret None else
  tl <- get_tail lst ;;
  d <- get_data tl ;; ret (Some d).

Definition list_size (lst : ptr) : M Z := get_size lst.

(** *** Clearing and destroying *)

Section payload_heap.

(** [free(node->data)]: the payloads live outside the modelled memory,
    so what freeing one does is left open. *)
Variable free_data : Z → M unit.

(** What is asked of [free(node->data)] where a statement is about the
    functions that call it: it returns, and the nodes, the headers and
    the allocator are as before. *)
Definition payload_free_kept : Prop := ∀ d m, free_data d m = Some (tt, m).

Fixpoint unlink_all_loop (fuel : nat) (lst node : ptr) (freed : bool)
  : M unit :=
  if negb (not_null node) then ret tt else
  match fuel with
  | O => fault
  | S k =>
      tmp <- get_next node ;;
      (if freed then d <- get_data node ;; free_data d else ret tt) ;;;
      unlink lst node ;;;
      unlink_all_loop k lst tmp freed
  end.

Definition unlink_all (lst : ptr) (freed : bool) : M bool :=
  sz <- get_size lst ;;
  if sz <=? 0 then ret false else
  node <- get_head lst ;;
  bounded (λ fuel, unlink_all_loop fuel lst node freed) ;;;
  ret true.

Definition list_remove_all (lst : ptr) : M bool := unlink_all lst false.

Definition list_remove_all_free (lst : ptr) : M bool := unlink_all lst true.

Definition list_destroy (lst : ptr) : M bool :=
  sz <- get_size lst ;;
  success <- (if 0 <? sz then list_remove_all lst else ret true) ;;
  free_list lst ;;;
  ret success.

Definition list_destroy_free (lst : ptr) : M bool :=
  sz <- get_size lst ;;
  success <- (if 0 <? sz then list_remove_all_free lst else ret true) ;;
  free_list lst ;;;
  ret success.

End payload_heap.

(** *** Copies *)

Fixpoint sublist_loop (n : nat) (sub node : ptr) : M unit :=
  match n with
  | O => ret tt
  | S k =>
      d <- get_data node ;;
      list_add sub d ;;;
      nx <- get_next node ;;
      sublist_loop k sub nx
  end.

(** [b < 0] never holds of a [size_t]; the loop runs for
    [i = b, ..., e]. *)
Definition list_sublist (lst : ptr) (b e : Z) : M ptr :=
  sz <- get_size lst ;;
  if (b >? e) || (b <? 0) || (e >=? sz) then ret None else
  sub <- list_new ;;
  node <- get_node_at lst b ;;
  sublist_loop (Z.to_nat (e - b + 1)) sub node ;;;
  ret sub.

Fixpoint copy_shallow_loop (fuel : nat) (copy node : ptr) : M unit :=
  if negb (not_null node) then ret tt else
  match fuel with
  | O => fault
  | S k =>
      d <- get_data node ;;
      list_add copy d ;;;
      nx <- get_next node ;;
      copy_shallow_loop k copy nx
  end.

Definition list_copy_shallow (lst : ptr) : M ptr :=
  copy <- list_new ;;
  node <- get_head lst ;;
  bounded (λ fuel, copy_shallow_loop fuel copy node) ;;;
  ret copy.

(** The copy function [cp] is read as a function of the payload. *)
Fixpoint copy_deep_loop (cp : Z → Z) (fuel : nat) (copy node : ptr) : M unit :=
  if negb (not_null node) then ret tt else
  match fuel with
  | O => fault
  | S k =>
      d <- get_data node ;;
      list_add copy (cp d) ;;;
      nx <- get_next node ;;
      copy_deep_loop cp k copy nx
  end.

Definition list_copy_deep (lst : ptr) (cp : Z → Z) : M ptr :=
  copy <- list_new ;;
  node <- get_head lst ;;
  bounded (λ fuel, copy_deep_loop cp fuel copy node) ;;;
  ret copy.

(** The [calloc] of [n] pointer cells for the array of [list_to_array]:
    [NULL] when the allocator is exhausted, otherwise [n] zeroed cells
    (what C leaves open for [n = 0] is read as an array of no cells).
    The array is handed to the caller; it is not part of the modelled
    memory and is passed along as a value. *)
Definition calloc_array (n : Z) : M (option (list Z)) := λ m,
  match avail m with
  | O => Some (None, m)
  | S k => Some (Some (replicate (Z.to_nat n) 0), mkMem (nodes m) (lists m) k)
  end.

(** The loop [for (i = 0; i < list->size; i++)] of [list_to_array]; the
    store [array[i] = node->data] is a fault when [array] is [NULL]. *)
Fixpoint to_array_loop (n : nat) (i : nat) (array : option (list Z))
    (node : ptr) : M (option (list Z)) :=
  match n with
  | O => ret array
  | S k =>
      d <- get_data node ;;
      match array with
      | None => fault
      | Some arr =>
          nx <- get_next node ;;
          to_array_loop k (S i) (Some (<[i := d]> arr)) nx
      end
  end.

Definition list_to_array (lst : ptr) : M (option (list Z)) :=
  sz <- get_size lst ;;
  array <- calloc_array sz ;;
  node <- get_head lst ;;
  sz <- get_size lst ;;
  to_array_loop (Z.to_nat sz) 0 array node.

(** *** Searching *)

Fixpoint list_contains_loop (fuel : nat) (node : ptr) (element : Z)
    (e_count : Z) : M Z :=
  if negb (not_null node) then ret e_count else
  match fuel with
  | O => fault
  | S k =>
      d <- get_data node ;;
      let e_count := if d =? element then wrap (e_count + 1) else e_count in
      nx <- get_next node ;;
      list_contains_loop k nx element e_count
  end.

Definition list_contains (lst : ptr) (element : Z) : M Z :=
  node <- get_head lst ;;
  bounded (λ fuel, list_contains_loop fuel node element 0).

(** [NO_SUCH_INDEX] is a macro of the header; the functions are read
    for any value of it. *)
Fixpoint list_index_of_loop (NO_SUCH_INDEX : Z) (fuel : nat) (node : ptr)
    (element : Z) (i : Z) : M Z :=
  if negb (not_null node) then ret NO_SUCH_INDEX else
  match fuel with
  | O => fault
  | S k =>
      d <- get_data node ;;
      if d =? element then ret i else
      nx <- get_next node ;;
      list_index_of_loop NO_SUCH_INDEX k nx element (wrap (i + 1))
  end.

Definition list_index_of (NO_SUCH_INDEX : Z) (lst : ptr) (element : Z) : M Z :=
  node <- get_head lst ;;
  bounded (λ fuel, list_index_of_loop NO_SUCH_INDEX fuel node element 0).

Definition dlist_diter_index (iter : ListIter) : Z :=
  wrap (it_index iter - 1).

(** * Correctness proofs *)

(** ** Basic facts about segments *)

Lemma hd_or_app l1 l2 d : hd_or (l1 ++ l2) d = hd_or l1 (hd_or l2 d).
Proof. by destruct l1. Qed.

Lemma last_or_cons a l d : last_or (a :: l) d = last_or l (Some a).
Proof.
  unfold last_or. destruct l as [|b l]; [done|].
  change (last (a :: b :: l)) with (last (b :: l)).
  by destruct (last (b :: l)) eqn:E; [|by apply last_None in E].
Qed.

Lemma last_or_app l1 l2 d : last_or (l1 ++ l2) d = last_or l2 (last_or l1 d).
Proof.
  revert d. induction l1 as [|a l1 IH]; intros d; [done|].
  rewrite <- app_comm_cons, !last_or_cons. apply IH.
Qed.

Lemma dseg_app h p l1 l2 n :
  dseg h p (l1 ++ l2) n ↔ dseg h p l1 (hd_or l2 n) ∧ dseg h (last_or l1 p) l2 n.
Proof.
  revert p. induction l1 as [|a l1 IH]; intros p; simpl.
  - tauto.
  - rewrite IH, hd_or_app, last_or_cons. tauto.
Qed.

Lemma dseg_frame h h' p l n :
  (∀ a, a ∈ l → h' !! a = h !! a) → dseg h p l n → dseg h' p l n.
Proof.
  revert p. induction l as [|a l IH]; intros p Hf; simpl; [done|].
  intros [(x & Hx & Hp & Hn) Hl]. split.
  - exists x. rewrite Hf by set_solver. done.
  - apply IH; [|done]. intros b Hb. apply Hf. set_solver.
Qed.

Lemma dseg_lookup h p l n i a :
  dseg h p l n → l !! i = Some a →
  ∃ x, h !! a = Some x
       ∧ n_prev x = match i with O => p | S j => l !! j end
       ∧ n_next x = match l !! S i with Some b => Some b | None => n end.
Proof.
  revert p i. induction l as [|b l IH]; intros p i Hd Hi; [done|].
  destruct Hd as [(x & Hx & Hp & Hn) Hl].
  destruct i as [|i]; simpl in *.
  - simplify_eq. exists x. rewrite Hn. by destruct l.
  - destruct (IH _ _ Hl Hi) as (y & Hy & Hyp & Hyn).
    exists y. rewrite Hyp. by destruct i.
Qed.

Lemma dseg_alloc h p l n a : dseg h p l n → a ∈ l → is_Some (h !! a).
Proof.
  intros Hd [i Hi]%list_elem_of_lookup.
  destruct (dseg_lookup _ _ _ _ _ _ Hd Hi) as (x & -> & _). eauto.
Qed.

(** ** The forward walk of a well-formed list *)

Lemma dseg_fseg h p l n : dseg h p l n → fseg h l n.
Proof.
  revert p. induction l as [|a l IH]; intros p; simpl; [done|].
  intros [(x & Hx & _ & Hn) Hl]. split; [eauto|]. by eapply IH.
Qed.

Lemma fseg_frame h h' l n :
  (∀ a, a ∈ l → h' !! a = h !! a) → fseg h l n → fseg h' l n.
Proof.
  induction l as [|a l IH]; intros Hf; simpl; [done|].
  intros [(x & Hx & Hn) Hl]. split.
  - exists x. rewrite Hf by set_solver. done.
  - apply IH; [|done]. intros b Hb. apply Hf. set_solver.
Qed.

Lemma fseg_app h l1 l2 n :
  fseg h (l1 ++ l2) n ↔ fseg h l1 (hd_or l2 n) ∧ fseg h l2 n.
Proof.
  induction l1 as [|a l1 IH]; simpl; [tauto|].
  rewrite IH, hd_or_app. tauto.
Qed.

Lemma chain_from_step h fuel a x :
  h !! a = Some x →
  chain_from (S fuel) h (Some a)
  = match chain_from fuel h (n_next x) with
    | Some l => Some (a :: l)
    | None => None
    end.
Proof. intros Hx. simpl. by rewrite Hx. Qed.

Lemma chain_from_fseg h l : ∀ fuel,
  fseg h l None → (length l ≤ fuel)%nat → chain_from fuel h (head l) = Some l.
Proof.
  induction l as [|a l IH]; intros fuel Hf Hlen.
  { by destruct fuel. }
  destruct fuel as [|fuel]; [simpl in Hlen; lia|].
  destruct Hf as [(x & Hx & Hn) Hl].
  change (head (a :: l)) with (Some a).
  rewrite (chain_from_step _ _ _ _ Hx), Hn.
  replace (hd_or l None) with (head l) by (by destruct l).
  rewrite IH; [done|done|simpl in Hlen; lia].
Qed.

Lemma chain_length_bound (h : gmap addr Node) p l n :
  NoDup l → dseg h p l n → (length l ≤ size h)%nat.
Proof.
  intros Hnd Hd.
  rewrite <- (size_list_to_set (C := gset addr) l Hnd), <- size_dom.
  apply subseteq_size. intros a Ha%elem_of_list_to_set.
  apply elem_of_dom. by eapply dseg_alloc.
Qed.

(** Walking [next] from the head of a list that satisfies the
    invariant reads exactly the payloads of its chain. *)
Lemma list_inv_elements m lp l :
  list_inv m lp l → elements m lp = Some (contents m l).
Proof.
  intros (HL & Hnd & Hd & _). unfold elements. rewrite HL. cbn [l_head].
  rewrite (chain_from_fseg _ l); [done|by eapply dseg_fseg|].
  pose proof (chain_length_bound _ _ _ _ Hnd Hd). lia.
Qed.

(** ** Running primitive accesses *)

Lemma bind_eq {A B} (c : M A) (k : A → M B) m x m' :
  c m = Some (x, m') → bind c k m = k x m'.
Proof. unfold bind. by intros ->. Qed.

Lemma get_next_eq m a x :
  nodes m !! a = Some x → get_next (Some a) m = Some (n_next x, m).
Proof. unfold get_next, bind, load. by intros ->. Qed.

Lemma get_prev_eq m a x :
  nodes m !! a = Some x → get_prev (Some a) m = Some (n_prev x, m).
Proof. unfold get_prev, bind, load. by intros ->. Qed.

Lemma get_data_eq m a x :
  nodes m !! a = Some x → get_data (Some a) m = Some (n_data x, m).
Proof. unfold get_data, bind, load. by intros ->. Qed.

Lemma walk_next_seg m p l n i a k :
  dseg (nodes m) p l n → l !! i = Some a → (i + k < length l)%nat →
  walk_next k (Some a) m = Some (l !! (i + k)%nat, m).
Proof.
  intros Hd. revert i a. induction k as [|k IH]; intros i a Hi Hlt; simpl.
  - by rewrite Nat.add_0_r, Hi.
  - destruct (dseg_lookup _ _ _ _ _ _ Hd Hi) as (x & Hx & _ & Hn).
    erewrite bind_eq by (by apply get_next_eq).
    destruct (lookup_lt_is_Some_2 l (S i)) as [b Hb]; [lia|].
    rewrite Hn, Hb, (IH (S i) b Hb) by lia.
    by rewrite Nat.add_succ_r.
Qed.

Lemma walk_prev_seg m p l n i a k :
  dseg (nodes m) p l n → l !! i = Some a → (k ≤ i)%nat →
  walk_prev k (Some a) m = Some (l !! (i - k)%nat, m).
Proof.
  intros Hd. revert i a. induction k as [|k IH]; intros i a Hi Hle; simpl.
  - by rewrite Nat.sub_0_r, Hi.
  - destruct (dseg_lookup _ _ _ _ _ _ Hd Hi) as (x & Hx & Hp & _).
    erewrite bind_eq by (by apply get_prev_eq).
    destruct i as [|i]; [lia|].
    destruct (lookup_lt_is_Some_2 l i) as [b Hb];
      [apply lookup_lt_Some in Hi; lia|].
    rewrite Hp, Hb, (IH i b Hb) by lia. done.
Qed.

Lemma wrap_small z : 0 ≤ z < SIZE_MOD → wrap z = z.
Proof. intros. unfold wrap. by apply Z.mod_small. Qed.

Lemma get_size_eq m lp L :
  lists m !! lp = Some L → get_size (Some lp) m = Some (l_size L, m).
Proof. unfold get_size, bind, lload. by intros ->. Qed.

Lemma get_head_eq m lp L :
  lists m !! lp = Some L → get_head (Some lp) m = Some (l_head L, m).
Proof. unfold get_head, bind, lload. by intros ->. Qed.

Lemma get_tail_eq m lp L :
  lists m !! lp = Some L → get_tail (Some lp) m = Some (l_tail L, m).
Proof. unfold get_tail, bind, lload. by intros ->. Qed.

(** [get_node_at] resolves an index to the node at that position of the
    chain, and to [NULL] when the index is not below the count. *)
Lemma get_node_at_spec m lp l index :
  list_inv m lp l → 0 ≤ index →
  get_node_at (Some lp) index m = Some (l !! Z.to_nat index, m).
Proof.
  intros (HL & Hnd & Hd & Hb) Hi. unfold get_node_at. simpl.
  erewrite bind_eq by (by apply get_size_eq). simpl.
  destruct (Z.geb_spec index (Z.of_nat (length l))) as [Hge|Hlt].
  - unfold ret. rewrite lookup_ge_None_2 by lia. done.
  - destruct (Z.ltb_spec index (Z.of_nat (length l) / 2)) as [Hlo|Hhi].
    + erewrite bind_eq by (by apply get_head_eq). simpl.
      destruct l as [|a l']; [simpl in *; lia|].
      rewrite (walk_next_seg _ _ _ _ 0%nat a _ Hd) by (done || simpl in *; lia).
      done.
    + erewrite bind_eq by (by apply get_tail_eq). simpl.
      rewrite wrap_small by lia.
      destruct (last l) as [z|] eqn:Hz;
        [|apply last_None in Hz; subst; simpl in *; lia].
      rewrite last_lookup in Hz.
      rewrite (walk_prev_seg _ _ _ _ _ z _ Hd Hz) by lia.
      do 3 f_equal. lia.
Qed.

(** ** Symbolic execution of the monadic code *)

Lemma bind_ret {A B} (x : A) (k : A → M B) m : bind (ret x) k m = k x m.
Proof. done. Qed.

Lemma bind_assoc {A B C} (c : M A) (k1 : A → M B) (k2 : B → M C) m :
  bind (bind c k1) k2 m = bind c (λ x, bind (k1 x) k2) m.
Proof. unfold bind. by destruct (c m) as [[x m']|]. Qed.

Lemma set_next_eq m a x v :
  nodes m !! a = Some x →
  set_next (Some a) v m
  = Some (tt, mkMem (<[a := mkNode (n_data x) v (n_prev x)]> (nodes m))
                    (lists m) (avail m)).
Proof. unfold set_next, store. by intros ->. Qed.

Lemma set_prev_eq m a x v :
  nodes m !! a = Some x →
  set_prev (Some a) v m
  = Some (tt, mkMem (<[a := mkNode (n_data x) (n_next x) v]> (nodes m))
                    (lists m) (avail m)).
Proof. unfold set_prev, store. by intros ->. Qed.

Lemma set_data_eq m a x v :
  nodes m !! a = Some x →
  set_data (Some a) v m
  = Some (tt, mkMem (<[a := mkNode v (n_next x) (n_prev x)]> (nodes m))
                    (lists m) (avail m)).
Proof. unfold set_data, store. by intros ->. Qed.

Lemma set_size_eq m lp L v :
  lists m !! lp = Some L →
  set_size (Some lp) v m
  = Some (tt, mkMem (nodes m) (<[lp := mkList v (l_head L) (l_tail L)]> (lists m))
                    (avail m)).
Proof. unfold set_size, lstore. by intros ->. Qed.

Lemma set_head_eq m lp L v :
  lists m !! lp = Some L →
  set_head (Some lp) v m
  = Some (tt, mkMem (nodes m) (<[lp := mkList (l_size L) v (l_tail L)]> (lists m))
                    (avail m)).
Proof. unfold set_head, lstore. by intros ->. Qed.

Lemma set_tail_eq m lp L v :
  lists m !! lp = Some L →
  set_tail (Some lp) v m
  = Some (tt, mkMem (nodes m) (<[lp := mkList (l_size L) (l_head L) v]> (lists m))
                    (avail m)).
Proof. unfold set_tail, lstore. by intros ->. Qed.

Lemma free_node_eq m a x :
  nodes m !! a = Some x →
  free_node (Some a) m
  = Some (tt, mkMem (delete a (nodes m)) (lists m) (S (avail m))).
Proof. unfold free_node. by intros ->. Qed.

Lemma calloc_node_eq h L k :
  calloc_node (mkMem h L (S k))
  = Some (Some (fresh (dom h)),
          mkMem (<[fresh (dom h) := mkNode 0 None None]> h) L k).
Proof. done. Qed.

Global Arguments bind {_ _} _ _ _ : simpl never.
Global Arguments ret {_} _ _ : simpl never.
Global Arguments get_next _ _ : simpl never.
Global Arguments get_prev _ _ : simpl never.
Global Arguments get_data _ _ : simpl never.
Global Arguments set_next _ _ _ : simpl never.
Global Arguments set_prev _ _ _ : simpl never.
Global Arguments set_data _ _ _ : simpl never.
Global Arguments get_size _ _ : simpl never.
Global Arguments get_head _ _ : simpl never.
Global Arguments get_tail _ _ : simpl never.
Global Arguments set_size _ _ _ : simpl never.
Global Arguments set_head _ _ _ : simpl never.
Global Arguments set_tail _ _ _ : simpl never.
Global Arguments free_node _ _ : simpl never.
Global Arguments calloc_node _ : simpl never.
Global Arguments wrap _ : simpl never.

(** Resolve a lookup in a memory that is a stack of stores over a
    memory whose relevant cells are known from the context. *)
Ltac solve_lookup :=
  simpl;
  repeat first
    [ rewrite lookup_insert_eq
    | rewrite lookup_insert_ne by congruence
    | rewrite lookup_delete_ne by congruence ];
  first [ eassumption | reflexivity ].

(** One step of execution: run the access at the head of the goal. *)
Ltac mstep_core :=
  lazymatch goal with
  | |- bind (bind _ _) _ _ = _ => rewrite bind_assoc
  | |- bind (ret _) _ _ = _ => rewrite bind_ret
  | |- bind (get_next (Some _)) _ _ = _ =>
      erewrite bind_eq by (apply get_next_eq; solve_lookup)
  | |- bind (get_prev (Some _)) _ _ = _ =>
      erewrite bind_eq by (apply get_prev_eq; solve_lookup)
  | |- bind (get_data (Some _)) _ _ = _ =>
      erewrite bind_eq by (apply get_data_eq; solve_lookup)
  | |- bind (set_next (Some _) _) _ _ = _ =>
      erewrite bind_eq by (apply set_next_eq; solve_lookup)
  | |- bind (set_prev (Some _) _) _ _ = _ =>
      erewrite bind_eq by (apply set_prev_eq; solve_lookup)
  | |- bind (set_data (Some _) _) _ _ = _ =>
      erewrite bind_eq by (apply set_data_eq; solve_lookup)
  | |- bind (get_size (Some _)) _ _ = _ =>
      erewrite bind_eq by (apply get_size_eq; solve_lookup)
  | |- bind (get_head (Some _)) _ _ = _ =>
      erewrite bind_eq by (apply get_head_eq; solve_lookup)
  | |- bind (get_tail (Some _)) _ _ = _ =>
      erewrite bind_eq by (apply get_tail_eq; solve_lookup)
  | |- bind (set_size (Some _) _) _ _ = _ =>
      erewrite bind_eq by (apply set_size_eq; solve_lookup)
  | |- bind (set_head (Some _) _) _ _ = _ =>
      erewrite bind_eq by (apply set_head_eq; solve_lookup)
  | |- bind (set_tail (Some _) _) _ _ = _ =>
      erewrite bind_eq by (apply set_tail_eq; solve_lookup)
  | |- bind (free_node (Some _)) _ _ = _ =>
      erewrite bind_eq by (eapply free_node_eq; solve_lookup)
  | |- get_next (Some _) _ = _ => erewrite get_next_eq by solve_lookup
  | |- get_prev (Some _) _ = _ => erewrite get_prev_eq by solve_lookup
  | |- set_next (Some _) _ _ = _ => erewrite set_next_eq by solve_lookup
  | |- set_prev (Some _) _ _ = _ => erewrite set_prev_eq by solve_lookup
  | |- set_tail (Some _) _ _ = _ => erewrite set_tail_eq by solve_lookup
  | |- set_head (Some _) _ _ = _ => erewrite set_head_eq by solve_lookup
  | |- set_size (Some _) _ _ = _ => erewrite set_size_eq by solve_lookup
  end.

Ltac mstep := simpl; mstep_core.

Ltac mrun := repeat first [ mstep_core | progress simpl ].

(** Normal form of segment facts. *)
Lemma last_or_nil d : last_or [] d = d.
Proof. done. Qed.

Lemma snoc_case (l : list addr) : l = [] ∨ ∃ l' z, l = l' ++ [z].
Proof.
  destruct l as [|a l] using rev_ind; [by left|]. right. eauto.
Qed.

(** Unfold a [NoDup] fact over a chain into elementary facts: named
    nodes are pairwise distinct and absent from the sublists, and each
    element of a sublist differs from whatever follows it. *)
Ltac nd_facts Hnd :=
  repeat first [ rewrite <- app_assoc in Hnd | progress simpl in Hnd ];
  repeat first
    [ rewrite NoDup_app in Hnd | rewrite NoDup_cons in Hnd
    | rewrite NoDup_nil in Hnd
    | setoid_rewrite not_elem_of_cons in Hnd
    | setoid_rewrite not_elem_of_app in Hnd ];
  repeat match goal with
  | H : _ ∧ _ |- _ => destruct H
  | H : True |- _ => clear H
  end.

Ltac seg_norm :=
  repeat first
    [ rewrite dseg_app | rewrite hd_or_app | rewrite last_or_app
    | rewrite last_or_cons | rewrite last_or_nil | progress cbn [dseg hd_or] ].

Ltac seg_norm_in H :=
  repeat first
    [ rewrite dseg_app in H | rewrite hd_or_app in H | rewrite last_or_app in H
    | rewrite last_or_cons in H | rewrite last_or_nil in H
    | progress cbn [dseg hd_or] in H ].

(** Split a normalised segment hypothesis into node and frame facts. *)
Ltac seg_destruct H :=
  seg_norm_in H;
  repeat match goal with
  | H : _ ∧ _ |- _ => destruct H
  | H : True |- _ => clear H
  | H : ∃ x : Node, _ !! _ = Some x ∧ _ |- _ =>
      let d := fresh "d" in let nx := fresh "nx" in let pv := fresh "pv" in
      destruct H as ([d nx pv] & H & ? & ?); simpl in *; subst nx pv
  end.

(** Prove a normalised segment goal over a stack of stores: node facts
    by lookup, frame facts from the segment of the original memory. *)
Ltac seg_node :=
  eexists; split; [solve_lookup | simpl; split; reflexivity].

Ltac seg_frame :=
  eapply dseg_frame; [|eassumption];
  let c := fresh "c" in let Hc := fresh "Hc" in
  intros c Hc;
  repeat match goal with
  | H : ∀ x, x ∈ ?F → _, Hc : c ∈ ?F |- _ => pose proof (H c Hc); clear H
  end;
  repeat match goal with
  | H : _ ∧ _ |- _ => destruct H
  end;
  repeat first
    [ rewrite lookup_insert_ne;
      [|first [congruence | intros ->; contradiction]]
    | rewrite lookup_delete_ne;
      [|first [congruence | intros ->; contradiction]] ];
  reflexivity.

Ltac seg_solve :=
  seg_norm;
  repeat match goal with
  | |- _ ∧ _ => split
  | |- True => exact I
  | |- ∃ x : Node, _ => seg_node
  | |- dseg _ _ _ _ => seg_frame
  end.

Ltac data_solve :=
  let c := fresh "c" in
  intros c; simpl;
  repeat (rewrite lookup_insert; case_decide; subst; simpl);
  repeat match goal with
  | H : ?h !! ?a = Some _ |- context [?h !! ?a] => rewrite H
  end; try reflexivity.

Lemma same_data_trans h1 h2 h3 :
  same_data h1 h2 → same_data h2 h3 → same_data h1 h3.
Proof. intros H1 H2 c. by rewrite H2, H1. Qed.

Lemma same_data_at h h' a : same_data h h' → data_at h' a = data_at h a.
Proof.
  intros H. unfold data_at. specialize (H a).
  destruct (h' !! a), (h !! a); simpl in *; congruence.
Qed.

Lemma same_data_map h h' (l : list addr) :
  same_data h h' → data_at h' <$> l = data_at h <$> l.
Proof. intros H. apply list_fmap_ext. intros i a _. by apply same_data_at. Qed.

Lemma ptr_eqb_refl p : ptr_eqb p p = true.
Proof. unfold ptr_eqb. by apply bool_decide_eq_true_2. Qed.

Lemma ptr_eqb_ne p q : p ≠ q → ptr_eqb p q = false.
Proof. unfold ptr_eqb. by apply bool_decide_eq_false_2. Qed.

Ltac ptr_neq := first [ congruence | intros ?; simplify_eq; congruence ].

Ltac ptr_cmp :=
  repeat first [ rewrite ptr_eqb_refl | rewrite ptr_eqb_ne by ptr_neq ].

Ltac mrun_cmp :=
  repeat first [ mstep_core | progress simpl | progress ptr_cmp
               | progress unfold swap_adjacent ].

(** Run [f] on a decomposed chain and re-establish the segment facts. *)
Ltac run_and_solve f :=
  eexists; split; [unfold f; mrun_cmp; reflexivity|];
  split; [seg_solve | data_solve].

(** The proof of one shape of the chain: distinctness facts from [Hnd],
    node and frame facts from [Hd], then execution of [f]. *)
Ltac chain_case Hnd Hd f :=
  once (nd_facts Hnd); once (seg_destruct Hd); once (run_and_solve f).

(** ** Inserting a fresh node before a node of the chain *)

Lemma link_behind_new h L k A b B a d :
  NoDup (A ++ a :: b :: B) →
  dseg h None (A ++ b :: B) None →
  h !! a = Some (mkNode d None None) →
  ∃ h', link_behind (Some b) (Some a) (mkMem h L k) = Some (tt, mkMem h' L k)
        ∧ dseg h' None (A ++ a :: b :: B) None
        ∧ same_data h h'.
Proof.
  intros Hnd Hd Ha.
  destruct (snoc_case A) as [->|(A' & z & ->)];
    chain_case Hnd Hd link_behind.
Qed.

Lemma fresh_node_unused (h : gmap addr Node) p l n :
  dseg h p l n → fresh (dom h) ∉ l.
Proof.
  intros Hd Hin. destruct (dseg_alloc _ _ _ _ _ Hd Hin) as [x Hx].
  apply (is_fresh (dom h)). apply elem_of_dom. eauto.
Qed.

Lemma data_at_insert h a x : data_at (<[a := x]> h) a = n_data x.
Proof. unfold data_at. by rewrite lookup_insert_eq. Qed.

Lemma data_at_insert_ne h a b x : a ≠ b → data_at (<[a := x]> h) b = data_at h b.
Proof. intros. unfold data_at. by rewrite lookup_insert_ne. Qed.

Lemma contents_frame (h h' : gmap addr Node) (l : list addr) :
  (∀ a, a ∈ l → data_at h' a = data_at h a) →
  data_at h' <$> l = data_at h <$> l.
Proof.
  intros H. induction l as [|a l IH]; [done|].
  rewrite !fmap_cons, H, IH; [done| |]; set_solver.
Qed.

(** [list_add_at] at a valid index: what the call does to the chain. *)
Lemma list_add_at_spec h L k lp l index x :
  let m := mkMem h L (S k) in
  let i := Z.to_nat index in
  let a := fresh (dom h) in
  list_inv m lp l →
  0 ≤ index < Z.of_nat (length l) →
  Z.of_nat (length l) + 1 < SIZE_MOD →
  ∃ m', list_add_at (Some lp) x index m = Some (true, m')
        ∧ (a ∉ l)
        ∧ list_inv m' lp (take i l ++ a :: drop i l)
        ∧ data_at (nodes m') a = x
        ∧ (∀ c, c ∈ l → data_at (nodes m') c = data_at h c).
Proof.
  intros m i a Hinv Hi Hb. pose proof Hinv as (HL & Hnd & Hd & _).
  simpl in HL, Hd.
  assert (Hfresh : a ∉ l) by (by eapply fresh_node_unused).
  destruct (lookup_lt_is_Some_2 l i) as [b Hb']; [lia|].
  pose proof (take_drop_middle _ _ _ Hb') as Hl.
  rewrite (drop_S _ _ _ Hb').
  set (A := take i l) in *. set (B := drop (S i) l) in *.
  assert (HlenA : length A = i) by (apply length_take_le; lia).
  clearbody A B. subst l.
  assert (Hnd' : NoDup (A ++ a :: b :: B)).
  { revert Hnd Hfresh. rewrite !NoDup_app, !NoDup_cons. set_solver. }
  set (h0 := <[a := mkNode x None None]> (<[a := mkNode 0 None None]> h)).
  assert (Hd0 : dseg h0 None (A ++ b :: B) None).
  { eapply dseg_frame; [|exact Hd]. intros c Hc. unfold h0.
    rewrite !lookup_insert_ne by (intros ->; done). done. }
  destruct (link_behind_new h0 L k A b B a x Hnd' Hd0) as (h' & Hlb & Hd' & Hsd).
  { unfold h0. by rewrite lookup_insert_eq. }
  assert (∃ L', list_add_at (Some lp) x index m = Some (true, mkMem h' L' k)
                ∧ L' !! lp = Some (mkList (wrap (Z.of_nat (length (A ++ b :: B)) + 1))
                                     (if index =? 0 then Some a
                                      else head (A ++ b :: B))
                                     (last (A ++ b :: B))))
    as (L' & Hrun & HL').
  { unfold list_add_at.
    destruct (Z.eqb_spec index 0); eexists;
      (split;
       [ erewrite bind_eq by (eapply get_node_at_spec; [exact Hinv|lia]);
         fold i; rewrite Hb';
         erewrite bind_eq by apply calloc_node_eq; fold a; simpl;
         mstep; fold h0; erewrite bind_eq by exact Hlb;
         mrun; reflexivity
       | simpl; by rewrite lookup_insert_eq ]). }
  exists (mkMem h' L' k). split; [done|]. split; [done|].
  rewrite length_app in *. simpl in *.
  rewrite wrap_small in HL' by lia.
  split; [|split].
  - split; [|split; [done|split; [done|]]].
    + simpl. rewrite HL'. f_equal. rewrite length_app. simpl. f_equal.
      * lia.
      * destruct (Z.eqb_spec index 0).
        -- by assert (A = []) as -> by (apply length_zero_iff_nil; lia).
        -- destruct A; [simpl in *; lia|done].
      * rewrite !last_app. simpl. by rewrite !last_cons.
    + rewrite length_app. simpl. lia.
  - rewrite (same_data_at _ _ _ Hsd); unfold h0; by rewrite data_at_insert.
  - intros c Hc. assert (a ≠ c) by (intros ->; done).
    rewrite (same_data_at _ _ _ Hsd); unfold h0;
      by rewrite !data_at_insert_ne.
Qed.

(** ** Concrete memories *)

(** Discharge [list_inv] on a closed memory and chain. *)
Ltac solve_inv :=
  split; [vm_compute; reflexivity|];
  split; [repeat (apply NoDup_cons_2; [set_solver|]); apply NoDup_nil_2|];
  split; [|vm_compute; reflexivity];
  cbn [dseg];
  repeat match goal with
  | |- _ ∧ _ => split
  | |- True => exact I
  | |- ∃ x : Node, _ =>
      eexists; split; [vm_compute; reflexivity|split; reflexivity]
  end.

Lemma mem_of_3_inv : list_inv (mem_of [10; 20; 30]) 1%positive [1; 2; 3]%positive.
Proof. solve_inv. Qed.

(** ** Indexed insertion *)

(** C7: on a list satisfying the invariant, [list_add_at] at an index
    below the count succeeds whenever the allocator can provide a node;
    afterwards [list_get] at that index returns the inserted element,
    the count has grown by exactly one, and the new node sits before the
    previous occupant of the index (so it is the new head when the index
    is 0). *)
Theorem list_add_at_then_get m lp l index x :
  list_inv m lp l →
  0 ≤ index < Z.of_nat (length l) →
  Z.of_nat (length l) + 1 < SIZE_MOD →
  (0 < avail m)%nat →
  let i := Z.to_nat index in
  ∃ m' a,
    list_add_at (Some lp) x index m = Some (true, m')
    ∧ list_get (Some lp) index m' = Some (Some x, m')
    ∧ list_inv m' lp (take i l ++ a :: drop i l)
    ∧ l_size <$> lists m' !! lp = Some (Z.of_nat (length l) + 1)
    ∧ elements m' lp = Some (take i (contents m l) ++ x :: drop i (contents m l)).
Proof.
  intros Hinv Hi Hb Hav i. destruct m as [h L [|k]]; [simpl in Hav; lia|].
  destruct (list_add_at_spec h L k lp l index x Hinv Hi Hb)
    as (m' & Hrun & Hfresh & Hinv' & Hda & Hdl).
  fold i in Hinv', Hfresh.
  exists m', (fresh (dom h)). split; [done|].
  assert (Hlen : length (take i l) = i) by (apply length_take_le; lia).
  assert (Hat : (take i l ++ fresh (dom h) :: drop i l) !! i
                = Some (fresh (dom h))).
  { rewrite lookup_app_r by lia. by rewrite Hlen, Nat.sub_diag. }
  split; [|split; [done|split]].
  - unfold list_get.
    erewrite bind_eq by (eapply get_node_at_spec; [exact Hinv'|lia]).
    fold i. rewrite Hat. simpl.
    destruct Hinv' as (_ & _ & Hd' & _).
    destruct (dseg_lookup _ _ _ _ _ _ Hd' Hat) as (n & Hn & _).
    erewrite bind_eq by (by apply get_data_eq).
    unfold data_at in Hda. rewrite Hn in Hda. by rewrite Hda.
  - destruct Hinv' as (-> & _). simpl. f_equal.
    rewrite length_app. simpl. rewrite length_take, length_drop. lia.
  - rewrite (list_inv_elements _ _ _ Hinv'). f_equal.
    unfold contents. rewrite fmap_app, fmap_cons, Hda.
    rewrite <- fmap_take, <- fmap_drop. simpl. f_equal; [|f_equal].
    + apply contents_frame. intros c Hc. apply Hdl.
      by eapply subseteq_take.
    + apply contents_frame. intros c Hc. apply Hdl.
      by eapply subseteq_drop.
Qed.

Lemma list_add_at_then_get_witness :
  ∃ m' a,
    list_add_at (Some 1%positive) 15 1 (mem_of [10; 20; 30]) = Some (true, m')
    ∧ list_get (Some 1%positive) 1 m' = Some (Some 15, m')
    ∧ list_inv m' 1%positive (1 :: a :: [2; 3])%positive
    ∧ l_size <$> lists m' !! 1%positive = Some 4
    ∧ elements m' 1%positive = Some [10; 15; 20; 30].
Proof.
  apply (list_add_at_then_get (mem_of [10; 20; 30]) 1%positive [1; 2; 3]%positive 1 15).
  - exact mem_of_3_inv.
  - simpl. lia.
  - vm_compute. reflexivity.
  - vm_compute. lia.
Defined.

(** C8: [list_add_at] with the index equal to the count of a non-empty
    list fails, and the list header, every allocated node and hence the
    chain and its payloads are as before.  (The node allocated before
    the index check is left unreferenced.) *)
Theorem list_add_at_count_rejected m lp l x :
  list_inv m lp l →
  l ≠ [] →
  ∃ m',
    list_add_at (Some lp) x (Z.of_nat (length l)) m = Some (false, m')
    ∧ lists m' = lists m
    ∧ (∀ a n, nodes m !! a = Some n → nodes m' !! a = Some n)
    ∧ list_inv m' lp l
    ∧ contents m' l = contents m l.
Proof.
  intros Hinv _. pose proof Hinv as (HL & Hnd & Hd & Hb).
  assert (Hnone : l !! Z.to_nat (Z.of_nat (length l)) = None).
  { apply lookup_ge_None_2. lia. }
  destruct m as [h L [|k]]; simpl in *.
  - exists (mkMem h L 0%nat). split; [|done].
    unfold list_add_at.
    erewrite bind_eq by (eapply get_node_at_spec; [exact Hinv|lia]).
    by rewrite Hnone.
  - set (a := fresh (dom h)).
    assert (Ha : h !! a = None).
    { apply not_elem_of_dom. apply is_fresh. }
    exists (mkMem (<[a := mkNode 0 None None]> h) L k). split; [|split; [done|]].
    { unfold list_add_at.
      erewrite bind_eq by (eapply get_node_at_spec; [exact Hinv|lia]).
      rewrite Hnone. by erewrite bind_eq by apply calloc_node_eq. }
    assert (Hfr : ∀ c, c ∈ l → <[a := mkNode 0 None None]> h !! c = h !! c).
    { intros c Hc. apply lookup_insert_ne. intros ->.
      destruct (dseg_alloc _ _ _ _ _ Hd Hc) as [? ?]. congruence. }
    split; [|split].
    + intros c n Hc. simpl. rewrite lookup_insert_ne; [done|congruence].
    + split; [done|split; [done|split; [|done]]]. simpl.
      by eapply dseg_frame.
    + unfold contents. simpl. apply contents_frame. intros c Hc.
      unfold data_at. by rewrite Hfr.
Qed.

Lemma list_add_at_count_rejected_witness :
  ∃ m',
    list_add_at (Some 1%positive) 99 3 (mem_of [10; 20; 30]) = Some (false, m')
    ∧ lists m' = lists (mem_of [10; 20; 30])
    ∧ (∀ a n, nodes (mem_of [10; 20; 30]) !! a = Some n → nodes m' !! a = Some n)
    ∧ list_inv m' 1%positive [1; 2; 3]%positive
    ∧ contents m' [1; 2; 3]%positive = contents (mem_of [10; 20; 30]) [1; 2; 3]%positive.
Proof.
  apply (list_add_at_count_rejected (mem_of [10; 20; 30]) 1%positive [1; 2; 3]%positive 99).
  - exact mem_of_3_inv.
  - discriminate.
Defined.

(** ** Bulk append *)

(** C4: [list_add_all] passes [list1->size] as the index to
    [list_add_all_at], which rejects every index that is not below
    [list1->size]; the call returns false and the memory is unchanged,
    whatever the two lists hold. *)
Theorem list_add_all_always_false m lp1 lp2 L1 L2 :
  lists m !! lp1 = Some L1 →
  lists m !! lp2 = Some L2 →
  list_add_all (Some lp1) (Some lp2) m = Some (false, m).
Proof.
  intros H1 H2. unfold list_add_all.
  erewrite bind_eq by (by apply get_size_eq).
  unfold list_add_all_at.
  erewrite bind_eq by (by apply get_size_eq).
  destruct (l_size L2 =? 0); [done|].
  erewrite bind_eq by (by apply get_size_eq).
  by rewrite (proj2 (Z.geb_le _ _)) by lia.
Qed.

Lemma list_add_all_always_false_witness :
  list_add_all (Some 1%positive) (Some 2%positive) (mem_of2 [1; 2] [3; 4])
  = Some (false, mem_of2 [1; 2] [3; 4]).
Proof.
  eapply (list_add_all_always_false (mem_of2 [1; 2] [3; 4]) 1%positive 2%positive);
    vm_compute; reflexivity.
Defined.

(** ** Swapping two nodes of a chain *)

Lemma swap_adjacent_spec h L k A x y B :
  NoDup (A ++ x :: y :: B) →
  dseg h None (A ++ x :: y :: B) None →
  ∃ h', swap (Some x) (Some y) (mkMem h L k) = Some (tt, mkMem h' L k)
        ∧ dseg h' None (A ++ y :: x :: B) None
        ∧ same_data h h'.
Proof.
  intros Hnd Hd.
  destruct (snoc_case A) as [->|(A' & z & ->)]; destruct B as [|b1 B'];
    chain_case Hnd Hd swap.
Qed.

Lemma swap_apart_spec h L k A x m1 M y B :
  NoDup (A ++ x :: (m1 :: M) ++ y :: B) →
  dseg h None (A ++ x :: (m1 :: M) ++ y :: B) None →
  ∃ h', swap (Some x) (Some y) (mkMem h L k) = Some (tt, mkMem h' L k)
        ∧ dseg h' None (A ++ y :: (m1 :: M) ++ x :: B) None
        ∧ same_data h h'.
Proof.
  intros Hnd Hd.
  destruct (snoc_case A) as [->|(A' & z & ->)]; destruct B as [|b1 B'];
    (destruct (snoc_case M) as [->|(M' & mk & ->)]);
    chain_case Hnd Hd swap.
Qed.

(** [swap] exchanges the positions of two nodes of a chain, adjacent or
    not. *)
Lemma swap_spec h L k A x M y B :
  NoDup (A ++ x :: M ++ y :: B) →
  dseg h None (A ++ x :: M ++ y :: B) None →
  ∃ h', swap (Some x) (Some y) (mkMem h L k) = Some (tt, mkMem h' L k)
        ∧ dseg h' None (A ++ y :: M ++ x :: B) None
        ∧ same_data h h'.
Proof.
  destruct M as [|m1 M].
  - apply swap_adjacent_spec.
  - apply swap_apart_spec.
Qed.

(** ** Reversal *)

Lemma half_SS n : (S (S n) / 2 = S (n / 2))%nat.
Proof.
  replace (S (S n)) with (1 * 2 + n)%nat by lia.
  by rewrite Nat.div_add_l by lia.
Qed.

Lemma reverse_loop_spec n : ∀ h L k A M B left right,
  NoDup (A ++ M ++ B) →
  dseg h None (A ++ M ++ B) None →
  n = (length M / 2)%nat →
  (n ≠ 0%nat → left = head M ∧ right = last M) →
  ∃ h', reverse_loop n left right (mkMem h L k) = Some (tt, mkMem h' L k)
        ∧ dseg h' None (A ++ reverse M ++ B) None
        ∧ same_data h h'.
Proof.
  induction n as [|n IH]; intros h L k A M B left right Hnd Hd Hn Hlr.
  - exists h. split; [done|]. split; [|done].
    destruct M as [|a [|b M]]; [done|done|].
    simpl length in Hn. rewrite half_SS in Hn. lia.
  - destruct Hlr as [-> ->]; [done|].
    destruct M as [|x M]; [done|].
    destruct (snoc_case M) as [->|(M0 & y & ->)]; [done|].
    assert (Hn' : n = (length M0 / 2)%nat).
    { simpl length in Hn. rewrite length_app in Hn. simpl length in Hn.
      replace (S (length M0 + 1)) with (S (S (length M0))) in Hn by lia.
      rewrite half_SS in Hn. lia. }
    assert (Hx : ∃ nx, h !! x = Some nx ∧ n_next nx = hd_or M0 (Some y)).
    { apply dseg_app in Hd as [_ Hd]. destruct Hd as [(nx & ? & ? & Hnx) _].
      exists nx. split; [done|]. by rewrite Hnx, !hd_or_app. }
    assert (Hy : ∃ ny, h !! y = Some ny ∧ n_prev ny = last_or M0 (Some x)).
    { assert (Heq : A ++ (x :: M0 ++ [y]) ++ B = (A ++ x :: M0) ++ y :: B)
        by (by simpl; rewrite <- !app_assoc).
      rewrite Heq in Hd. apply dseg_app in Hd as [_ Hd].
      destruct Hd as [(ny & ? & Hny & _) _].
      exists ny. split; [done|].
      by rewrite Hny, last_or_app, last_or_cons. }
    destruct Hx as (nx & Hx & Hnx), Hy as (ny & Hy & Hny).
    simpl in Hnd, Hd. rewrite <- app_assoc in Hnd, Hd. simpl in Hnd, Hd.
    destruct (swap_spec h L k A x M0 y B Hnd Hd) as (h1 & Hsw & Hd1 & Hs1).
    destruct (IH h1 L k (A ++ [y]) M0 (x :: B)
                (hd_or M0 (Some y)) (last_or M0 (Some x)))
      as (h2 & Hrl & Hd2 & Hs2).
    + rewrite <- app_assoc. simpl.
      revert Hnd. rewrite !NoDup_app, !NoDup_cons, !NoDup_app, !NoDup_cons.
      set_solver.
    + by rewrite <- app_assoc.
    + done.
    + intros Hn0. destruct M0 as [|m0 M0]; [subst; done|]. split; [done|].
      unfold last_or. by destruct (last (m0 :: M0)) eqn:E;
        [|apply last_None in E].
    + exists h2. split; [|split].
      * rewrite (app_comm_cons M0), last_snoc. simpl.
        mstep. rewrite Hnx. mstep. rewrite Hny.
        erewrite bind_eq by exact Hsw. exact Hrl.
      * rewrite reverse_cons, reverse_app. simpl.
        rewrite <- !app_assoc in Hd2. simpl in Hd2.
        by rewrite <- !app_assoc.
      * by eapply same_data_trans.
Qed.

Lemma half_nat_Z n : Z.to_nat (Z.of_nat n / 2) = (n / 2)%nat.
Proof.
  rewrite <- (Nat2Z.id (n / 2)). f_equal.
  by rewrite (Nat2Z.inj_div n 2).
Qed.

(** [list_reverse] turns the chain around, relinking the same nodes. *)
Lemma list_reverse_spec m lp l :
  list_inv m lp l →
  ∃ m', list_reverse (Some lp) m = Some (tt, m')
        ∧ list_inv m' lp (reverse l)
        ∧ same_data (nodes m) (nodes m').
Proof.
  intros (HL & Hnd & Hd & Hb). destruct m as [h L k]. simpl in *.
  destruct (reverse_loop_spec (length l / 2) h L k [] l [] (head l) (last l))
    as (h' & Hrl & Hd' & Hs); rewrite ?app_nil_r; simpl; try done.
  rewrite app_nil_r in Hd'. simpl in Hd'.
  eexists. split; [|split].
  - unfold list_reverse. do 5 mstep. simpl.
    rewrite half_nat_Z. erewrite bind_eq by exact Hrl.
    mrun. reflexivity.
  - split; [|split; [by rewrite reverse_Permutation|split; [done|]]].
    + simpl. rewrite lookup_insert_eq. simpl.
      by rewrite length_reverse, head_reverse, last_reverse.
    + by rewrite length_reverse.
  - done.
Qed.

(** C9: reversing twice yields the original list: the same nodes in the
    same order, hence the same payload sequence and the same count, with
    the same header. *)
Theorem list_reverse_twice m lp l :
  list_inv m lp l →
  ∃ m1 m2,
    list_reverse (Some lp) m = Some (tt, m1)
    ∧ list_reverse (Some lp) m1 = Some (tt, m2)
    ∧ list_inv m2 lp l
    ∧ contents m2 l = contents m l
    ∧ lists m2 !! lp = lists m !! lp
    ∧ elements m2 lp = elements m lp.
Proof.
  intros Hinv.
  destruct (list_reverse_spec m lp l Hinv) as (m1 & Hr1 & Hinv1 & Hs1).
  destruct (list_reverse_spec m1 lp _ Hinv1) as (m2 & Hr2 & Hinv2 & Hs2).
  rewrite reverse_involutive in Hinv2.
  assert (Hc : contents m2 l = contents m l).
  { unfold contents. apply same_data_map. by eapply same_data_trans. }
  exists m1, m2. do 4 (split; [done|]). split.
  - destruct Hinv as (-> & _), Hinv2 as (-> & _). done.
  - by rewrite (list_inv_elements _ _ _ Hinv), (list_inv_elements _ _ _ Hinv2), Hc.
Qed.

Lemma list_reverse_twice_witness :
  ∃ m1 m2,
    list_reverse (Some 1%positive) (mem_of [10; 20; 30]) = Some (tt, m1)
    ∧ list_reverse (Some 1%positive) m1 = Some (tt, m2)
    ∧ list_inv m2 1%positive [1; 2; 3]%positive
    ∧ contents m2 [1; 2; 3]%positive
      = contents (mem_of [10; 20; 30]) [1; 2; 3]%positive
    ∧ lists m2 !! 1%positive = lists (mem_of [10; 20; 30]) !! 1%positive
    ∧ elements m2 1%positive = elements (mem_of [10; 20; 30]) 1%positive.
Proof.
  apply (list_reverse_twice (mem_of [10; 20; 30]) 1%positive [1; 2; 3]%positive).
  exact mem_of_3_inv.
Defined.

(** ** Unlinking a node, and inserting after a node *)

Lemma head_snoc_app (l : list addr) z r : head ((l ++ [z]) ++ r) = head (l ++ [z]).
Proof. by destruct l. Qed.

Lemma last_app_cons (l : list addr) a r : last (l ++ a :: r) = last (a :: r).
Proof.
  rewrite last_app. by destruct (last (a :: r)) eqn:E; [|apply last_None in E].
Qed.

Lemma last_cons_cons (a b : addr) r : last (a :: b :: r) = last (b :: r).
Proof. done. Qed.

Lemma NoDup_app_remove (A : list addr) a B :
  NoDup (A ++ a :: B) → NoDup (A ++ B) ∧ a ∉ A ++ B.
Proof. rewrite !NoDup_app, NoDup_cons. set_solver. Qed.

(** The header of a list after an operation: each field agrees with
    the chain. *)
Ltac hdr_solve :=
  simpl; rewrite lookup_insert_eq; f_equal; f_equal;
  first
    [ rewrite ?app_nil_r, ?head_snoc_app, ?last_app_cons, ?last_snoc,
        ?last_cons_cons; reflexivity
    | rewrite ?length_app in *; simpl in *;
      rewrite ?wrap_small by lia; lia ].

Ltac data_frame a :=
  let c := fresh "c" in let Hc := fresh "Hc" in
  intros c Hc;
  assert (c ≠ a) by (intros ->; contradiction);
  unfold data_at; rewrite ?lookup_delete_ne by done;
  repeat (rewrite lookup_insert; case_decide; subst; simpl);
  repeat match goal with
  | H : ?h !! ?x = Some _ |- context [?h !! ?x] => rewrite H
  end; reflexivity.

Lemma unlink_spec h L k lp A a B :
  list_inv (mkMem h L k) lp (A ++ a :: B) →
  ∃ h' L',
    unlink (Some lp) (Some a) (mkMem h L k)
    = Some (data_at h a, mkMem h' L' (S k))
    ∧ list_inv (mkMem h' L' (S k)) lp (A ++ B)
    ∧ (∀ c, c ∈ A ++ B → data_at h' c = data_at h c).
Proof.
  intros (HL & Hnd & Hd & Hb). simpl in HL, Hd.
  destruct (NoDup_app_remove _ _ _ Hnd) as [Hnd' Hna].
  destruct (snoc_case A) as [->|(A' & z & ->)]; destruct B as [|b1 B'];
    once (nd_facts Hnd); once (seg_destruct Hd);
    unfold data_at at 1;
    match goal with H : h !! a = Some _ |- _ => rewrite H end.
  all: eexists; eexists; split; [unfold unlink; mrun; reflexivity|].
  all: split; [|data_frame a].
  all: split; [hdr_solve|].
  all: split; [assumption|].
  all: split; [simpl; seg_solve|].
  all: rewrite ?length_app in *; simpl in *; lia.
Qed.

Lemma link_after_new h L k A b B a d :
  NoDup (A ++ b :: a :: B) →
  dseg h None (A ++ b :: B) None →
  h !! a = Some (mkNode d None None) →
  ∃ h', link_after (Some b) (Some a) (mkMem h L k) = Some (tt, mkMem h' L k)
        ∧ dseg h' None (A ++ b :: a :: B) None
        ∧ same_data h h'.
Proof.
  intros Hnd Hd Ha.
  destruct B as [|b1 B']; chain_case Hnd Hd link_after.
Qed.

(** ** Cursor insertion followed by cursor removal *)

(** Allocation of the node a cursor inserts, and the store of its
    payload: the chain is untouched. *)
Lemma new_node_frame h l e :
  let a := fresh (dom h) in
  let h0 := <[a := mkNode e None None]> (<[a := mkNode 0 None None]> h) in
  dseg h None l None →
  (a ∉ l) ∧ dseg h0 None l None ∧ h0 !! a = Some (mkNode e None None)
  ∧ (∀ c, c ∈ l → data_at h0 c = data_at h c).
Proof.
  intros a h0 Hd.
  assert (Hfresh : a ∉ l) by (by eapply fresh_node_unused).
  split; [done|]. split; [|split].
  - eapply dseg_frame; [|exact Hd]. intros c Hc. unfold h0.
    rewrite !lookup_insert_ne by (intros ->; done). done.
  - unfold h0. by rewrite lookup_insert_eq.
  - intros c Hc. unfold h0. rewrite !data_at_insert_ne by (intros ->; done).
    done.
Qed.

Lemma list_iter_add_spec h L k lp A x y B idx e :
  let m := mkMem h L (S k) in
  let a := fresh (dom h) in
  list_inv m lp (A ++ x :: y :: B) →
  Z.of_nat (length (A ++ x :: y :: B)) + 1 < SIZE_MOD →
  ∃ m', list_iter_add (mkIter idx (Some lp) (Some x) (Some y)) e m
        = Some ((true, mkIter (wrap (idx + 1)) (Some lp) (Some a) (Some y)), m')
        ∧ list_inv m' lp (A ++ x :: a :: y :: B)
        ∧ data_at (nodes m') a = e
        ∧ (∀ c, c ∈ A ++ x :: y :: B → data_at (nodes m') c = data_at h c).
Proof.
  intros m a (HL & Hnd & Hd & _) Hb. simpl in HL, Hd.
  destruct (new_node_frame h _ e Hd) as (Hfresh & Hd0 & Ha0 & Hdat0).
  fold a in Hfresh, Hd0, Ha0, Hdat0.
  set (h0 := <[a := mkNode e None None]> (<[a := mkNode 0 None None]> h)) in *.
  assert (Hnd' : NoDup ((A ++ [x]) ++ a :: y :: B)).
  { rewrite <- app_assoc. simpl.
    revert Hnd Hfresh. rewrite !NoDup_app, !NoDup_cons. set_solver. }
  replace (A ++ x :: y :: B) with ((A ++ [x]) ++ y :: B) in Hd0
    by (by rewrite <- app_assoc).
  destruct (link_behind_new h0 L k (A ++ [x]) y B a e Hnd' Hd0 Ha0)
    as (h' & Hlb & Hd' & Hsd).
  rewrite <- app_assoc in Hd', Hnd'. simpl in Hd', Hnd'.
  eexists. split; [|split; [|split]].
  - unfold list_iter_add.
    erewrite bind_eq by apply calloc_node_eq. fold a. simpl.
    mstep. fold h0. erewrite bind_eq by exact Hlb.
    mrun. reflexivity.
  - split; [|split; [done|split; [done|]]].
    + simpl. rewrite lookup_insert_eq. f_equal.
      rewrite !length_app in *. simpl in *.
      rewrite wrap_small by lia. f_equal.
      * lia.
      * by destruct A.
      * by rewrite !last_app_cons, !last_cons_cons.
    + rewrite !length_app in *. simpl in *. lia.
  - simpl. rewrite (same_data_at _ _ _ Hsd). unfold h0.
    by rewrite data_at_insert.
  - intros c Hc. simpl. rewrite (same_data_at _ _ _ Hsd). by apply Hdat0.
Qed.

Lemma list_diter_add_spec h L k lp A x y B idx e :
  let m := mkMem h L (S k) in
  let a := fresh (dom h) in
  list_inv m lp (A ++ y :: x :: B) →
  Z.of_nat (length (A ++ y :: x :: B)) + 1 < SIZE_MOD →
  ∃ m', list_diter_add (mkIter idx (Some lp) (Some x) (Some y)) e m
        = Some ((true, mkIter idx (Some lp) (Some a) (Some y)), m')
        ∧ list_inv m' lp (A ++ y :: a :: x :: B)
        ∧ data_at (nodes m') a = e
        ∧ (∀ c, c ∈ A ++ y :: x :: B → data_at (nodes m') c = data_at h c).
Proof.
  intros m a (HL & Hnd & Hd & _) Hb. simpl in HL, Hd.
  destruct (new_node_frame h _ e Hd) as (Hfresh & Hd0 & Ha0 & Hdat0).
  fold a in Hfresh, Hd0, Ha0, Hdat0.
  set (h0 := <[a := mkNode e None None]> (<[a := mkNode 0 None None]> h)) in *.
  assert (Hnd' : NoDup (A ++ y :: a :: x :: B)).
  { revert Hnd Hfresh. rewrite !NoDup_app, !NoDup_cons. set_solver. }
  destruct (link_after_new h0 L k A y (x :: B) a e Hnd' Hd0 Ha0)
    as (h' & Hlb & Hd' & Hsd).
  eexists. split; [|split; [|split]].
  - unfold list_diter_add.
    erewrite bind_eq by apply calloc_node_eq. fold a. simpl.
    mstep. fold h0. erewrite bind_eq by exact Hlb.
    mrun. reflexivity.
  - split; [|split; [done|split; [done|]]].
    + simpl. rewrite lookup_insert_eq. f_equal.
      rewrite !length_app in *. simpl in *.
      rewrite wrap_small by lia. f_equal.
      * lia.
      * by destruct A.
      * by rewrite !last_app_cons, !last_cons_cons.
    + rewrite !length_app in *. simpl in *. lia.
  - simpl. rewrite (same_data_at _ _ _ Hsd). unfold h0.
    by rewrite data_at_insert.
  - intros c Hc. simpl. rewrite (same_data_at _ _ _ Hsd). by apply Hdat0.
Qed.

(** Removal through a cursor whose [last] is a node of the chain. *)
Lemma list_iter_remove_spec m lp A a B idx nx :
  list_inv m lp (A ++ a :: B) →
  ∃ m', list_iter_remove (mkIter idx (Some lp) (Some a) nx) m
        = Some ((Some (data_at (nodes m) a), mkIter idx (Some lp) None nx), m')
        ∧ list_inv m' lp (A ++ B)
        ∧ (∀ c, c ∈ A ++ B → data_at (nodes m') c = data_at (nodes m) c).
Proof.
  intros Hinv. destruct m as [h L k].
  destruct (unlink_spec h L k lp A a B Hinv) as (h' & L' & Hun & Hinv' & Hdat).
  eexists. split; [|split; [exact Hinv'|exact Hdat]].
  unfold list_iter_remove. simpl. by erewrite bind_eq by exact Hun.
Qed.

Lemma list_diter_remove_eq it : list_diter_remove it = list_iter_remove it.
Proof. done. Qed.

(** C5 (as amended): for a forward cursor that has yielded [x] and whose
    upcoming node [y] exists, [list_iter_add] links a new node between
    [x] and [y], increments the count and the position counter, and
    makes the new node the cursor's [last]; a following
    [list_iter_remove] therefore removes the inserted element and gives
    back the chain as it was.  For a backward cursor (which yielded [x]
    and whose upcoming node is [y], the predecessor of [x]) the same
    holds of [list_diter_add] and [list_diter_remove], apart from the
    position counter. *)
Theorem cursor_add_then_remove m lp A x y B idx e :
  (0 < avail m)%nat →
  Z.of_nat (length A + length B) + 3 < SIZE_MOD →
  (list_inv m lp (A ++ x :: y :: B) →
   ∃ a m1 m2,
     list_iter_add (mkIter idx (Some lp) (Some x) (Some y)) e m
     = Some ((true, mkIter (wrap (idx + 1)) (Some lp) (Some a) (Some y)), m1)
     ∧ list_inv m1 lp (A ++ x :: a :: y :: B)
     ∧ data_at (nodes m1) a = e
     ∧ list_iter_remove (mkIter (wrap (idx + 1)) (Some lp) (Some a) (Some y)) m1
       = Some ((Some e, mkIter (wrap (idx + 1)) (Some lp) None (Some y)), m2)
     ∧ list_inv m2 lp (A ++ x :: y :: B)
     ∧ contents m2 (A ++ x :: y :: B) = contents m (A ++ x :: y :: B))
  ∧ (list_inv m lp (A ++ y :: x :: B) →
     ∃ a m1 m2,
       list_diter_add (mkIter idx (Some lp) (Some x) (Some y)) e m
       = Some ((true, mkIter idx (Some lp) (Some a) (Some y)), m1)
       ∧ list_inv m1 lp (A ++ y :: a :: x :: B)
       ∧ data_at (nodes m1) a = e
       ∧ list_diter_remove (mkIter idx (Some lp) (Some a) (Some y)) m1
         = Some ((Some e, mkIter idx (Some lp) None (Some y)), m2)
       ∧ list_inv m2 lp (A ++ y :: x :: B)
       ∧ contents m2 (A ++ y :: x :: B) = contents m (A ++ y :: x :: B)).
Proof.
  intros Hav Hb. destruct m as [h L [|k]]; [simpl in Hav; lia|]. split.
  - intros Hinv.
    destruct (list_iter_add_spec h L k lp A x y B idx e Hinv)
      as (m1 & Hadd & Hinv1 & Hda & Hdat1).
    { rewrite length_app. simpl. lia. }
    replace (A ++ x :: fresh (dom h) :: y :: B)
      with ((A ++ [x]) ++ fresh (dom h) :: y :: B) in Hinv1
      by (by rewrite <- app_assoc).
    destruct (list_iter_remove_spec m1 lp _ _ _ (wrap (idx + 1)) (Some y) Hinv1)
      as (m2 & Hrem & Hinv2 & Hdat2).
    rewrite <- app_assoc in Hinv2, Hdat2. simpl in Hinv2, Hdat2.
    rewrite Hda in Hrem.
    exists (fresh (dom h)), m1, m2.
    split; [done|]. split; [by rewrite <- app_assoc in Hinv1|].
    do 3 (split; [done|]).
    unfold contents. apply contents_frame. intros c Hc.
    rewrite Hdat2 by done. by apply Hdat1.
  - intros Hinv.
    destruct (list_diter_add_spec h L k lp A x y B idx e Hinv)
      as (m1 & Hadd & Hinv1 & Hda & Hdat1).
    { rewrite length_app. simpl. lia. }
    replace (A ++ y :: fresh (dom h) :: x :: B)
      with ((A ++ [y]) ++ fresh (dom h) :: x :: B) in Hinv1
      by (by rewrite <- app_assoc).
    destruct (list_iter_remove_spec m1 lp _ _ _ idx (Some y) Hinv1)
      as (m2 & Hrem & Hinv2 & Hdat2).
    rewrite <- app_assoc in Hinv2, Hdat2. simpl in Hinv2, Hdat2.
    rewrite Hda in Hrem.
    exists (fresh (dom h)), m1, m2.
    split; [done|]. split; [by rewrite <- app_assoc in Hinv1|].
    do 3 (split; [done|]).
    unfold contents. apply contents_frame. intros c Hc.
    rewrite Hdat2 by done. by apply Hdat1.
Qed.

Lemma cursor_add_then_remove_witness :
  (∃ a m1 m2,
     list_iter_add (mkIter 1 (Some 1%positive) (Some 1%positive) (Some 2%positive))
       99 (mem_of [10; 20; 30])
     = Some ((true, mkIter (wrap (1 + 1)) (Some 1%positive) (Some a)
                      (Some 2%positive)), m1)
     ∧ list_inv m1 1%positive (1 :: a :: 2 :: [3])%positive
     ∧ data_at (nodes m1) a = 99
     ∧ list_iter_remove
         (mkIter (wrap (1 + 1)) (Some 1%positive) (Some a) (Some 2%positive)) m1
       = Some ((Some 99, mkIter (wrap (1 + 1)) (Some 1%positive) None
                           (Some 2%positive)), m2)
     ∧ list_inv m2 1%positive [1; 2; 3]%positive
     ∧ contents m2 [1; 2; 3]%positive
       = contents (mem_of [10; 20; 30]) [1; 2; 3]%positive)
  ∧ (∃ a m1 m2,
       list_diter_add (mkIter 3 (Some 1%positive) (Some 3%positive) (Some 2%positive))
         99 (mem_of [10; 20; 30])
       = Some ((true, mkIter 3 (Some 1%positive) (Some a) (Some 2%positive)), m1)
       ∧ list_inv m1 1%positive (1 :: 2 :: a :: [3])%positive
       ∧ data_at (nodes m1) a = 99
       ∧ list_diter_remove
           (mkIter 3 (Some 1%positive) (Some a) (Some 2%positive)) m1
         = Some ((Some 99, mkIter 3 (Some 1%positive) None (Some 2%positive)), m2)
       ∧ list_inv m2 1%positive [1; 2; 3]%positive
       ∧ contents m2 [1; 2; 3]%positive
         = contents (mem_of [10; 20; 30]) [1; 2; 3]%positive).
Proof.
  split.
  - refine (proj1 (cursor_add_then_remove (mem_of [10; 20; 30]) 1%positive
                     [] 1%positive 2%positive [3%positive] 1 99 _ _) _).
    + vm_compute. lia.
    + vm_compute. reflexivity.
    + exact mem_of_3_inv.
  - refine (proj2 (cursor_add_then_remove (mem_of [10; 20; 30]) 1%positive
                     [1%positive] 3%positive 2%positive [] 3 99 _ _) _).
    + vm_compute. lia.
    + vm_compute. reflexivity.
    + exact mem_of_3_inv.
Defined.

(** C5 as stated fails: after a forward cursor over [10; 20; 30] has
    yielded 10, inserting 99 through it changes [last] from the node
    of 10 to the new node, and the following cursor removal returns 99
    and leaves 10 in the list. *)
Lemma cursor_add_keeps_last_counterexample :
  match
    (it0 <- list_iter_new (Some 1%positive) ;;
     r1 <- list_iter_next it0 ;;
     r2 <- list_iter_add (snd r1) 99 ;;
     r3 <- list_iter_remove (snd r2) ;;
     ret (fst r1, it_last (snd r1), it_last (snd r2), fst r3))
      (mem_of [10; 20; 30])
  with
  | Some ((yielded, last_before, last_after, removed), m) =>
      yielded = 10
      ∧ last_before = Some 1%positive
      ∧ last_after = Some 4%positive
      ∧ last_after ≠ last_before
      ∧ removed = Some 99
      ∧ elements m 1%positive = Some [10; 20; 30]
  | None => False
  end.
Proof. vm_compute. repeat split; congruence. Qed.

(** ** Moving a node of the chain before an earlier node *)

Lemma link_behind_move h L k P x M y S :
  NoDup (P ++ x :: M ++ y :: S) →
  dseg h None (P ++ x :: M ++ y :: S) None →
  ∃ h', link_behind (Some x) (Some y) (mkMem h L k) = Some (tt, mkMem h' L k)
        ∧ dseg h' None (P ++ y :: x :: M ++ S) None
        ∧ same_data h h'.
Proof.
  intros Hnd Hd.
  destruct (snoc_case P) as [->|(P' & z & ->)]; destruct S as [|s1 S'];
    (destruct (snoc_case M) as [->|(M' & mk & ->)]);
    chain_case Hnd Hd link_behind.
Qed.

(** ** Walking along a chain *)

Lemma dseg_mid h p P x S n :
  dseg h p (P ++ x :: S) n →
  ∃ nx, h !! x = Some nx ∧ n_prev nx = last_or P p ∧ n_next nx = hd_or S n.
Proof. intros [_ [Hx _]]%dseg_app. exact Hx. Qed.

Lemma walk_next_app m p R : ∀ P S n,
  dseg (nodes m) p (P ++ R ++ S) n →
  walk_next (length R) (hd_or (R ++ S) n) m = Some (hd_or S n, m).
Proof.
  induction R as [|y R IH]; intros P S n Hd; [done|].
  simpl. destruct (dseg_mid _ _ _ _ _ _ Hd) as (ny & Hy & _ & Hny).
  erewrite bind_eq by (by apply get_next_eq). rewrite Hny.
  apply (IH (P ++ [y])). by rewrite <- app_assoc.
Qed.

Lemma walk_next_last m p P y R S n :
  dseg (nodes m) p (P ++ (y :: R) ++ S) n →
  walk_next (length R) (Some y) m = Some (last (y :: R), m).
Proof.
  intros Hd. destruct (snoc_case (y :: R)) as [?|(R0 & z & HR)]; [done|].
  assert (Hlen : length R = length R0).
  { apply (f_equal length) in HR. rewrite length_app in HR. simpl in HR. lia. }
  rewrite HR, <- app_assoc in Hd. simpl in Hd.
  pose proof (walk_next_app m p R0 P (z :: S) n Hd) as Hw.
  rewrite HR, last_snoc, Hlen.
  replace (Some y) with (hd_or (R0 ++ z :: S) n); [done|].
  destruct R0; simpl in *; congruence.
Qed.

(** ** The merge of two runs *)

Section merge_lists_facts.
Context {T : Type} (le : T → T → bool).

Lemma merge_nil_l l : merge_lists le [] l = l.
Proof. by destruct l. Qed.

Lemma merge_nil_r l : merge_lists le l [] = l.
Proof. by destruct l. Qed.

Lemma merge_cons_cons x l1 y l2 :
  merge_lists le (x :: l1) (y :: l2)
  = if le x y then x :: merge_lists le l1 (y :: l2)
    else y :: merge_lists le (x :: l1) l2.
Proof. done. Qed.

Lemma merge_perm l1 : ∀ l2, merge_lists le l1 l2 ≡ₚ l1 ++ l2.
Proof.
  induction l1 as [|x l1 IH1]; intros l2.
  - by rewrite merge_nil_l.
  - induction l2 as [|y l2 IH2].
    + by rewrite merge_nil_r, app_nil_r.
    + rewrite merge_cons_cons. destruct (le x y).
      * by rewrite IH1.
      * rewrite IH2. by rewrite (Permutation_middle (x :: l1) l2 y).
Qed.

Lemma merge_length l1 l2 :
  length (merge_lists le l1 l2) = (length l1 + length l2)%nat.
Proof. by rewrite merge_perm, length_app. Qed.

Lemma msort_perm fuel : ∀ l, msort le fuel l ≡ₚ l.
Proof.
  induction fuel as [|fuel IH]; intros l; simpl.
  - by destruct (length l <? 2)%nat.
  - destruct (length l <? 2)%nat; [done|].
    by rewrite merge_perm, !IH, take_drop.
Qed.

Lemma msort_length fuel l : length (msort le fuel l) = length l.
Proof. by rewrite msort_perm. Qed.

Lemma msort_short fuel l : (length l < 2)%nat → msort le fuel l = l.
Proof.
  intros Hl. destruct fuel; simpl;
    by rewrite (proj2 (Nat.ltb_lt _ _) Hl).
Qed.
End merge_lists_facts.

Lemma last_cons_ne (x : addr) l : l ≠ [] → last (x :: l) = last l.
Proof. by destruct l. Qed.

Lemma get_data_at h L k a nx :
  h !! a = Some nx →
  get_data (Some a) (mkMem h L k) = Some (data_at h a, mkMem h L k).
Proof.
  intros Ha. erewrite get_data_eq by exact Ha.
  unfold data_at. by rewrite Ha.
Qed.

(** ** The merge loop on a chain *)

Section merge_correct.
Variable cmp : Z → Z → Z.
Variable dat : addr → Z.
Hypothesis cmp_refl : ∀ a, cmp_le cmp (dat a) (dat a) = true.

Let le (a b : addr) : bool := cmp_le cmp (dat a) (dat b).

(** The state of the loop: the chain is [P ++ Lf ++ R ++ B] where
    [Lf] and [R] are what is left of the two partitions, [l] and [r]
    count the nodes consumed, and [i = l + r]. *)
Lemma merge_loop_spec n : ∀ h L k P Lf R B l_size r_size i l r left right,
  NoDup (P ++ Lf ++ R ++ B) →
  dseg h None (P ++ Lf ++ R ++ B) None →
  (∀ a, data_at h a = dat a) →
  R ≠ [] →
  n = (length Lf + length R)%nat →
  1 ≤ l_size ≤ r_size →
  l_size + r_size < SIZE_MOD →
  l = l_size - Z.of_nat (length Lf) →
  r = r_size - Z.of_nat (length R) →
  0 ≤ l → 0 ≤ r → i = l + r →
  (i = 0 → left = head Lf ∧ right = head R) →
  ∃ h',
    merge_loop cmp n (l_size + r_size) l_size r_size i l r
      (head (Lf ++ R)) (head R) left right (mkMem h L k)
    = Some ((if i =? 0 then head (merge_lists le Lf R) else left,
             last (merge_lists le Lf R)), mkMem h' L k)
    ∧ dseg h' None (P ++ merge_lists le Lf R ++ B) None
    ∧ same_data h h'.
Proof.
  induction n as [|n IH];
    intros h L k P Lf R B l_size r_size i l r left right
      Hnd Hd Hdat HR Hn Hls Hsz Hl Hr Hl0 Hr0 Hi Hlr.
  { destruct R; [done|]. simpl in Hn. lia. }
  destruct R as [|y R']; [done|]. clear HR.
  destruct Lf as [|x Lf'].
  - (* the left partition is used up: the cursors coincide *)
    simpl in *. rewrite ?merge_nil_l.
    destruct (dseg_mid _ _ _ _ _ _ Hd) as (ny & Hy & _ & Hny).
    exists h. split; [|by split].
    erewrite bind_eq by (by eapply get_data_at).
    erewrite bind_eq by (by eapply get_data_at).
    rewrite Hdat. fold (cmp_le cmp (dat y) (dat y)). rewrite cmp_refl.
    assert (Hi0 : (i =? 0) = false) by (apply Z.eqb_neq; lia).
    rewrite Hi0. simpl.
    rewrite (proj2 (Z.eqb_eq l l_size)) by lia.
    rewrite wrap_small by lia.
    replace (Z.to_nat (r_size - 1 - r)) with (length R') by lia.
    by erewrite bind_eq by (by eapply walk_next_last).
  - (* both partitions are non-empty *)
    assert (Hx : ∃ nx, h !! x = Some nx
                       ∧ n_next nx = head (Lf' ++ y :: R')).
    { destruct (dseg_mid _ _ _ _ _ _ Hd) as (nx & Hx & _ & Hnx).
      exists nx. split; [done|]. rewrite Hnx.
      by destruct Lf'. }
    assert (Hy : ∃ ny, h !! y = Some ny ∧ n_next ny = hd_or (R' ++ B) None).
    { replace (P ++ (x :: Lf') ++ (y :: R') ++ B)
        with ((P ++ x :: Lf') ++ y :: R' ++ B) in Hd
        by (by rewrite <- !app_assoc).
      destruct (dseg_mid _ _ _ _ _ _ Hd) as (ny & Hy & _ & Hny). eauto. }
    destruct Hx as (nx & Hx & Hnx), Hy as (ny & Hy & Hny).
    rewrite merge_cons_cons. simpl merge_loop. simpl head.
    erewrite bind_eq by (by eapply get_data_at).
    erewrite bind_eq by (by eapply get_data_at).
    rewrite !Hdat. fold (cmp_le cmp (dat x) (dat y)). fold (le x y).
    simpl length in *.
    destruct (le x y) eqn:Hle.
    + (* the left node stays *)
      destruct ((i =? 0) && (l_size + r_size =? 2)) eqn:Hsp.
      * apply andb_true_iff in Hsp as [Hi0%Z.eqb_eq Hs2%Z.eqb_eq].
        destruct Hlr as [-> ->]; [done|].
        destruct Lf' as [|? ?]; [|simpl in *; lia].
        destruct R' as [|? ?]; [|simpl in *; lia].
        exists h. rewrite (proj2 (Z.eqb_eq i 0)) by done.
        split; [done|]. by split.
      * assert (Hll : (l =? l_size) = false) by (apply Z.eqb_neq; lia).
        rewrite Hll.
        erewrite bind_eq by (by eapply get_next_eq). rewrite Hnx.
        destruct (IH h L k (P ++ [x]) Lf' (y :: R') B l_size r_size
                    (i + 1) (wrap (l + 1)) r left right)
          as (h' & Hrun & Hd' & Hs'); try done.
        -- by rewrite <- app_assoc.
        -- by rewrite <- app_assoc.
        -- simpl in *. lia.
        -- rewrite wrap_small by lia. lia.
        -- rewrite wrap_small by lia. lia.
        -- rewrite wrap_small by lia. lia.
        -- lia.
        -- assert (Hne : merge_lists le Lf' (y :: R') ≠ []).
           { intros E. apply (f_equal length) in E.
             rewrite merge_length in E. simpl in E. lia. }
           exists h'. split; [|split; [|done]].
           ++ change (head (y :: R')) with (Some y) in Hrun.
              rewrite Hrun. rewrite (proj2 (Z.eqb_neq (i + 1) 0)) by lia.
              rewrite (last_cons_ne _ _ Hne). do 3 f_equal.
              destruct (Z.eqb_spec i 0) as [Hi0|]; [|done].
              by destruct Hlr as [-> _].
           ++ by rewrite <- app_assoc in Hd'.
    + (* the right node moves before the left node *)
      erewrite bind_eq by (by eapply get_next_eq). rewrite Hny.
      destruct (link_behind_move h L k P x Lf' y (R' ++ B))
        as (h1 & Hlb & Hd1 & Hs1).
      { exact Hnd. }
      { exact Hd. }
      erewrite bind_eq by exact Hlb.
      assert (Hdat1 : ∀ a, data_at h1 a = dat a).
      { intros a. by rewrite (same_data_at _ _ _ Hs1). }
      destruct ((i =? 0) && (l_size + r_size =? 2)) eqn:Hsp.
      * apply andb_true_iff in Hsp as [Hi0%Z.eqb_eq Hs2%Z.eqb_eq].
        destruct Lf' as [|? ?]; [|simpl in *; lia].
        destruct R' as [|? ?]; [|simpl in *; lia].
        exists h1. rewrite (proj2 (Z.eqb_eq i 0)) by done.
        split; [done|]. by split.
      * rewrite (wrap_small (r + 1)) by lia.
        destruct (Z.eqb_spec (r + 1) r_size) as [Hrr|Hrr].
        -- (* the right partition is used up *)
           destruct R' as [|? ?]; [|simpl in *; lia].
           rewrite merge_nil_r.
           assert (Hi0 : (i =? 0) = false).
           { apply Z.eqb_neq. intros ->.
             apply andb_false_iff in Hsp as [Hsp|Hsp];
               apply Z.eqb_neq in Hsp; simpl in *; lia. }
           rewrite Hi0. rewrite wrap_small by lia.
           replace (Z.to_nat (l_size - 1 - l)) with (length Lf')
             by (simpl in *; lia).
           exists h1. split; [|split; [|done]].
           ++ erewrite bind_eq; [reflexivity|].
              apply (walk_next_last _ None (P ++ [y]) x Lf' B None).
              simpl. rewrite <- app_assoc. exact Hd1.
           ++ exact Hd1.
        -- (* more of the right partition is left *)
           assert (HR' : R' ≠ []) by (intros ->; simpl in *; lia).
           destruct (IH h1 L k (P ++ [y]) (x :: Lf') R' B l_size r_size
                       (i + 1) l (r + 1)
                       (if i =? 0 then Some y else left) right)
             as (h' & Hrun & Hd' & Hs'); try done.
           ++ rewrite <- app_assoc. simpl.
              revert Hnd. rewrite !NoDup_app, !NoDup_cons, !NoDup_app.
              set_solver.
           ++ rewrite <- app_assoc. exact Hd1.
           ++ simpl in *. lia.
           ++ simpl in *. lia.
           ++ lia.
           ++ lia.
           ++ lia.
           ++ assert (Hne : merge_lists le (x :: Lf') R' ≠ []).
              { intros E. apply (f_equal length) in E.
                rewrite merge_length in E. simpl in E. lia. }
              exists h'. split; [|split].
              ** replace (hd_or (R' ++ B) None) with (head R')
                   by (by destruct R').
                 etrans; [exact Hrun|].
                 rewrite (proj2 (Z.eqb_neq (i + 1) 0)) by lia.
                 rewrite (last_cons_ne _ _ Hne). do 3 f_equal.
              ** by rewrite <- app_assoc in Hd'.
              ** by eapply same_data_trans.
Qed.

Lemma merge_spec h L k P Lf R B :
  NoDup (P ++ Lf ++ R ++ B) →
  dseg h None (P ++ Lf ++ R ++ B) None →
  (∀ a, data_at h a = dat a) →
  (1 ≤ length Lf ≤ length R)%nat →
  Z.of_nat (length Lf) + Z.of_nat (length R) < SIZE_MOD →
  ∃ h',
    merge cmp (head Lf) (head R) (Z.of_nat (length Lf)) (Z.of_nat (length R))
      (mkMem h L k)
    = Some ((head (merge_lists le Lf R), last (merge_lists le Lf R)),
            mkMem h' L k)
    ∧ dseg h' None (P ++ merge_lists le Lf R ++ B) None
    ∧ same_data h h'.
Proof.
  intros Hnd Hd Hdat Hlen Hsz. unfold merge.
  rewrite (Z.add_comm (Z.of_nat (length R))), wrap_small by lia.
  destruct (merge_loop_spec (length Lf + length R) h L k P Lf R B
              (Z.of_nat (length Lf)) (Z.of_nat (length R)) 0 0 0
              (head Lf) (head R))
    as (h' & Hrun & Hd' & Hs'); try done; try lia.
  { intros ->. simpl in Hlen. lia. }
  exists h'. split; [|done].
  replace (Z.to_nat (Z.of_nat (length Lf) + Z.of_nat (length R)))
    with (length Lf + length R)%nat by lia.
  replace (head Lf) with (head (Lf ++ R)) at 1
    by (destruct Lf; [simpl in Hlen; lia|done]).
  exact Hrun.
Qed.

Lemma half_le n : (n / 2 ≤ n - n / 2)%nat.
Proof.
  pose proof (Nat.div_mod_eq n 2). pose proof (Nat.mod_upper_bound n 2). lia.
Qed.

Lemma half_pos n : (2 ≤ n → 1 ≤ n / 2 < n)%nat.
Proof.
  pose proof (Nat.div_mod_eq n 2). pose proof (Nat.mod_upper_bound n 2). lia.
Qed.

(** [split] sorts the section [S] of the chain in place and returns
    its new first node; for a section of two or more nodes it also
    stores the section's ends in the list header. *)
Lemma split_spec fuel : ∀ h L k lp Lrec P S B,
  (length S ≤ fuel)%nat →
  NoDup (P ++ S ++ B) →
  dseg h None (P ++ S ++ B) None →
  (∀ a, data_at h a = dat a) →
  L !! lp = Some Lrec →
  Z.of_nat (length S) < SIZE_MOD →
  ∃ h' L',
    split cmp fuel (Some lp) (head S) (Z.of_nat (length S)) (mkMem h L k)
    = Some (head (msort le fuel S), mkMem h' L' k)
    ∧ dseg h' None (P ++ msort le fuel S ++ B) None
    ∧ same_data h h'
    ∧ L' !! lp
      = Some (if (length S <? 2)%nat then Lrec
              else mkList (l_size Lrec) (head (msort le fuel S))
                     (last (msort le fuel S))).
Proof.
  induction fuel as [|fuel IH];
    intros h L k lp Lrec P S B Hfuel Hnd Hd Hdat HL Hsz.
  { assert ((length S <? 2)%nat = true) as Hs by (apply Nat.ltb_lt; lia).
    exists h, L. simpl. rewrite Hs.
    rewrite (proj2 (Z.ltb_lt _ 2)) by lia. done. }
  destruct (Nat.ltb_spec (length S) 2) as [Hs|Hs].
  { exists h, L. simpl.
    rewrite (proj2 (Nat.ltb_lt _ _) Hs), (proj2 (Z.ltb_lt _ 2)) by lia.
    done. }
  cbn [split msort]. rewrite (proj2 (Nat.ltb_ge _ _) Hs).
  rewrite (proj2 (Z.ltb_ge _ 2)) by lia.
  set (n := (length S / 2)%nat).
  pose proof (half_pos (length S) Hs) as Hn. fold n in Hn.
  pose proof (half_le (length S)) as Hn'. fold n in Hn'.
  set (S1 := take n S). set (S2 := drop n S).
  assert (HS : S = S1 ++ S2) by (symmetry; apply take_drop).
  assert (Hl1 : length S1 = n) by (apply length_take_le; lia).
  assert (Hl2 : length S2 = (length S - n)%nat) by apply length_drop.
  assert (Hz1 : Z.of_nat (length S) / 2 = Z.of_nat (length S1)).
  { rewrite Hl1. unfold n. by rewrite (Nat2Z.inj_div _ 2). }
  assert (Hz2 : wrap (Z.of_nat (length S) / 2 + Z.of_nat (length S) mod 2)
                = Z.of_nat (length S2)).
  { pose proof (Z.div_mod (Z.of_nat (length S)) 2).
    pose proof (Z.mod_pos_bound (Z.of_nat (length S)) 2).
    rewrite wrap_small by lia. lia. }
  rewrite Hz2, Hz1, Nat2Z.id.
  clearbody S1 S2 n. subst S.
  rewrite <- app_assoc in Hd, Hnd. rewrite length_app in *.
  (* locating the right partition *)
  assert (Hh1 : head (S1 ++ S2) = head S1) by (destruct S1; [simpl in *; lia|done]).
  assert (Hc : walk_next (length S1) (head (S1 ++ S2)) (mkMem h L k)
               = Some (head S2, mkMem h L k)).
  { replace (head (S1 ++ S2)) with (hd_or (S1 ++ S2 ++ B) None)
      by (destruct S1; [simpl in *; lia|done]).
    rewrite (walk_next_app _ None S1 P (S2 ++ B) None) by exact Hd.
    destruct S2; [simpl in *; lia|done]. }
  erewrite bind_eq by exact Hc.
  (* the left partition *)
  destruct (IH h L k lp Lrec P S1 (S2 ++ B))
    as (h1 & L1 & Hr1 & Hd1 & Hs1 & HL1); try done; try lia.
  rewrite Hh1. erewrite bind_eq by exact Hr1.
  (* the right partition *)
  match type of HL1 with _ = Some ?X => set (Lrec1 := X) in HL1 end.
  destruct (IH h1 L1 k lp Lrec1 (P ++ msort le fuel S1) S2 B)
    as (h2 & L2 & Hr2 & Hd2 & Hs2 & HL2); try exact HL1; try lia.
  { by rewrite <- app_assoc, msort_perm. }
  { by rewrite <- app_assoc. }
  { intros a. by rewrite (same_data_at _ _ _ Hs1). }
  erewrite bind_eq by exact Hr2.
  (* the merge *)
  destruct (merge_spec h2 L2 k P (msort le fuel S1) (msort le fuel S2) B)
    as (h3 & Hm & Hd3 & Hs3).
  { by rewrite !msort_perm. }
  { by rewrite <- app_assoc in Hd2. }
  { intros a. by rewrite (same_data_at _ _ _ Hs2), (same_data_at _ _ _ Hs1). }
  { rewrite !msort_length. lia. }
  { rewrite !msort_length. lia. }
  rewrite !msort_length in Hm.
  erewrite bind_eq by exact Hm.
  cbn [fst snd].
  eexists. eexists. split; [mrun; reflexivity|].
  split; [done|]. split.
  { eapply same_data_trans; [|exact Hs3].
    eapply same_data_trans; [exact Hs1|exact Hs2]. }
  simpl. rewrite lookup_insert_eq. simpl.
  do 2 f_equal. unfold Lrec1.
  by destruct (length S1 <? 2)%nat, (length S2 <? 2)%nat.
Qed.

(** [list_sort] rearranges the chain into the merge sort of its
    nodes by payload and sets the header's ends accordingly. *)
Lemma list_sort_spec m lp l :
  list_inv m lp l →
  (∀ a, data_at (nodes m) a = dat a) →
  ∃ m',
    list_sort cmp (Some lp) m = Some (tt, m')
    ∧ list_inv m' lp (msort le (length l) l)
    ∧ same_data (nodes m) (nodes m').
Proof.
  intros (HL & Hnd & Hd & Hb) Hdat. destruct m as [h L k]. simpl in *.
  destruct (split_spec (length l) h L k lp
              (mkList (Z.of_nat (length l)) (head l) (last l)) [] l [])
    as (h' & L' & Hrun & Hd' & Hs' & HL');
    rewrite ?app_nil_r; simpl; try done.
  rewrite app_nil_r in Hd'. simpl in Hd'.
  exists (mkMem h' L' k). split; [|split; [|done]].
  - unfold list_sort. do 2 mstep. simpl.
    rewrite Nat2Z.id. by erewrite bind_eq by exact Hrun.
  - split; [|split; [by rewrite msort_perm|split; [done|]]].
    + simpl. rewrite HL', msort_length.
      destruct (Nat.ltb_spec (length l) 2) as [Hs|Hs]; [|done].
      by rewrite msort_short.
    + by rewrite msort_length.
Qed.
End merge_correct.

(** ** Merge sort orders and is stable *)

Section msort_ordered.
Context {T : Type} (le : T → T → bool).
Hypothesis le_total : ∀ x y, le x y = true ∨ le y x = true.
Hypothesis le_trans : ∀ x y z, le x y = true → le y z = true → le x z = true.

Let R (x y : T) : Prop := le x y = true.
Let eqv (x y : T) : Prop := le x y = true ∧ le y x = true.

Lemma merge_sorted l1 : ∀ l2,
  StronglySorted R l1 → StronglySorted R l2 →
  StronglySorted R (merge_lists le l1 l2).
Proof.
  induction l1 as [|x l1 IH1]; intros l2 H1 H2.
  { by rewrite merge_nil_l. }
  induction l2 as [|y l2 IH2].
  { by rewrite merge_nil_r. }
  apply StronglySorted_cons in H1 as [Hx H1'].
  apply StronglySorted_cons in H2 as [Hy H2'].
  rewrite merge_cons_cons. destruct (le x y) eqn:Hxy.
  - apply StronglySorted_cons. split.
    + rewrite merge_perm. apply Forall_app. split; [done|].
      constructor; [done|].
      eapply Forall_impl; [exact Hy|]. intros z Hz. by eapply le_trans.
    + apply IH1; [done|]. by apply StronglySorted_cons.
  - assert (Hyx : le y x = true) by (destruct (le_total x y); congruence).
    apply StronglySorted_cons. split.
    + rewrite merge_perm. apply Forall_app. split; [|done].
      constructor; [done|].
      eapply Forall_impl; [exact Hx|]. intros z Hz. by eapply le_trans.
    + by apply IH2.
Qed.

Lemma msort_sorted fuel : ∀ l,
  (length l ≤ fuel)%nat → StronglySorted R (msort le fuel l).
Proof.
  induction fuel as [|fuel IH]; intros l Hl.
  { destruct l; [|simpl in Hl; lia]. constructor. }
  cbn [msort]. destruct (Nat.ltb_spec (length l) 2) as [Hs|Hs].
  { destruct l as [|a [|b l]]; [constructor|repeat constructor|simpl in Hs; lia]. }
  pose proof (Nat.div_mod_eq (length l) 2).
  pose proof (Nat.mod_upper_bound (length l) 2).
  apply merge_sorted; apply IH.
  - rewrite length_take. lia.
  - rewrite length_drop. lia.
Qed.

Lemma filter_none (P : T → Prop) `{∀ x, Decision (P x)} l :
  Forall (λ z, ¬ P z) l → filter P l = [].
Proof.
  induction 1 as [|z l Hz _ IH]; [done|].
  by rewrite filter_cons_False.
Qed.

(** Elements equivalent to [x] come out of a merge in the order: those
    of the left run, then those of the right run. *)
Lemma merge_stable x l1 : ∀ l2,
  StronglySorted R l1 → StronglySorted R l2 →
  filter (eqv x) (merge_lists le l1 l2)
  = filter (eqv x) l1 ++ filter (eqv x) l2.
Proof.
  induction l1 as [|a l1 IH1]; intros l2 H1 H2.
  { by rewrite merge_nil_l. }
  induction l2 as [|b l2 IH2].
  { by rewrite merge_nil_r, filter_nil, app_nil_r. }
  pose proof H1 as [Ha H1']%StronglySorted_cons.
  pose proof H2 as [Hb H2']%StronglySorted_cons.
  rewrite merge_cons_cons. destruct (le a b) eqn:Hab.
  - rewrite !(filter_cons _ a), IH1 by done.
    by destruct (decide (eqv x a)).
  - rewrite (filter_cons _ b), IH2 by done.
    rewrite (filter_cons _ b). destruct (decide (eqv x b)) as [[Hxb Hbx]|]; [|done].
    rewrite (filter_none (eqv x) (a :: l1)); [done|].
    constructor.
    + intros [Hxa Hax]. rewrite (le_trans a x b) in Hab; done.
    + eapply Forall_impl; [exact Ha|]. intros z Haz [Hxz Hzx].
      rewrite (le_trans a x b) in Hab; [done| |done].
      by apply (le_trans a z x).
Qed.

Lemma msort_stable x fuel : ∀ l,
  (length l ≤ fuel)%nat →
  filter (eqv x) (msort le fuel l) = filter (eqv x) l.
Proof.
  induction fuel as [|fuel IH]; intros l Hl.
  { by rewrite msort_short by lia. }
  cbn [msort]. destruct (Nat.ltb_spec (length l) 2) as [Hs|Hs]; [done|].
  pose proof (Nat.div_mod_eq (length l) 2).
  pose proof (Nat.mod_upper_bound (length l) 2).
  assert (length (take (length l / 2) l) ≤ fuel)%nat
    by (rewrite length_take; lia).
  assert (length (drop (length l / 2) l) ≤ fuel)%nat
    by (rewrite length_drop; lia).
  rewrite merge_stable by (by apply msort_sorted).
  by rewrite !IH, <- filter_app, take_drop.
Qed.
End msort_ordered.

(** Sorting nodes by payload is sorting the payloads. *)
Lemma merge_fmap {A B} (f : A → B) (le : B → B → bool) l1 : ∀ l2,
  f <$> merge_lists (λ a b, le (f a) (f b)) l1 l2
  = merge_lists le (f <$> l1) (f <$> l2).
Proof.
  induction l1 as [|x l1 IH1]; intros l2.
  { by rewrite fmap_nil, !merge_nil_l. }
  induction l2 as [|y l2 IH2].
  { by rewrite fmap_nil, !merge_nil_r. }
  rewrite !fmap_cons, !merge_cons_cons.
  destruct (le (f x) (f y)).
  - by rewrite fmap_cons, IH1.
  - by rewrite fmap_cons, IH2.
Qed.

Lemma msort_fmap {A B} (f : A → B) (le : B → B → bool) fuel : ∀ l,
  f <$> msort (λ a b, le (f a) (f b)) fuel l = msort le fuel (f <$> l).
Proof.
  induction fuel as [|fuel IH]; intros l; simpl; rewrite length_fmap.
  { by destruct (length l <? 2)%nat. }
  destruct (length l <? 2)%nat; [done|].
  by rewrite merge_fmap, !IH, fmap_take, fmap_drop.
Qed.

(** ** Sorting with a three-way comparator *)

Lemma cmp_le_true cmp x y :
  cmp_le cmp x y = true ↔ cmp x y = -1 ∨ cmp x y = 0.
Proof. unfold cmp_le. rewrite orb_true_iff, !Z.eqb_eq. done. Qed.

Section three_way_facts.
Variable cmp : Z → Z → Z.
Hypothesis Hcmp : three_way cmp.

Lemma three_way_refl z : cmp_le cmp z z = true.
Proof.
  destruct Hcmp as (_ & Hanti & _). apply cmp_le_true.
  specialize (Hanti z z). lia.
Qed.

Lemma three_way_total x y : cmp_le cmp x y = true ∨ cmp_le cmp y x = true.
Proof.
  destruct Hcmp as (Hrange & Hanti & _). rewrite !cmp_le_true.
  specialize (Hanti x y). specialize (Hrange x y). lia.
Qed.

Lemma three_way_trans x y z :
  cmp_le cmp x y = true → cmp_le cmp y z = true → cmp_le cmp x z = true.
Proof.
  destruct Hcmp as (Hrange & _ & Htrans). rewrite !cmp_le_true.
  intros Hxy Hyz. specialize (Htrans x y z). specialize (Hrange x z). lia.
Qed.

Lemma three_way_equiv x y :
  cmp_le cmp x y = true ∧ cmp_le cmp y x = true ↔ cmp x y = 0.
Proof.
  destruct Hcmp as (Hrange & Hanti & _). rewrite !cmp_le_true.
  specialize (Hanti x y). specialize (Hrange x y). lia.
Qed.
End three_way_facts.

Lemma StronglySorted_mono {T} (R1 R2 : T → T → Prop) l :
  (∀ x y, R1 x y → R2 x y) → StronglySorted R1 l → StronglySorted R2 l.
Proof.
  intros HR. induction 1 as [|x l _ IH Hx]; constructor; [done|].
  eapply Forall_impl; [exact Hx|]. eauto.
Qed.

(** C3: with a three-way comparator, [list_sort] on a list satisfying
    the invariant returns, and the list then satisfies the invariant
    over a chain [l'] that is a permutation of the original nodes (so
    the header's head and tail are the first and last node of the new
    order and the count is unchanged); no payload is touched; the
    payload sequence is ascending; and, for every [x], the elements
    comparing equal to [x] occur in the same order as before. *)
Theorem list_sort_sorted_stable cmp m lp l :
  three_way cmp →
  list_inv m lp l →
  ∃ m' l',
    list_sort cmp (Some lp) m = Some (tt, m')
    ∧ list_inv m' lp l'
    ∧ l' ≡ₚ l
    ∧ same_data (nodes m) (nodes m')
    ∧ elements m' lp = Some (contents m' l')
    ∧ StronglySorted (λ x y, cmp x y ≤ 0) (contents m' l')
    ∧ ∀ x, filter (λ y, cmp x y = 0) (contents m' l')
           = filter (λ y, cmp x y = 0) (contents m l).
Proof.
  intros Hcmp Hinv.
  set (dat := data_at (nodes m)).
  destruct (list_sort_spec cmp dat (λ a, three_way_refl cmp Hcmp (dat a))
              m lp l Hinv)
    as (m' & Hrun & Hinv' & Hsd); [done|].
  set (l' := msort (λ a b, cmp_le cmp (dat a) (dat b)) (length l) l) in *.
  assert (Hc : contents m' l' = msort (cmp_le cmp) (length l) (contents m l)).
  { unfold contents. rewrite (same_data_map _ _ _ Hsd). apply msort_fmap. }
  exists m', l'. split; [done|]. split; [done|].
  split; [apply msort_perm|]. split; [done|].
  split; [by apply list_inv_elements|]. rewrite Hc. split.
  - eapply StronglySorted_mono;
      [|apply msort_sorted;
        [apply three_way_total
        |apply three_way_trans
        |unfold contents; by rewrite length_fmap]]; try done.
    intros x y Hxy. apply cmp_le_true in Hxy. simpl in Hxy. lia.
  - intros x.
    rewrite <- !(list_filter_iff
                   (λ y, cmp_le cmp x y = true ∧ cmp_le cmp y x = true)
                   (λ y, cmp x y = 0))
      by (intros y; by apply three_way_equiv).
    apply msort_stable.
    + by apply three_way_total.
    + by apply three_way_trans.
    + unfold contents. by rewrite length_fmap.
Qed.

Lemma cmp_key_three_way : three_way cmp_key.
Proof.
  unfold three_way, cmp_key. split; [|split].
  - intros x y. destruct (x / 10 ?= y / 10); auto.
  - intros x y. rewrite (Z.compare_antisym (x / 10) (y / 10)).
    by destruct (x / 10 ?= y / 10).
  - intros x y z.
    destruct (Z.compare_spec (x / 10) (y / 10)),
             (Z.compare_spec (y / 10) (z / 10)),
             (Z.compare_spec (x / 10) (z / 10)); lia.
Qed.

Lemma mem_of_4_inv :
  list_inv (mem_of [31; 12; 10; 25]) 1%positive [1; 2; 3; 4]%positive.
Proof. solve_inv. Qed.

Lemma list_sort_sorted_stable_witness :
  ∃ m' l',
    list_sort cmp_key (Some 1%positive) (mem_of [31; 12; 10; 25]) = Some (tt, m')
    ∧ list_inv m' 1%positive l'
    ∧ l' ≡ₚ [1; 2; 3; 4]%positive
    ∧ same_data (nodes (mem_of [31; 12; 10; 25])) (nodes m')
    ∧ elements m' 1%positive = Some (contents m' l')
    ∧ StronglySorted (λ x y, cmp_key x y ≤ 0) (contents m' l')
    ∧ ∀ x, filter (λ y, cmp_key x y = 0) (contents m' l')
           = filter (λ y, cmp_key x y = 0)
               (contents (mem_of [31; 12; 10; 25]) [1; 2; 3; 4]%positive).
Proof.
  apply (list_sort_sorted_stable cmp_key (mem_of [31; 12; 10; 25]) 1%positive
           [1; 2; 3; 4]%positive).
  - exact cmp_key_three_way.
  - exact mem_of_4_inv.
Defined.

(** The same run, evaluated: 12 stays before 10. *)
Example list_sort_stable_run :
  match list_sort cmp_key (Some 1%positive) (mem_of [31; 12; 10; 25]) with
  | Some (_, m') =>
      elements m' 1%positive = Some [12; 10; 25; 31]
      ∧ elements_back m' 1%positive = Some [31; 25; 10; 12]
  | None => False
  end.
Proof. vm_compute. done. Qed.

(** ** The comparison made by the merge step *)

(** On a list of two nodes [x], [y] satisfying the invariant, and for
    any comparator whatever, [list_sort] keeps [x] before [y] when the
    comparator's answer on their payloads is exactly -1 or exactly 0,
    and puts [y] before [x] for every other answer. *)
Lemma list_sort_two_nodes cmp m lp x y :
  list_inv m lp [x; y] →
  let c := cmp (data_at (nodes m) x) (data_at (nodes m) y) in
  ∃ m',
    list_sort cmp (Some lp) m = Some (tt, m')
    ∧ list_inv m' lp (if (c =? -1) || (c =? 0) then [x; y] else [y; x])
    ∧ same_data (nodes m) (nodes m').
Proof.
  intros (HL & Hnd & Hd & Hb) c. destruct m as [h L k].
  simpl in HL, Hd, c. subst c.
  nd_facts Hnd. seg_destruct Hd.
  unfold data_at.
  repeat match goal with
  | H : h !! ?a = Some _ |- context [h !! ?a] => rewrite H
  end. simpl.
  assert (Hw : wrap 1 = 1) by (by vm_compute).
  assert (Hw2 : wrap (1 + 1) = 2) by (by vm_compute).
  change (Z.of_nat 2) with 2 in *.
  destruct ((cmp d0 d =? -1) || (cmp d0 d =? 0)) eqn:Hc.
  - eexists. split; [|split].
    + unfold list_sort. do 2 mstep. simpl.
      change (2 `div` 2) with 1. change (1 + 2 `mod` 2) with 1. rewrite Hw.
      mstep. mstep. unfold merge. rewrite Hw2. simpl.
      mrun. rewrite Hc. mrun. reflexivity.
    + split; [hdr_solve|].
      split; [by apply NoDup_cons_2; [set_solver|apply NoDup_singleton]|].
      split; [simpl; seg_solve|done].
    + done.
  - eexists. split; [|split].
    + unfold list_sort. do 2 mstep. simpl.
      change (2 `div` 2) with 1. change (1 + 2 `mod` 2) with 1. rewrite Hw.
      mstep. mstep. unfold merge. rewrite Hw2. simpl.
      mrun. rewrite Hc. unfold link_behind. mrun. reflexivity.
    + split; [hdr_solve|].
      split; [by apply NoDup_cons_2; [set_solver|apply NoDup_singleton]|].
      split; [simpl; seg_solve|done].
    + data_solve.
Qed.

Lemma mem_of_2_inv : list_inv (mem_of [1; 3]) 1%positive [1; 2]%positive.
Proof. solve_inv. Qed.

(** On lists of any length: for a comparator that answers -1 or 0 on
    equal arguments, [list_sort] returns and relinks the nodes into the
    order computed by the merge sort whose only ordering test is
    [cmp_le], the test [c == -1 || c == 0]; when that test is total and
    transitive the payloads are ascending for it and elements
    equivalent for it keep their order. *)
Lemma list_sort_by_test cmp m lp l :
  (∀ x, cmp x x = -1 ∨ cmp x x = 0) →
  list_inv m lp l →
  let le := cmp_le cmp in
  let out := msort le (length l) (contents m l) in
  ∃ m',
    list_sort cmp (Some lp) m = Some (tt, m')
    ∧ list_inv m' lp
        (msort (λ a b, le (data_at (nodes m) a) (data_at (nodes m) b))
           (length l) l)
    ∧ same_data (nodes m) (nodes m')
    ∧ elements m' lp = Some out
    ∧ ((∀ x y, le x y = true ∨ le y x = true) →
       (∀ x y z, le x y = true → le y z = true → le x z = true) →
       StronglySorted (λ x y, le x y = true) out
       ∧ ∀ x, filter (λ y, le x y = true ∧ le y x = true) out
              = filter (λ y, le x y = true ∧ le y x = true) (contents m l)).
Proof.
  intros Hrefl Hinv le out.
  set (dat := data_at (nodes m)).
  destruct (list_sort_spec cmp dat
              (λ a, proj2 (cmp_le_true cmp (dat a) (dat a)) (Hrefl (dat a)))
              m lp l Hinv)
    as (m' & Hrun & Hinv' & Hsd); [done|].
  exists m'. split; [done|]. split; [done|]. split; [done|]. split.
  - rewrite (list_inv_elements _ _ _ Hinv'). f_equal.
    unfold contents. rewrite (same_data_map _ _ _ Hsd). apply msort_fmap.
  - intros Htot Htrans.
    assert (Hlen : (length (contents m l) ≤ length l)%nat)
      by (unfold contents; by rewrite length_fmap).
    split.
    + by apply msort_sorted.
    + intros x. by apply msort_stable.
Qed.

(** C10: the merge step reads the comparator's answer by the test
    [c == -1 || c == 0] alone, on lists of any length.  For every
    comparator that answers -1 or 0 on equal arguments, [list_sort] on
    a list satisfying the invariant returns, touches no payload, and
    leaves the list in the order of the stable merge sort whose
    ordering test is [cmp_le]: an answer of -1 or 0 puts the left
    element first, every other answer (-2 as well as 1 or 7) the right
    one.  Whenever that test is total and transitive, the result is
    ascending for it and elements equivalent for it keep their
    original order; the range of the comparator need not be -1, 0, 1. *)
Theorem merge_step_classification cmp m lp l :
  (∀ x, cmp x x = -1 ∨ cmp x x = 0) →
  list_inv m lp l →
  let le := cmp_le cmp in
  let out := msort le (length l) (contents m l) in
  ∃ m',
    list_sort cmp (Some lp) m = Some (tt, m')
    ∧ list_inv m' lp
        (msort (λ a b, le (data_at (nodes m) a) (data_at (nodes m) b))
           (length l) l)
    ∧ same_data (nodes m) (nodes m')
    ∧ elements m' lp = Some out
    ∧ ((∀ x y, le x y = true ∨ le y x = true) →
       (∀ x y z, le x y = true → le y z = true → le x z = true) →
       StronglySorted (λ x y, le x y = true) out
       ∧ ∀ x, filter (λ y, le x y = true ∧ le y x = true) out
              = filter (λ y, le x y = true ∧ le y x = true) (contents m l)).
Proof. exact (list_sort_by_test cmp m lp l). Qed.

Lemma cmp_seven_refl x : cmp_seven x x = -1 ∨ cmp_seven x x = 0.
Proof. unfold cmp_seven. rewrite Z.compare_refl. by right. Qed.

Lemma cmp_seven_le x y : cmp_le cmp_seven x y = true ↔ x / 10 ≤ y / 10.
Proof.
  rewrite cmp_le_true. unfold cmp_seven.
  destruct (Z.compare_spec (x / 10) (y / 10)); lia.
Qed.

Lemma cmp_seven_total x y :
  cmp_le cmp_seven x y = true ∨ cmp_le cmp_seven y x = true.
Proof. rewrite !cmp_seven_le. lia. Qed.

Lemma cmp_seven_trans x y z :
  cmp_le cmp_seven x y = true → cmp_le cmp_seven y z = true →
  cmp_le cmp_seven x z = true.
Proof. rewrite !cmp_seven_le. lia. Qed.

(** The comparator answering -1, 0 or 7 on the payloads 31, 12, 10, 25:
    the order is that of the tens, 12 stays before 10. *)
Lemma merge_step_classification_witness :
  let m := mem_of [31; 12; 10; 25] in
  let l := [1; 2; 3; 4]%positive in
  let le := cmp_le cmp_seven in
  let out := msort le (length l) (contents m l) in
  ∃ m',
    list_sort cmp_seven (Some 1%positive) m = Some (tt, m')
    ∧ list_inv m' 1%positive
        (msort (λ a b, le (data_at (nodes m) a) (data_at (nodes m) b))
           (length l) l)
    ∧ same_data (nodes m) (nodes m')
    ∧ elements m' 1%positive = Some out
    ∧ out = [12; 10; 25; 31]
    ∧ StronglySorted (λ x y, le x y = true) out
    ∧ ∀ x, filter (λ y, le x y = true ∧ le y x = true) out
           = filter (λ y, le x y = true ∧ le y x = true) (contents m l).
Proof.
  intros m l le out.
  destruct (merge_step_classification cmp_seven m 1%positive l
              cmp_seven_refl mem_of_4_inv)
    as (m' & Hrun & Hinv' & Hsd & Hel & Hord).
  destruct (Hord cmp_seven_total cmp_seven_trans) as [Hs Hst].
  exists m'. split; [exact Hrun|]. split; [exact Hinv'|].
  split; [exact Hsd|]. split; [exact Hel|].
  split; [by vm_compute|]. split; [exact Hs|exact Hst].
Defined.

(** With the difference comparator the payloads 1 and 3 compare as -2,
    which the merge step reads as "right precedes left": the list
    1, 3 comes out as 3, 1 and the list 5, 1, 3 as 3, 1, 5. *)
Example list_sort_cmp_diff_run :
  cmp_diff 1 3 = -2
  ∧ match list_sort cmp_diff (Some 1%positive) (mem_of [1; 3]) with
    | Some (_, m') => elements m' 1%positive = Some [3; 1]
    | None => False
    end
  ∧ match list_sort cmp_diff (Some 1%positive) (mem_of [5; 1; 3]) with
    | Some (_, m') =>
        elements m' 1%positive = Some [3; 1; 5]
        ∧ elements m' 1%positive
          = Some (msort (cmp_le cmp_diff) 3 [5; 1; 3])
    | None => False
    end.
Proof. by vm_compute. Qed.

(** C10 as stated fails: sortedness and stability do not need the range
    -1, 0, 1.  [cmp_seven] answers 7, yet with it [list_sort] on every
    list satisfying the invariant returns a permutation of the nodes
    whose payloads ascend by their tens, those with equal tens in their
    original order; on 31, 12, 10, 25 it gives 12, 10, 25, 31, as the
    comparator answering 1 does. *)
Lemma sort_range_counterexample :
  cmp_seven 31 12 = 7
  ∧ (∀ m lp l,
       list_inv m lp l →
       ∃ m' l',
         list_sort cmp_seven (Some lp) m = Some (tt, m')
         ∧ list_inv m' lp l'
         ∧ l' ≡ₚ l
         ∧ same_data (nodes m) (nodes m')
         ∧ StronglySorted (λ x y, x / 10 ≤ y / 10) (contents m' l')
         ∧ ∀ x, filter (λ y, y / 10 = x / 10) (contents m' l')
                = filter (λ y, y / 10 = x / 10) (contents m l))
  ∧ match list_sort cmp_seven (Some 1%positive) (mem_of [31; 12; 10; 25]) with
    | Some (_, m') =>
        elements m' 1%positive = Some [12; 10; 25; 31]
        ∧ elements_back m' 1%positive = Some [31; 25; 10; 12]
    | None => False
    end.
Proof.
  split; [by vm_compute|]. split; [|by vm_compute].
  intros m lp l Hinv.
  destruct (list_sort_by_test cmp_seven m lp l cmp_seven_refl Hinv)
    as (m' & Hrun & Hinv' & Hsd & Hel & Hord).
  destruct (Hord cmp_seven_total cmp_seven_trans) as [Hs Hst].
  set (l' := msort (λ a b, cmp_le cmp_seven (data_at (nodes m) a)
                             (data_at (nodes m) b)) (length l) l) in *.
  assert (Hc : contents m' l'
               = msort (cmp_le cmp_seven) (length l) (contents m l)).
  { unfold contents. rewrite (same_data_map _ _ _ Hsd). apply msort_fmap. }
  exists m', l'. split; [done|]. split; [done|].
  split; [apply msort_perm|]. split; [done|]. rewrite Hc. split.
  - eapply StronglySorted_mono; [|exact Hs].
    intros x y. apply cmp_seven_le.
  - intros x.
    rewrite <- !(list_filter_iff
                   (λ y, cmp_le cmp_seven x y = true
                         ∧ cmp_le cmp_seven y x = true)
                   (λ y, y / 10 = x / 10))
      by (intros y; rewrite !cmp_seven_le; lia).
    apply Hst.
Qed.

(** ** Splicing *)

(** X1: when the donor list is empty and the receiver is not,
    [list_splice] succeeds and changes nothing. *)
Lemma list_splice_empty_donor m lp1 lp2 l1 L2 :
  list_inv m lp1 l1 → l1 ≠ [] →
  lists m !! lp2 = Some L2 → l_size L2 = 0 →
  list_splice (Some lp1) (Some lp2) m = Some (true, m).
Proof.
  intros (HL & _ & Hd & _) Hne HL2 Hz. unfold list_splice.
  erewrite bind_eq by (by apply get_tail_eq).
  erewrite bind_eq by (by apply get_tail_eq). simpl.
  destruct (last l1) as [z|] eqn:Hz1; [|by apply last_None in Hz1].
  rewrite last_lookup in Hz1.
  destruct (dseg_lookup _ _ _ _ _ _ Hd Hz1) as (nz & Hnz & _).
  erewrite bind_eq by (by apply get_next_eq).
  unfold splice_between.
  erewrite bind_eq by (by apply get_size_eq). by rewrite Hz.
Qed.

(** X2: the forward walk after an append.  For a non-empty receiver and a
    non-empty donor with nodes of their own, [list_splice] returns
    true, empties the donor's header, gives the receiver the sum of
    the counts, the old head and the donor's tail, and the [next]
    links then run through the receiver's nodes followed by the
    donor's; no payload is touched.  (The [prev] link of the donor's
    first node is left as it was.) *)
Lemma list_splice_forward m lp1 lp2 l1 l2 :
  list_inv m lp1 l1 → list_inv m lp2 l2 →
  lp1 ≠ lp2 → l1 ≠ [] → l2 ≠ [] → NoDup (l1 ++ l2) →
  Z.of_nat (length l1 + length l2) < SIZE_MOD →
  ∃ m',
    list_splice (Some lp1) (Some lp2) m = Some (true, m')
    ∧ lists m' !! lp2 = Some (mkList 0 None None)
    ∧ lists m' !! lp1
      = Some (mkList (Z.of_nat (length l1 + length l2)) (head l1) (last l2))
    ∧ fseg (nodes m') (l1 ++ l2) None
    ∧ contents m' (l1 ++ l2) = contents m l1 ++ contents m l2.
Proof.
  intros (HL1 & _ & Hd1 & _) (HL2 & _ & Hd2 & _) Hlp Hne1 Hne2 Hnd Hb.
  destruct m as [h L k]. simpl in *.
  destruct (snoc_case l1) as [->|(l1' & z & ->)]; [done|]. clear Hne1.
  destruct l2 as [|y l2']; [done|]. clear Hne2.
  rewrite last_snoc in HL1. simpl in HL2.
  pose proof Hd1 as [_ [(nz & Hz & _ & Hnz) _]]%dseg_app. simpl in Hnz.
  destruct nz as [dz nxz pvz]. simpl in Hnz. subst nxz.
  assert (Hzl : (z ∉ l1') ∧ (z ∉ y :: l2')).
  { revert Hnd. rewrite !NoDup_app, !NoDup_cons. set_solver. }
  destruct Hzl as [Hzl1 Hzl2].
  eexists. split; [|split; [|split; [|split]]].
  - unfold list_splice. do 3 mstep. unfold splice_between.
    mstep. simpl. rewrite length_app in Hb. simpl in Hb.
    mstep. mstep. mstep. mstep. mstep. mstep. mstep. mstep. mstep. mstep.
    mrun. reflexivity.
  - simpl. by rewrite lookup_insert_eq.
  - simpl. rewrite !lookup_insert_ne, lookup_insert_eq by done.
    rewrite !length_app in *. simpl in *.
    rewrite wrap_small by lia. do 2 f_equal. lia.
  - simpl. rewrite <- app_assoc. simpl.
    apply fseg_app. split.
    + eapply fseg_frame; [|apply dseg_fseg in Hd1;
                           apply fseg_app in Hd1 as [Hd1 _]; exact Hd1].
      intros a Ha. apply lookup_insert_ne. intros ->. done.
    + split; [eexists; split; [apply lookup_insert_eq|done]|].
      eapply fseg_frame; [|apply dseg_fseg in Hd2; exact Hd2].
      intros a Ha. apply lookup_insert_ne. intros ->. done.
  - unfold contents. cbn [nodes]. rewrite <- fmap_app.
    apply list_fmap_ext. intros i a _. unfold data_at.
    destruct (decide (z = a)) as [->|];
      [rewrite lookup_insert_eq, Hz|rewrite lookup_insert_ne by done]; done.
Qed.

(** C6, failing input: both lists empty.  Evaluating the argument
    [list1->tail->next] dereferences the [NULL] tail of the receiver
    before [splice_between] can return for the empty donor. *)
Theorem list_splice_empty_receiver_faults :
  let m := mem_of2 [] [] in
  list_inv m 1%positive [] ∧ list_inv m 2%positive []
  ∧ list_splice (Some 1%positive) (Some 2%positive) m = None.
Proof. split; [solve_inv|split; [solve_inv|by vm_compute]]. Qed.

(** C2, failing inputs.  Appending [7] to the empty list faults in the
    same way.  Splicing [9] before index 1 of [1; 2; 3] returns true
    with count 4 and the donor emptied, but the last donor node's
    [next] is not set: walking from the head of the receiver yields
    only 1, 9, and walking back from its tail 3, 2, 9. *)
Theorem list_splice_sequence_failures :
  list_splice (Some 1%positive) (Some 2%positive) (mem_of2 [] [7]) = None
  ∧ match list_splice_before (Some 1%positive) (Some 2%positive) 1
            (mem_of2 [1; 2; 3] [9]) with
    | Some (r, m') =>
        r = true
        ∧ lists m' !! 2%positive = Some (mkList 0 None None)
        ∧ l_size <$> lists m' !! 1%positive = Some 4
        ∧ elements m' 1%positive = Some [1; 9]
        ∧ elements_back m' 1%positive = Some [3; 2; 9]
    | None => False
    end.
Proof. by vm_compute. Qed.

(** C1, failing input: the receiver holds 1, 2 and the donor 3, 4, both
    satisfying the invariant.  [list_splice] returns true; the forward
    walk of the receiver then reads 1, 2, 3, 4, but the first donor
    node keeps its [NULL] [prev], so the walk back from the tail stops
    after 4, 3, and no chain satisfies the invariant for the
    receiver. *)
Theorem list_splice_breaks_invariant :
  let m := mem_of2 [1; 2] [3; 4] in
  list_inv m 1%positive [1; 2]%positive
  ∧ list_inv m 2%positive [3; 4]%positive
  ∧ match list_splice (Some 1%positive) (Some 2%positive) m with
    | Some (r, m') =>
        r = true
        ∧ elements m' 1%positive = Some [1; 2; 3; 4]
        ∧ elements_back m' 1%positive = Some [4; 3]
        ∧ (n_next <$> nodes m' !! 2%positive) = Some (Some 3%positive)
        ∧ (n_prev <$> nodes m' !! 3%positive) = Some None
        ∧ ∀ l, ¬ list_inv m' 1%positive l
    | None => False
    end.
Proof.
  split; [solve_inv|]. split; [solve_inv|].
  destruct (list_splice _ _ _) as [[r m']|] eqn:E; vm_compute in E;
    [|discriminate].
  injection E as <- <-.
  do 5 (split; [by vm_compute|]).
  intros l (HL & _ & Hd & _).
  vm_compute in HL. injection HL as Hlen Hhd _.
  destruct l as [|a [|b [|c l]]]; try discriminate.
  simpl in Hhd. injection Hhd as <-.
  destruct Hd as ((n1 & Hn1 & _ & Hx1) & (n2 & Hn2 & _ & Hx2)
                  & (n3 & Hn3 & Hp3 & _) & _).
  vm_compute in Hn1. injection Hn1 as <-. simpl in Hx1. injection Hx1 as <-.
  vm_compute in Hn2. injection Hn2 as <-. simpl in Hx2. injection Hx2 as <-.
  vm_compute in Hn3. injection Hn3 as <-. simpl in Hp3. discriminate.
Qed.

(** * Further properties of list.c *)

Lemma hd_or_head (l : list addr) : hd_or l None = head l.
Proof. by destruct l. Qed.

(** ** The backward walk of a well-formed list *)

Lemma chain_back_dseg h l : ∀ fuel n,
  dseg h None l n → (length l ≤ fuel)%nat →
  chain_back fuel h (last l) = Some (reverse l).
Proof.
  induction l as [|z l IH] using rev_ind; intros fuel n Hd Hlen.
  { by destruct fuel. }
  rewrite length_app in Hlen. simpl in Hlen.
  destruct fuel as [|fuel]; [lia|].
  apply dseg_app in Hd as [Hd [(x & Hx & Hp & _) _]].
  rewrite last_snoc, reverse_snoc. cbn [chain_back]. rewrite Hx, Hp.
  replace (last_or l None) with (last l)
    by (unfold last_or; by destruct (last l)).
  by rewrite (IH fuel _ Hd) by lia.
Qed.

(** Walking [prev] from the tail of a list that satisfies the invariant
    reads its payloads in the opposite order. *)
Lemma list_inv_elements_back m lp l :
  list_inv m lp l → elements_back m lp = Some (reverse (contents m l)).
Proof.
  intros (HL & Hnd & Hd & _). unfold elements_back. rewrite HL. cbn [l_tail].
  rewrite (chain_back_dseg _ l _ None); [|done|].
  - unfold contents. by rewrite fmap_reverse.
  - pose proof (chain_length_bound _ _ _ _ Hnd Hd). lia.
Qed.

(** ** Insertion at the ends *)

Lemma list_add_last_spec h L k lp l x :
  let a := fresh (dom h) in
  list_inv (mkMem h L (S k)) lp l →
  Z.of_nat (length l) + 1 < SIZE_MOD →
  ∃ h',
    list_add_last (Some lp) x (mkMem h L (S k))
    = Some (true,
            mkMem h' (<[lp := mkList (Z.of_nat (length l) + 1)
                                 (head (l ++ [a])) (Some a)]> L) k)
    ∧ dseg h' None (l ++ [a]) None
    ∧ data_at h' a = x
    ∧ (∀ c, c ∈ l → data_at h' c = data_at h c)
    ∧ (∀ c, c ∉ l → c ≠ a → h' !! c = h !! c).
Proof.
  intros a (HL & Hnd & Hd & _) Hb. simpl in HL, Hd.
  assert (Hfresh : a ∉ l) by (by eapply fresh_node_unused).
  assert (Hnd' : NoDup (l ++ [a])).
  { rewrite NoDup_app. split; [done|]. split; [set_solver|apply NoDup_singleton]. }
  destruct (snoc_case l) as [->|(l' & z & ->)].
  - eexists. split; [|split; [|split; [|split]]].
    + unfold list_add_last.
      erewrite bind_eq by apply calloc_node_eq. fold a. simpl.
      mrun. rewrite !insert_insert_eq. reflexivity.
    + simpl. seg_solve.
    + by rewrite data_at_insert.
    + intros c Hc. set_solver.
    + intros c _ Hc. by rewrite !lookup_insert_ne.
  - nd_facts Hnd'. seg_destruct Hd.
    eexists. split; [|split; [|split; [|split]]].
    + unfold list_add_last.
      erewrite bind_eq by apply calloc_node_eq. fold a. simpl.
      rewrite last_snoc in HL.
      assert (Hz : (Z.of_nat (length (l' ++ [z])) =? 0) = false)
        by (apply Z.eqb_neq; rewrite length_app; simpl; lia).
      rewrite head_snoc_app.
      repeat first [ rewrite Hz | mstep_core | progress simpl ].
      rewrite !insert_insert_eq, wrap_small by lia. reflexivity.
    + seg_solve.
    + unfold data_at. by rewrite lookup_insert_ne, lookup_insert_eq.
    + intros c Hc. assert (c ≠ a) by (intros ->; done). unfold data_at.
      destruct (decide (c = z)) as [->|];
        [|by rewrite !lookup_insert_ne].
      rewrite lookup_insert_eq.
      by match goal with H : h !! z = Some _ |- _ => rewrite H end.
    + intros c Hc Hca. rewrite !lookup_insert_ne; [done|done|].
      intros ->. apply Hc. set_solver.
Qed.

Lemma list_add_first_spec h L k lp l x :
  let a := fresh (dom h) in
  list_inv (mkMem h L (S k)) lp l →
  Z.of_nat (length l) + 1 < SIZE_MOD →
  ∃ h',
    list_add_first (Some lp) x (mkMem h L (S k))
    = Some (true,
            mkMem h' (<[lp := mkList (Z.of_nat (length l) + 1)
                                 (Some a) (last (a :: l))]> L) k)
    ∧ dseg h' None (a :: l) None
    ∧ data_at h' a = x
    ∧ (∀ c, c ∈ l → data_at h' c = data_at h c)
    ∧ (∀ c, c ∉ l → c ≠ a → h' !! c = h !! c).
Proof.
  intros a (HL & Hnd & Hd & _) Hb. simpl in HL, Hd.
  assert (Hfresh : a ∉ l) by (by eapply fresh_node_unused).
  destruct l as [|z l'].
  - eexists. split; [|split; [|split; [|split]]].
    + unfold list_add_first.
      erewrite bind_eq by apply calloc_node_eq. fold a. simpl.
      mrun. rewrite !insert_insert_eq. reflexivity.
    + simpl. seg_solve.
    + by rewrite data_at_insert.
    + intros c Hc. set_solver.
    + intros c _ Hc. by rewrite !lookup_insert_ne.
  - assert (Hnd' : NoDup (a :: z :: l')) by (by apply NoDup_cons).
    nd_facts Hnd'. seg_destruct Hd.
    eexists. split; [|split; [|split; [|split]]].
    + unfold list_add_first.
      erewrite bind_eq by apply calloc_node_eq. fold a. simpl.
      mrun. rewrite !insert_insert_eq, wrap_small by lia. reflexivity.
    + seg_solve.
    + unfold data_at. by rewrite lookup_insert_ne, lookup_insert_eq.
    + intros c Hc. assert (c ≠ a) by (intros ->; done). unfold data_at.
      destruct (decide (c = z)) as [->|]; [|by rewrite !lookup_insert_ne].
      rewrite lookup_insert_eq.
      by match goal with H : h !! z = Some _ |- _ => rewrite H end.
    + intros c Hc Hca. rewrite !lookup_insert_ne; [done|done|].
      intros ->. apply Hc. set_solver.
Qed.

(** A list whose header and nodes an operation leaves alone keeps its
    invariant and its payloads. *)
Lemma list_inv_frame m m' lp l :
  list_inv m lp l →
  lists m' !! lp = lists m !! lp →
  (∀ c, c ∈ l → nodes m' !! c = nodes m !! c) →
  list_inv m' lp l ∧ contents m' l = contents m l.
Proof.
  intros (HL & Hnd & Hd & Hb) HL' Hf. split.
  - split; [by rewrite HL'|]. split; [done|]. split; [|done].
    by eapply dseg_frame.
  - unfold contents. apply contents_frame. intros c Hc. unfold data_at.
    by rewrite Hf.
Qed.

(** The chain of a well-formed list consists of allocated nodes. *)
Lemma list_inv_alloc m lp l c : list_inv m lp l → c ∈ l → is_Some (nodes m !! c).
Proof. intros (_ & _ & Hd & _). by eapply dseg_alloc. Qed.

(** [list_add_last] with what it leaves alone: the other headers, and
    every node outside the chain other than the new one. *)
Lemma list_add_last_ok m lp l x :
  let a := fresh (dom (nodes m)) in
  list_inv m lp l →
  (0 < avail m)%nat →
  Z.of_nat (length l) + 1 < SIZE_MOD →
  ∃ m',
    list_add_last (Some lp) x m = Some (true, m')
    ∧ (a ∉ l)
    ∧ list_inv m' lp (l ++ [a])
    ∧ contents m' (l ++ [a]) = contents m l ++ [x]
    ∧ avail m' = pred (avail m)
    ∧ (∀ q, q ≠ lp → lists m' !! q = lists m !! q)
    ∧ (∀ c, c ∉ l → c ≠ a → nodes m' !! c = nodes m !! c).
Proof.
  intros a Hinv Hav Hb. destruct m as [h L [|k]]; [simpl in Hav; lia|].
  destruct (list_add_last_spec h L k lp l x Hinv Hb)
    as (h' & Hrun & Hd' & Hx & Hdat & Hfr).
  pose proof Hinv as (HL & Hnd & Hd & _). simpl in HL, Hd, a.
  assert (Hfresh : a ∉ l) by (by eapply fresh_node_unused).
  eexists. split; [exact Hrun|]. split; [done|].
  split; [|split; [|split; [done|split]]].
  - split; [|split; [|split; [done|]]].
    + simpl. rewrite lookup_insert_eq, length_app, last_snoc. simpl.
      do 2 f_equal. lia.
    + rewrite NoDup_app. split; [done|].
      split; [set_solver|apply NoDup_singleton].
    + rewrite length_app. simpl. lia.
  - unfold contents. subst a. simpl. rewrite fmap_app. simpl. rewrite Hx.
    f_equal. by apply contents_frame.
  - intros q Hq. simpl. by rewrite lookup_insert_ne.
  - done.
Qed.

Lemma list_add_first_ok m lp l x :
  let a := fresh (dom (nodes m)) in
  list_inv m lp l →
  (0 < avail m)%nat →
  Z.of_nat (length l) + 1 < SIZE_MOD →
  ∃ m',
    list_add_first (Some lp) x m = Some (true, m')
    ∧ (a ∉ l)
    ∧ list_inv m' lp (a :: l)
    ∧ contents m' (a :: l) = x :: contents m l
    ∧ avail m' = pred (avail m)
    ∧ (∀ q, q ≠ lp → lists m' !! q = lists m !! q)
    ∧ (∀ c, c ∉ l → c ≠ a → nodes m' !! c = nodes m !! c).
Proof.
  intros a Hinv Hav Hb. destruct m as [h L [|k]]; [simpl in Hav; lia|].
  destruct (list_add_first_spec h L k lp l x Hinv Hb)
    as (h' & Hrun & Hd' & Hx & Hdat & Hfr).
  pose proof Hinv as (HL & Hnd & Hd & _). simpl in HL, Hd, a.
  assert (Hfresh : a ∉ l) by (by eapply fresh_node_unused).
  eexists. split; [exact Hrun|]. split; [done|].
  split; [|split; [|split; [done|split]]].
  - split; [|split; [|split; [done|]]].
    + simpl. rewrite lookup_insert_eq. do 2 f_equal. lia.
    + by apply NoDup_cons.
    + simpl. lia.
  - unfold contents. subst a. simpl. rewrite Hx. f_equal.
    by apply contents_frame.
  - intros q Hq. simpl. by rewrite lookup_insert_ne.
  - done.
Qed.

(** A well-formed list that shares no node with the chain an insertion
    works on is not affected by it. *)
Lemma other_list_kept m m' lp (l : list addr) a lp2 l2 :
  (∀ q, q ≠ lp → lists m' !! q = lists m !! q) →
  (∀ c, c ∉ l → c ≠ a → nodes m' !! c = nodes m !! c) →
  a = fresh (dom (nodes m)) →
  lp2 ≠ lp → list_inv m lp2 l2 → (∀ c, c ∈ l2 → c ∉ l) →
  list_inv m' lp2 l2 ∧ contents m' l2 = contents m l2.
Proof.
  intros HfL Hfn -> Hne Hinv2 Hdis. apply (list_inv_frame _ _ _ _ Hinv2).
  - by apply HfL.
  - intros c Hc. apply Hfn; [by apply Hdis|].
    intros ->. destruct (list_inv_alloc _ _ _ _ Hinv2 Hc) as [n Hn].
    apply (is_fresh (dom (nodes m))). apply elem_of_dom. eauto.
Qed.

(** X3: [list_add] (that is, [list_add_last]) on a list satisfying the
    invariant, when the allocator can provide a node: the call returns
    true, a new node is linked after the old tail, the element sequence
    is the old one followed by the new element, and every other
    well-formed list that shares no node with this one is as before. *)
Theorem list_add_appends m lp l x :
  list_inv m lp l →
  (0 < avail m)%nat →
  Z.of_nat (length l) + 1 < SIZE_MOD →
  ∃ m' a,
    list_add (Some lp) x m = Some (true, m')
    ∧ (a ∉ l)
    ∧ list_inv m' lp (l ++ [a])
    ∧ elements m' lp = Some (contents m l ++ [x])
    ∧ avail m' = pred (avail m)
    ∧ ∀ lp2 l2, lp2 ≠ lp → list_inv m lp2 l2 → (∀ c, c ∈ l2 → c ∉ l) →
        list_inv m' lp2 l2 ∧ contents m' l2 = contents m l2.
Proof.
  intros Hinv Hav Hb.
  destruct (list_add_last_ok m lp l x Hinv Hav Hb)
    as (m' & Hrun & Hfresh & Hinv' & Hc & Hav' & HfL & Hfn).
  exists m', (fresh (dom (nodes m))). split; [exact Hrun|].
  do 2 (split; [done|]). split; [|split; [done|]].
  - by rewrite (list_inv_elements _ _ _ Hinv'), Hc.
  - intros lp2 l2. by eapply other_list_kept.
Qed.

Lemma list_add_appends_witness :
  let m := mem_of [10; 20; 30] in
  ∃ m' a,
    list_add (Some 1%positive) 40 m = Some (true, m')
    ∧ (a ∉ [1; 2; 3]%positive)
    ∧ list_inv m' 1%positive ([1; 2; 3]%positive ++ [a])
    ∧ elements m' 1%positive = Some (contents m [1; 2; 3]%positive ++ [40])
    ∧ avail m' = pred (avail m)
    ∧ ∀ lp2 l2, lp2 ≠ 1%positive → list_inv m lp2 l2 →
        (∀ c, c ∈ l2 → c ∉ [1; 2; 3]%positive) →
        list_inv m' lp2 l2 ∧ contents m' l2 = contents m l2.
Proof.
  apply (list_add_appends (mem_of [10; 20; 30]) 1%positive [1; 2; 3]%positive 40).
  - exact mem_of_3_inv.
  - vm_compute. lia.
  - vm_compute. reflexivity.
Defined.

(** X4: [list_add_first] on a list satisfying the invariant, when the
    allocator can provide a node: the call returns true, a new node
    becomes the head, the element sequence is the new element followed
    by the old sequence, and every other well-formed list that shares
    no node with this one is as before. *)
Theorem list_add_first_prepends m lp l x :
  list_inv m lp l →
  (0 < avail m)%nat →
  Z.of_nat (length l) + 1 < SIZE_MOD →
  ∃ m' a,
    list_add_first (Some lp) x m = Some (true, m')
    ∧ (a ∉ l)
    ∧ list_inv m' lp (a :: l)
    ∧ elements m' lp = Some (x :: contents m l)
    ∧ avail m' = pred (avail m)
    ∧ ∀ lp2 l2, lp2 ≠ lp → list_inv m lp2 l2 → (∀ c, c ∈ l2 → c ∉ l) →
        list_inv m' lp2 l2 ∧ contents m' l2 = contents m l2.
Proof.
  intros Hinv Hav Hb.
  destruct (list_add_first_ok m lp l x Hinv Hav Hb)
    as (m' & Hrun & Hfresh & Hinv' & Hc & Hav' & HfL & Hfn).
  exists m', (fresh (dom (nodes m))). split; [exact Hrun|].
  do 2 (split; [done|]). split; [|split; [done|]].
  - by rewrite (list_inv_elements _ _ _ Hinv'), Hc.
  - intros lp2 l2. by eapply other_list_kept.
Qed.

Lemma list_add_first_prepends_witness :
  let m := mem_of [10; 20; 30] in
  ∃ m' a,
    list_add_first (Some 1%positive) 5 m = Some (true, m')
    ∧ (a ∉ [1; 2; 3]%positive)
    ∧ list_inv m' 1%positive (a :: [1; 2; 3]%positive)
    ∧ elements m' 1%positive = Some (5 :: contents m [1; 2; 3]%positive)
    ∧ avail m' = pred (avail m)
    ∧ ∀ lp2 l2, lp2 ≠ 1%positive → list_inv m lp2 l2 →
        (∀ c, c ∈ l2 → c ∉ [1; 2; 3]%positive) →
        list_inv m' lp2 l2 ∧ contents m' l2 = contents m l2.
Proof.
  apply (list_add_first_prepends (mem_of [10; 20; 30]) 1%positive
           [1; 2; 3]%positive 5).
  - exact mem_of_3_inv.
  - vm_compute. lia.
  - vm_compute. reflexivity.
Defined.

(** ** Reading and replacing elements *)

Lemma contents_lookup m l i :
  contents m l !! i = data_at (nodes m) <$> l !! i.
Proof. unfold contents. by rewrite list_lookup_fmap. Qed.

Lemma data_at_lookup h a n : h !! a = Some n → data_at h a = n_data n.
Proof. unfold data_at. by intros ->. Qed.

(** X5: the reading functions.  On a list satisfying the invariant,
    [list_get] returns the element at the given position of the
    element sequence, and [NULL] for every index that is not below the
    count; [list_get_first] and [list_get_last] return the first and
    the last element, and [NULL] when the list is empty.  None of them
    changes the memory. *)
Theorem list_get_reads m lp l index :
  list_inv m lp l → 0 ≤ index →
  list_get (Some lp) index m = Some (contents m l !! Z.to_nat index, m)
  ∧ list_get_first (Some lp) m = Some (head (contents m l), m)
  ∧ list_get_last (Some lp) m = Some (last (contents m l), m).
Proof.
  intros Hinv Hi. pose proof Hinv as (HL & _ & Hd & _). split.
  { unfold list_get.
    erewrite bind_eq by (by apply get_node_at_spec).
    rewrite contents_lookup.
    destruct (l !! Z.to_nat index) as [b|] eqn:Hb; [|done].
    destruct (list_inv_alloc _ _ _ b Hinv) as [n Hn];
      [by eapply list_elem_of_lookup_2|].
    simpl. erewrite bind_eq by (by apply get_data_eq).
    by rewrite (data_at_lookup _ _ _ Hn). }
  unfold list_get_first, list_get_last, contents.
  erewrite !bind_eq by (by apply get_size_eq). cbn [l_size].
  destruct l as [|a l']; [done|].
  replace (Z.of_nat (length (a :: l')) =? 0) with false
    by (symmetry; apply Z.eqb_neq; simpl; lia).
  erewrite bind_eq by (by apply get_head_eq).
  erewrite (bind_eq (get_tail _)) by (by apply get_tail_eq).
  cbn [l_head l_tail]. split.
  - destruct (list_inv_alloc _ _ _ a Hinv) as [n Hn]; [set_solver|].
    simpl. erewrite bind_eq by (by apply get_data_eq).
    by rewrite (data_at_lookup _ _ _ Hn).
  - rewrite fmap_last.
    destruct (last (a :: l')) as [z|] eqn:Hz; [|by apply last_None in Hz].
    destruct (list_inv_alloc _ _ _ z Hinv) as [n Hn].
    { rewrite last_lookup in Hz. by eapply list_elem_of_lookup_2. }
    simpl. erewrite bind_eq by (by apply get_data_eq).
    by rewrite (data_at_lookup _ _ _ Hn).
Qed.

Lemma list_get_reads_witness :
  let m := mem_of [10; 20; 30] in
  list_get (Some 1%positive) 1 m
  = Some (contents m [1; 2; 3]%positive !! Z.to_nat 1, m)
  ∧ list_get_first (Some 1%positive) m
    = Some (head (contents m [1; 2; 3]%positive), m)
  ∧ list_get_last (Some 1%positive) m
    = Some (last (contents m [1; 2; 3]%positive), m).
Proof.
  apply (list_get_reads (mem_of [10; 20; 30]) 1%positive [1; 2; 3]%positive 1).
  - exact mem_of_3_inv.
  - lia.
Defined.

Lemma to_array_loop_spec m l : ∀ rest pre,
  l = pre ++ rest → fseg (nodes m) l None →
  to_array_loop (length rest) (length pre)
    (Some (contents m pre ++ replicate (length rest) 0)) (head rest) m
  = Some (Some (contents m l), m).
Proof.
  induction rest as [|a rest IH]; intros pre Hl Hf.
  { rewrite app_nil_r in Hl. subst pre. simpl. by rewrite app_nil_r. }
  pose proof Hf as Hf'. rewrite Hl in Hf'.
  apply fseg_app in Hf' as [_ [(n & Hn & Hnx) _]].
  rewrite hd_or_head in Hnx.
  cbn [to_array_loop length head].
  erewrite bind_eq by (by apply get_data_eq).
  erewrite bind_eq by (by apply get_next_eq).
  rewrite Hnx.
  replace (<[length pre := n_data n]>
             (contents m pre ++ replicate (S (length rest)) 0))
    with (contents m (pre ++ [a]) ++ replicate (length rest) 0).
  - replace (S (length pre)) with (length (pre ++ [a]))
      by (rewrite length_app; simpl; lia).
    apply IH; [by rewrite <- app_assoc|done].
  - unfold contents. rewrite fmap_app. simpl.
    rewrite (data_at_lookup _ _ _ Hn), <- app_assoc. simpl.
    rewrite <- (length_fmap (data_at (nodes m)) pre).
    rewrite insert_app_r_alt, Nat.sub_diag by lia. done.
Qed.

(** X6: [list_to_array] on a list satisfying the invariant.  For a
    non-empty list, when the allocator provides the array, the call
    returns an array with one cell per element, holding the elements
    in order, and leaves nodes and headers as they are; when the
    allocator is exhausted, the result of [calloc] is not looked at and
    the first store dereferences [NULL].  For an empty list the call
    returns whatever [calloc] returned. *)
Theorem list_to_array_elements m lp l :
  list_inv m lp l →
  (l ≠ [] → (0 < avail m)%nat →
   list_to_array (Some lp) m
   = Some (Some (contents m l), mkMem (nodes m) (lists m) (pred (avail m))))
  ∧ (l ≠ [] → avail m = 0%nat → list_to_array (Some lp) m = None)
  ∧ (l = [] → list_to_array (Some lp) m = calloc_array 0 m).
Proof.
  intros Hinv. pose proof Hinv as (HL & _ & Hd & _).
  destruct m as [h L k]. simpl in HL, Hd.
  unfold list_to_array. erewrite bind_eq by (by apply get_size_eq).
  cbn [l_size]. split; [|split].
  - intros _ Hav. destruct k as [|k]; [simpl in Hav; lia|].
    unfold calloc_array at 1. unfold bind at 1. cbn [avail nodes lists].
    erewrite bind_eq by (by apply get_head_eq).
    erewrite bind_eq by (by apply get_size_eq).
    cbn [l_size l_head]. rewrite Nat2Z.id.
    apply (to_array_loop_spec (mkMem h L k) l l []); [done|].
    by eapply dseg_fseg.
  - intros Hne Hav. simpl in Hav. subst k.
    unfold calloc_array at 1. unfold bind at 1. cbn [avail].
    erewrite bind_eq by (by apply get_head_eq).
    erewrite bind_eq by (by apply get_size_eq).
    cbn [l_size l_head]. rewrite Nat2Z.id.
    destruct l as [|a l']; [done|].
    destruct Hd as [(n & Hn & _) _].
    cbn [to_array_loop length head].
    by erewrite bind_eq by (by apply get_data_eq).
  - intros ->. cbn [length]. change (Z.of_nat 0) with 0.
    unfold bind at 1.
    destruct (calloc_array 0 (mkMem h L k)) as [[arr m1]|] eqn:E; [|done].
    assert (HL1 : lists m1 = L).
    { unfold calloc_array in E. simpl in E. destruct k; by simplify_eq. }
    erewrite bind_eq by (apply get_head_eq; rewrite HL1; exact HL).
    by erewrite bind_eq by (apply get_size_eq; rewrite HL1; exact HL).
Qed.

Lemma list_to_array_elements_witness :
  let m := mem_of [10; 20; 30] in
  ([1; 2; 3]%positive ≠ [] → (0 < avail m)%nat →
   list_to_array (Some 1%positive) m
   = Some (Some (contents m [1; 2; 3]%positive),
           mkMem (nodes m) (lists m) (pred (avail m))))
  ∧ ([1; 2; 3]%positive ≠ [] → avail m = 0%nat →
     list_to_array (Some 1%positive) m = None)
  ∧ ([1; 2; 3]%positive = [] →
     list_to_array (Some 1%positive) m = calloc_array 0 m).
Proof.
  apply (list_to_array_elements (mem_of [10; 20; 30]) 1%positive
           [1; 2; 3]%positive).
  exact mem_of_3_inv.
Defined.

(** Storing a payload in a node keeps every link. *)
Lemma dseg_set_data h b n x p l nx :
  h !! b = Some n →
  dseg h p l nx →
  dseg (<[b := mkNode x (n_next n) (n_prev n)]> h) p l nx.
Proof.
  intros Hb. revert p. induction l as [|a l IH]; intros p; simpl; [done|].
  intros [(y & Hy & Hp & Hn) Hl]. split; [|by apply IH].
  destruct (decide (a = b)) as [->|Hne].
  - rewrite lookup_insert_eq. eexists. split; [done|]. by simplify_eq.
  - rewrite lookup_insert_ne by done. eauto.
Qed.

Lemma contents_set_data (h : gmap addr Node) b n x l i :
  NoDup l → l !! i = Some b →
  data_at (<[b := mkNode x (n_next n) (n_prev n)]> h) <$> l
  = <[i := x]> (data_at h <$> l).
Proof.
  intros Hnd Hi. apply list_eq. intros j.
  rewrite list_lookup_fmap.
  destruct (decide (j = i)) as [->|Hne].
  - rewrite list_lookup_insert_eq
      by (rewrite length_fmap; by eapply lookup_lt_Some).
    rewrite Hi. simpl. by rewrite data_at_insert.
  - rewrite list_lookup_insert_ne by done. rewrite list_lookup_fmap.
    destruct (l !! j) as [c|] eqn:Hj; [|done]. simpl.
    rewrite data_at_insert_ne; [done|].
    intros ->. apply Hne. by eapply NoDup_lookup.
Qed.

(** X7: [list_replace_at] overwrites the payload at an index below the
    count and returns the payload that was there; the chain, the header
    and all other payloads are kept.  For an index that is not below
    the count it returns [NULL] and changes nothing. *)
Theorem list_replace_at_spec m lp l index x :
  list_inv m lp l → 0 ≤ index →
  ∃ m',
    list_replace_at (Some lp) x index m
    = Some (contents m l !! Z.to_nat index, m')
    ∧ list_inv m' lp l
    ∧ contents m' l = <[Z.to_nat index := x]> (contents m l)
    ∧ lists m' = lists m
    ∧ (Z.of_nat (length l) ≤ index → m' = m).
Proof.
  intros Hinv Hi. unfold list_replace_at.
  erewrite bind_eq by (by apply get_node_at_spec).
  rewrite contents_lookup.
  destruct (l !! Z.to_nat index) as [b|] eqn:Hb.
  - destruct (list_inv_alloc _ _ _ b Hinv) as [n Hn];
      [by eapply list_elem_of_lookup_2|].
    pose proof Hinv as (HL & Hnd & Hd & Hbd).
    eexists. split; [|split; [|split; [|split]]].
    + simpl. erewrite bind_eq by (by apply get_data_eq).
      erewrite bind_eq by (by apply set_data_eq).
      by rewrite (data_at_lookup _ _ _ Hn).
    + split; [done|]. split; [done|]. split; [|done].
      simpl. by apply dseg_set_data.
    + unfold contents. simpl. by apply contents_set_data.
    + done.
    + intros Hge. apply lookup_lt_Some in Hb. lia.
  - exists m. split; [done|]. split; [done|]. split; [|done].
    apply lookup_ge_None in Hb.
    rewrite list_insert_ge; [done|]. unfold contents. by rewrite length_fmap.
Qed.

Lemma list_replace_at_spec_witness :
  let m := mem_of [10; 20; 30] in
  ∃ m',
    list_replace_at (Some 1%positive) 99 1 m
    = Some (contents m [1; 2; 3]%positive !! Z.to_nat 1, m')
    ∧ list_inv m' 1%positive [1; 2; 3]%positive
    ∧ contents m' [1; 2; 3]%positive
      = <[Z.to_nat 1 := 99]> (contents m [1; 2; 3]%positive)
    ∧ lists m' = lists m
    ∧ (Z.of_nat (length [1; 2; 3]%positive) ≤ 1 → m' = m).
Proof.
  apply (list_replace_at_spec (mem_of [10; 20; 30]) 1%positive
           [1; 2; 3]%positive 1 99).
  - exact mem_of_3_inv.
  - lia.
Defined.

(** ** Removal *)

Lemma delete_out_of_range {T} (l : list T) i : (length l ≤ i)%nat → delete i l = l.
Proof.
  intros Hi. rewrite delete_take_drop, take_ge, drop_ge by lia.
  by rewrite app_nil_r.
Qed.

(** [unlink] with what it leaves alone: the node is freed, every node
    outside the chain and every other header is kept. *)
Lemma unlink_frame h L k lp A a B :
  list_inv (mkMem h L k) lp (A ++ a :: B) →
  ∃ h' L',
    unlink (Some lp) (Some a) (mkMem h L k)
    = Some (data_at h a, mkMem h' L' (S k))
    ∧ list_inv (mkMem h' L' (S k)) lp (A ++ B)
    ∧ (∀ c, c ∈ A ++ B → data_at h' c = data_at h c)
    ∧ h' !! a = None
    ∧ (∀ c, c ∉ A ++ a :: B → h' !! c = h !! c)
    ∧ (∀ q, q ≠ lp → L' !! q = L !! q).
Proof.
  intros (HL & Hnd & Hd & Hb). simpl in HL, Hd.
  destruct (NoDup_app_remove _ _ _ Hnd) as [Hnd' Hna].
  destruct (snoc_case A) as [->|(A' & z & ->)]; destruct B as [|b1 B'];
    once (nd_facts Hnd); once (seg_destruct Hd);
    unfold data_at at 1;
    match goal with H : h !! a = Some _ |- _ => rewrite H end.
  all: eexists; eexists; split; [unfold unlink; mrun; reflexivity|].
  all: split; [|split; [data_frame a|]].
  all: try (split; [hdr_solve|]; split; [assumption|];
            split; [simpl; seg_solve|];
            rewrite ?length_app in *; simpl in *; lia).
  all: split; [apply lookup_delete_eq|].
  all: split; [|intros q Hq; simpl; by rewrite !lookup_insert_ne].
  all: intros c Hc; rewrite lookup_delete_ne by (intros ->; set_solver);
    rewrite ?lookup_insert_ne; [done|intros ->; set_solver..].
Qed.

Lemma unlink_at m lp l i a :
  list_inv m lp l → l !! i = Some a →
  ∃ m',
    unlink (Some lp) (Some a) m = Some (data_at (nodes m) a, m')
    ∧ list_inv m' lp (delete i l)
    ∧ contents m' (delete i l) = delete i (contents m l)
    ∧ avail m' = S (avail m)
    ∧ nodes m' !! a = None
    ∧ (∀ c, c ∉ l → nodes m' !! c = nodes m !! c)
    ∧ (∀ q, q ≠ lp → lists m' !! q = lists m !! q).
Proof.
  intros Hinv Hi. destruct m as [h L k].
  pose proof (take_drop_middle _ _ _ Hi) as Hl.
  rewrite <- Hl in Hinv.
  destruct (unlink_frame h L k lp _ _ _ Hinv)
    as (h' & L' & Hrun & Hinv' & Hdat & Ha & Hfn & HfL).
  rewrite delete_take_drop.
  exists (mkMem h' L' (S k)). split; [done|]. split; [done|].
  split; [|split; [done|split; [done|split; [|done]]]].
  - unfold contents. simpl. rewrite (contents_frame h h') by done.
    rewrite fmap_app, fmap_take, fmap_drop. by rewrite <- delete_take_drop.
  - intros c Hc. apply Hfn. by rewrite Hl.
Qed.

(** X8: [list_remove_at] on a list satisfying the invariant.  For an
    index below the count it unlinks and frees the node at that
    position and returns its payload: the list again satisfies the
    invariant, over the chain without that node, and the element
    sequence is the old one without that position.  For any other index
    it returns [NULL] and changes nothing. *)
Theorem list_remove_at_spec m lp l index :
  list_inv m lp l → 0 ≤ index →
  ∃ m',
    list_remove_at (Some lp) index m
    = Some (contents m l !! Z.to_nat index, m')
    ∧ list_inv m' lp (delete (Z.to_nat index) l)
    ∧ elements m' lp = Some (delete (Z.to_nat index) (contents m l))
    ∧ (index < Z.of_nat (length l) → avail m' = S (avail m))
    ∧ (Z.of_nat (length l) ≤ index → m' = m).
Proof.
  intros Hinv Hi. unfold list_remove_at.
  erewrite bind_eq by (by apply get_node_at_spec).
  rewrite contents_lookup.
  destruct (l !! Z.to_nat index) as [b|] eqn:Hb.
  - destruct (unlink_at _ _ _ _ _ Hinv Hb) as (m' & Hrun & Hinv' & Hc & Hav & _).
    exists m'. split; [|split; [done|split; [|split; [done|]]]].
    + simpl. by erewrite bind_eq by exact Hrun.
    + by rewrite (list_inv_elements _ _ _ Hinv'), Hc.
    + intros Hge. apply lookup_lt_Some in Hb. lia.
  - exists m. apply lookup_ge_None in Hb.
    rewrite !delete_out_of_range by (by unfold contents; rewrite ?length_fmap).
    split; [done|]. split; [done|].
    split; [by apply list_inv_elements|]. split; [lia|done].
Qed.

Lemma list_remove_at_spec_witness :
  let m := mem_of [10; 20; 30] in
  ∃ m',
    list_remove_at (Some 1%positive) 1 m
    = Some (contents m [1; 2; 3]%positive !! Z.to_nat 1, m')
    ∧ list_inv m' 1%positive (delete (Z.to_nat 1) [1; 2; 3]%positive)
    ∧ elements m' 1%positive
      = Some (delete (Z.to_nat 1) (contents m [1; 2; 3]%positive))
    ∧ (1 < Z.of_nat (length [1; 2; 3]%positive) → avail m' = S (avail m))
    ∧ (Z.of_nat (length [1; 2; 3]%positive) ≤ 1 → m' = m).
Proof.
  apply (list_remove_at_spec (mem_of [10; 20; 30]) 1%positive
           [1; 2; 3]%positive 1).
  - exact mem_of_3_inv.
  - lia.
Defined.

(** X9: [list_remove_first] on a list satisfying the invariant returns
    the first element and unlinks its node, leaving the rest of the
    chain as a list that satisfies the invariant; on the empty list it
    returns [NULL] and changes nothing. *)
Theorem list_remove_first_spec m lp l :
  list_inv m lp l →
  ∃ m',
    list_remove_first (Some lp) m = Some (head (contents m l), m')
    ∧ list_inv m' lp (tail l)
    ∧ elements m' lp = Some (tail (contents m l))
    ∧ (l = [] → m' = m).
Proof.
  intros Hinv. pose proof Hinv as (HL & _). unfold list_remove_first.
  erewrite bind_eq by (by apply get_size_eq). cbn [l_size].
  destruct l as [|a l'].
  - exists m. split; [done|]. split; [done|].
    split; [exact (list_inv_elements _ _ _ Hinv)|done].
  - replace (Z.of_nat (length (a :: l')) =? 0) with false
      by (symmetry; apply Z.eqb_neq; simpl; lia).
    erewrite bind_eq by (by apply get_head_eq). cbn [l_head head].
    destruct (unlink_at m lp (a :: l') 0 a Hinv eq_refl)
      as (m' & Hrun & Hinv' & Hc & _).
    exists m'. split; [by erewrite bind_eq by exact Hrun|].
    split; [done|]. split; [|done].
    by rewrite (list_inv_elements _ _ _ Hinv'), Hc.
Qed.

Lemma list_remove_first_spec_witness :
  let m := mem_of [10; 20; 30] in
  ∃ m',
    list_remove_first (Some 1%positive) m
    = Some (head (contents m [1; 2; 3]%positive), m')
    ∧ list_inv m' 1%positive (tail [1; 2; 3]%positive)
    ∧ elements m' 1%positive = Some (tail (contents m [1; 2; 3]%positive))
    ∧ ([1; 2; 3]%positive = [] → m' = m).
Proof.
  apply (list_remove_first_spec (mem_of [10; 20; 30]) 1%positive
           [1; 2; 3]%positive).
  exact mem_of_3_inv.
Defined.

Lemma delete_last_take {T} (l : list T) :
  delete (length l - 1)%nat l = take (length l - 1)%nat l.
Proof.
  rewrite delete_take_drop.
  rewrite (drop_ge l (S (length l - 1))); [by rewrite app_nil_r|].
  destruct l; simpl; lia.
Qed.

(** X10: [list_remove_last] on a list satisfying the invariant returns
    the last element and unlinks its node, leaving the chain without
    it as a list that satisfies the invariant; on the empty list it
    returns [NULL] and changes nothing. *)
Theorem list_remove_last_spec m lp l :
  list_inv m lp l →
  ∃ m',
    list_remove_last (Some lp) m = Some (last (contents m l), m')
    ∧ list_inv m' lp (take (length l - 1) l)
    ∧ elements m' lp = Some (take (length l - 1) (contents m l))
    ∧ (l = [] → m' = m).
Proof.
  intros Hinv. pose proof Hinv as (HL & _). unfold list_remove_last.
  erewrite bind_eq by (by apply get_size_eq). cbn [l_size].
  destruct (last l) as [z|] eqn:Hz.
  - assert (Hne : l ≠ []) by (by intros ->).
    replace (Z.of_nat (length l) =? 0) with false
      by (symmetry; apply Z.eqb_neq; destruct l; [done|simpl; lia]).
    erewrite bind_eq by (by apply get_tail_eq). cbn [l_tail].
    pose proof Hz as Hz'. rewrite last_lookup in Hz'.
    replace (Nat.pred (length l)) with (length l - 1)%nat in Hz' by lia.
    destruct (unlink_at m lp l _ z Hinv Hz') as (m' & Hrun & Hinv' & Hc & _).
    exists m'. split; [|split; [|split; [|done]]].
    + erewrite bind_eq by exact Hrun. unfold contents.
      rewrite fmap_last, Hz. done.
    + by rewrite <- delete_last_take.
    + rewrite (list_inv_elements _ _ _ Hinv'), Hc.
      f_equal. unfold contents.
      rewrite <- (length_fmap (data_at (nodes m)) l). apply delete_last_take.
  - apply last_None in Hz. subst l. exists m.
    split; [done|]. split; [done|].
    split; [exact (list_inv_elements _ _ _ Hinv)|done].
Qed.

Lemma list_remove_last_spec_witness :
  let m := mem_of [10; 20; 30] in
  ∃ m',
    list_remove_last (Some 1%positive) m
    = Some (last (contents m [1; 2; 3]%positive), m')
    ∧ list_inv m' 1%positive
        (take (length [1; 2; 3]%positive - 1) [1; 2; 3]%positive)
    ∧ elements m' 1%positive
      = Some (take (length [1; 2; 3]%positive - 1)
                (contents m [1; 2; 3]%positive))
    ∧ ([1; 2; 3]%positive = [] → m' = m).
Proof.
  apply (list_remove_last_spec (mem_of [10; 20; 30]) 1%positive
           [1; 2; 3]%positive).
  exact mem_of_3_inv.
Defined.

(** ** Insertion followed by removal *)

(** X11: removing at the index just inserted at undoes the insertion:
    after [list_add_at] at an index below the count, [list_remove_at]
    at the same index returns the inserted element and the list is
    again the original chain with the original element sequence. *)
Theorem list_add_at_remove_at m lp l index x :
  list_inv m lp l →
  0 ≤ index < Z.of_nat (length l) →
  Z.of_nat (length l) + 1 < SIZE_MOD →
  (0 < avail m)%nat →
  ∃ m1 m2,
    list_add_at (Some lp) x index m = Some (true, m1)
    ∧ list_remove_at (Some lp) index m1 = Some (Some x, m2)
    ∧ list_inv m2 lp l
    ∧ elements m2 lp = elements m lp.
Proof.
  intros Hinv Hi Hb Hav. destruct m as [h L [|k]]; [simpl in Hav; lia|].
  destruct (list_add_at_spec h L k lp l index x Hinv Hi Hb)
    as (m1 & Hadd & Hfresh & Hinv1 & Hx & Hdat).
  set (i := Z.to_nat index) in *. set (a := fresh (dom h)) in *.
  assert (Hlen : length (take i l) = i) by (apply length_take_le; lia).
  assert (Hia : (take i l ++ a :: drop i l) !! i = Some a).
  { apply list_lookup_middle. by rewrite Hlen. }
  destruct (unlink_at _ _ _ _ _ Hinv1 Hia) as (m2 & Hrun & Hinv2 & Hc & _).
  assert (Hdel : delete i (take i l ++ a :: drop i l) = l).
  { rewrite <- Hlen at 1. by rewrite delete_middle, take_drop. }
  rewrite Hdel in Hinv2, Hc.
  exists m1, m2. split; [done|]. split; [|split; [done|]].
  - unfold list_remove_at.
    erewrite bind_eq by (apply get_node_at_spec; [exact Hinv1|lia]).
    fold i. rewrite Hia. simpl.
    erewrite bind_eq by exact Hrun. by rewrite Hx.
  - rewrite (list_inv_elements _ _ _ Hinv2), (list_inv_elements _ _ _ Hinv), Hc.
    f_equal. unfold contents. rewrite fmap_app, fmap_cons.
    rewrite <- Hlen at 1.
    rewrite <- (length_fmap (data_at (nodes m1)) (take i l)).
    rewrite delete_middle, <- fmap_app, take_drop.
    by apply contents_frame.
Qed.

Lemma list_add_at_remove_at_witness :
  let m := mem_of [10; 20; 30] in
  ∃ m1 m2,
    list_add_at (Some 1%positive) 99 1 m = Some (true, m1)
    ∧ list_remove_at (Some 1%positive) 1 m1 = Some (Some 99, m2)
    ∧ list_inv m2 1%positive [1; 2; 3]%positive
    ∧ elements m2 1%positive = elements m 1%positive.
Proof.
  apply (list_add_at_remove_at (mem_of [10; 20; 30]) 1%positive
           [1; 2; 3]%positive 1 99).
  - exact mem_of_3_inv.
  - vm_compute. split; [discriminate|reflexivity].
  - vm_compute. reflexivity.
  - vm_compute. lia.
Defined.

(** ** Searching *)

Lemma bounded_eq {A} (f : nat → M A) m : bounded f m = f (S (size (nodes m))) m.
Proof. done. Qed.

Lemma list_inv_walk m lp l :
  list_inv m lp l →
  fseg (nodes m) l None ∧ (length l ≤ S (size (nodes m)))%nat.
Proof.
  intros (_ & Hnd & Hd & _). split; [by eapply dseg_fseg|].
  pose proof (chain_length_bound _ _ _ _ Hnd Hd). lia.
Qed.

Lemma get_node_loop_spec m e l : ∀ fuel,
  fseg (nodes m) l None → (length l ≤ fuel)%nat →
  get_node_loop fuel (head l) e m
  = Some (snd <$> list_find (λ a, data_at (nodes m) a = e) l, m).
Proof.
  induction l as [|a l IH]; intros fuel Hf Hlen.
  { by destruct fuel. }
  destruct fuel as [|fuel]; [simpl in Hlen; lia|].
  destruct Hf as [(n & Hn & Hnx) Hf]. simpl in Hlen.
  cbn [get_node_loop head not_null negb].
  erewrite bind_eq by (by apply get_data_eq).
  cbn [list_find]. rewrite (data_at_lookup _ _ _ Hn).
  destruct (Z.eqb_spec (n_data n) e) as [He|He].
  - by rewrite decide_True.
  - rewrite decide_False by done.
    erewrite bind_eq by (by apply get_next_eq).
    rewrite Hnx, hd_or_head, IH by (done || lia).
    by destruct (list_find _ l) as [[i b]|].
Qed.

Lemma list_find_contents m l e :
  list_find (λ d, d = e) (contents m l)
  = prod_map id (data_at (nodes m)) <$> list_find (λ a, data_at (nodes m) a = e) l.
Proof. unfold contents. by rewrite list_find_fmap. Qed.

Lemma get_node_spec m lp l e :
  list_inv m lp l →
  get_node (Some lp) e m
  = Some (snd <$> list_find (λ a, data_at (nodes m) a = e) l, m).
Proof.
  intros Hinv. destruct (list_inv_walk _ _ _ Hinv) as [Hf Hlen].
  destruct Hinv as (HL & _). unfold get_node.
  erewrite bind_eq by (by apply get_head_eq). cbn [l_head].
  rewrite bounded_eq. by apply get_node_loop_spec.
Qed.

(** X12: [list_remove] removes the first occurrence of an element.  On a
    list satisfying the invariant, when the element occurs, first at
    position [i], the call returns it and leaves a list satisfying the
    invariant whose element sequence is the old one without position
    [i]; when it does not occur the call returns [NULL] and changes
    nothing. *)
Theorem list_remove_first_occurrence m lp l e :
  list_inv m lp l →
  match list_find (λ d, d = e) (contents m l) with
  | Some (i, _) =>
      ∃ m', list_remove (Some lp) e m = Some (Some e, m')
            ∧ list_inv m' lp (delete i l)
            ∧ elements m' lp = Some (delete i (contents m l))
  | None => list_remove (Some lp) e m = Some (None, m)
  end.
Proof.
  intros Hinv. unfold list_remove.
  erewrite bind_eq by (by apply get_node_spec).
  rewrite list_find_contents.
  destruct (list_find _ l) as [[i a]|] eqn:Hfind; [|done].
  apply list_find_Some in Hfind as (Hi & He & _).
  destruct (unlink_at _ _ _ _ _ Hinv Hi) as (m' & Hrun & Hinv' & Hc & _).
  exists m'. split; [|split; [done|]].
  - simpl. erewrite bind_eq by exact Hrun. by rewrite He.
  - by rewrite (list_inv_elements _ _ _ Hinv'), Hc.
Qed.

Lemma list_remove_first_occurrence_witness :
  let m := mem_of [10; 20; 30] in
  match list_find (λ d, d = 20) (contents m [1; 2; 3]%positive) with
  | Some (i, _) =>
      ∃ m', list_remove (Some 1%positive) 20 m = Some (Some 20, m')
            ∧ list_inv m' 1%positive (delete i [1; 2; 3]%positive)
            ∧ elements m' 1%positive
              = Some (delete i (contents m [1; 2; 3]%positive))
  | None => list_remove (Some 1%positive) 20 m = Some (None, m)
  end.
Proof.
  apply (list_remove_first_occurrence (mem_of [10; 20; 30]) 1%positive
           [1; 2; 3]%positive 20).
  exact mem_of_3_inv.
Defined.

Lemma list_index_of_loop_spec NSI m e l : ∀ fuel i,
  fseg (nodes m) l None → (length l ≤ fuel)%nat →
  0 ≤ i → i + Z.of_nat (length l) < SIZE_MOD →
  list_index_of_loop NSI fuel (head l) e i m
  = Some (match list_find (λ a, data_at (nodes m) a = e) l with
          | Some (j, _) => i + Z.of_nat j
          | None => NSI
          end, m).
Proof.
  induction l as [|a l IH]; intros fuel i Hf Hlen Hi Hb.
  { by destruct fuel. }
  destruct fuel as [|fuel]; [simpl in Hlen; lia|].
  destruct Hf as [(n & Hn & Hnx) Hf]. simpl in Hlen.
  cbn [list_index_of_loop head not_null negb].
  erewrite bind_eq by (by apply get_data_eq).
  cbn [list_find]. rewrite (data_at_lookup _ _ _ Hn).
  destruct (Z.eqb_spec (n_data n) e) as [He|He].
  - rewrite decide_True by done. unfold ret. simpl. do 2 f_equal. lia.
  - rewrite decide_False by done.
    erewrite bind_eq by (by apply get_next_eq).
    rewrite Hnx, hd_or_head. simpl in Hb.
    rewrite wrap_small by lia.
    rewrite IH by (done || lia).
    destruct (list_find _ l) as [[j b]|]; simpl; [|done].
    do 2 f_equal. lia.
Qed.

(** X13: [list_index_of] returns the position of the first occurrence
    of an element in a list satisfying the invariant, and
    [NO_SUCH_INDEX] when the element does not occur; the memory is not
    changed. *)
Theorem list_index_of_first m lp l e NSI :
  list_inv m lp l →
  list_index_of NSI (Some lp) e m
  = Some (match list_find (λ d, d = e) (contents m l) with
          | Some (i, _) => Z.of_nat i
          | None => NSI
          end, m).
Proof.
  intros Hinv. destruct (list_inv_walk _ _ _ Hinv) as [Hf Hlen].
  destruct Hinv as (HL & _ & _ & Hb). unfold list_index_of.
  erewrite bind_eq by (by apply get_head_eq). cbn [l_head].
  rewrite bounded_eq, (list_index_of_loop_spec NSI m e l) by (done || lia).
  rewrite list_find_contents.
  by destruct (list_find _ l) as [[j b]|].
Qed.

Lemma list_index_of_first_witness :
  let m := mem_of [10; 20; 30] in
  list_index_of (-1) (Some 1%positive) 30 m
  = Some (match list_find (λ d, d = 30) (contents m [1; 2; 3]%positive) with
          | Some (i, _) => Z.of_nat i
          | None => -1
          end, m).
Proof.
  apply (list_index_of_first (mem_of [10; 20; 30]) 1%positive
           [1; 2; 3]%positive 30 (-1)).
  exact mem_of_3_inv.
Defined.

Lemma list_contains_loop_spec m e l : ∀ fuel c,
  fseg (nodes m) l None → (length l ≤ fuel)%nat →
  0 ≤ c → c + Z.of_nat (length l) < SIZE_MOD →
  list_contains_loop fuel (head l) e c m
  = Some (c + Z.of_nat (length (filter (λ a, data_at (nodes m) a = e) l)), m).
Proof.
  induction l as [|a l IH]; intros fuel c Hf Hlen Hc Hb.
  { replace (c + Z.of_nat (length (filter _ []))) with c
      by (rewrite filter_nil; simpl; lia).
    by destruct fuel. }
  destruct fuel as [|fuel]; [simpl in Hlen; lia|].
  destruct Hf as [(n & Hn & Hnx) Hf]. simpl in Hlen, Hb.
  cbn [list_contains_loop head not_null negb].
  erewrite bind_eq by (by apply get_data_eq).
  erewrite bind_eq by (by apply get_next_eq).
  rewrite Hnx, hd_or_head.
  pose proof (length_filter (λ a, data_at (nodes m) a = e) l) as Hfl.
  rewrite filter_cons, (data_at_lookup _ _ _ Hn).
  destruct (Z.eqb_spec (n_data n) e) as [He|He].
  - rewrite decide_True by done. rewrite wrap_small by lia.
    rewrite IH by (done || lia). simpl. do 2 f_equal. lia.
  - rewrite decide_False by done. by rewrite IH by (done || lia).
Qed.

Lemma filter_contents_length m l e :
  length (filter (λ d, d = e) (contents m l))
  = length (filter (λ a, data_at (nodes m) a = e) l).
Proof.
  unfold contents. induction l as [|a l IH]; [done|].
  rewrite fmap_cons, !filter_cons.
  destruct (decide (data_at (nodes m) a = e)); simpl; by rewrite IH.
Qed.

(** X14: [list_contains] counts the occurrences of an element in a list
    satisfying the invariant; the memory is not changed. *)
Theorem list_contains_counts m lp l e :
  list_inv m lp l →
  list_contains (Some lp) e m
  = Some (Z.of_nat (length (filter (λ d, d = e) (contents m l))), m).
Proof.
  intros Hinv. destruct (list_inv_walk _ _ _ Hinv) as [Hf Hlen].
  destruct Hinv as (HL & _ & _ & Hb). unfold list_contains.
  erewrite bind_eq by (by apply get_head_eq). cbn [l_head].
  rewrite bounded_eq, (list_contains_loop_spec m e l) by (done || lia).
  by rewrite filter_contents_length.
Qed.

Lemma list_contains_counts_witness :
  let m := mem_of [10; 20; 10] in
  list_contains (Some 1%positive) 10 m
  = Some (Z.of_nat (length (filter (λ d, d = 10)
                              (contents m [1; 2; 3]%positive))), m).
Proof.
  apply (list_contains_counts (mem_of [10; 20; 10]) 1%positive
           [1; 2; 3]%positive 10).
  solve_inv.
Defined.

(** ** Clearing and destroying a list *)

Section clearing.

Variable free_data : Z → M unit.

Lemma unlink_all_loop_spec lp : ∀ l fuel m,
  list_inv m lp l → (length l ≤ fuel)%nat →
  ∃ m',
    unlink_all_loop free_data fuel (Some lp) (head l) false m = Some (tt, m')
    ∧ list_inv m' lp []
    ∧ avail m' = (avail m + length l)%nat
    ∧ (∀ c, c ∈ l → nodes m' !! c = None)
    ∧ (∀ c, c ∉ l → nodes m' !! c = nodes m !! c)
    ∧ (∀ q, q ≠ lp → lists m' !! q = lists m !! q).
Proof.
  induction l as [|a l IH]; intros fuel m Hinv Hlen.
  { exists m. split; [by destruct fuel|]. split; [done|].
    split; [simpl; lia|]. split; [set_solver|done]. }
  destruct fuel as [|fuel]; [simpl in Hlen; lia|]. simpl in Hlen.
  pose proof Hinv as (_ & Hnd & [(n & Hn & _ & Hnx) _] & _).
  apply NoDup_cons in Hnd as [Hal _].
  destruct (unlink_at m lp (a :: l) 0 a Hinv eq_refl)
    as (m1 & Hrun & Hinv1 & _ & Hav1 & Hfreed & Hfn1 & HfL1).
  simpl in Hinv1.
  destruct (IH fuel m1 Hinv1) as (m' & Hloop & Hinv' & Hav' & Hgone & Hfn & HfL);
    [lia|].
  exists m'. split; [|split; [done|split; [|split; [|split]]]].
  - cbn [unlink_all_loop head not_null negb].
    erewrite bind_eq by (by apply get_next_eq).
    rewrite bind_ret.
    erewrite bind_eq by exact Hrun.
    by rewrite Hnx, hd_or_head.
  - rewrite Hav', Hav1. simpl. lia.
  - intros c [->|Hc]%elem_of_cons; [|by apply Hgone].
    by rewrite Hfn.
  - intros c Hc. rewrite Hfn, Hfn1; [done|done|]. set_solver.
  - intros q Hq. by rewrite HfL, HfL1.
Qed.

Lemma unlink_all_spec m lp l :
  list_inv m lp l →
  ∃ m',
    unlink_all free_data (Some lp) false m
    = Some (if decide (l = []) then false else true, m')
    ∧ list_inv m' lp []
    ∧ avail m' = (avail m + length l)%nat
    ∧ (∀ c, c ∈ l → nodes m' !! c = None)
    ∧ (∀ c, c ∉ l → nodes m' !! c = nodes m !! c)
    ∧ (∀ q, q ≠ lp → lists m' !! q = lists m !! q)
    ∧ (l = [] → m' = m).
Proof.
  intros Hinv. pose proof Hinv as (HL & _). unfold unlink_all.
  erewrite bind_eq by (by apply get_size_eq). cbn [l_size].
  destruct l as [|a l'].
  - exists m. split; [done|]. split; [done|].
    split; [simpl; lia|]. split; [set_solver|done].
  - replace (Z.of_nat (length (a :: l')) <=? 0) with false
      by (symmetry; apply Z.leb_gt; simpl; lia).
    erewrite bind_eq by (by apply get_head_eq). cbn [l_head].
    destruct (list_inv_walk _ _ _ Hinv) as [_ Hlen].
    destruct (unlink_all_loop_spec lp (a :: l') _ m Hinv Hlen)
      as (m' & Hloop & Hinv' & Hrest).
    exists m'. split; [|split; [done|]].
    + unfold bounded at 1. by erewrite bind_eq by exact Hloop.
    + destruct Hrest as (? & ? & ? & ?). by repeat split.
Qed.

(** With such a [free], the loop of [unlink_all] runs the same way
    whether it frees the payloads or not. *)
Lemma unlink_all_loop_same lst :
  payload_free_kept free_data →
  ∀ fuel node m,
    unlink_all_loop free_data fuel lst node true m
    = unlink_all_loop free_data fuel lst node false m.
Proof.
  intros Hfree. induction fuel as [|fuel IH]; intros node m; [done|].
  cbn [unlink_all_loop]. destruct (negb (not_null node)); [done|].
  destruct (get_next node m) as [[tmp m1]|] eqn:E;
    [|by unfold bind; rewrite E].
  rewrite !(bind_eq _ _ _ _ _ E), bind_ret.
  assert (Hd : get_data node m1 = None ∨ ∃ d, get_data node m1 = Some (d, m1)).
  { unfold get_data, bind, load. destruct node as [a|]; [|by left].
    destruct (nodes m1 !! a); [right; eauto|by left]. }
  destruct Hd as [Hd|[d Hd]].
  - unfold unlink, bind. by rewrite Hd.
  - rewrite bind_assoc. erewrite bind_eq by exact Hd.
    erewrite bind_eq by apply Hfree.
    unfold bind. destruct (unlink lst node m1) as [[x m2]|]; [|done].
    apply IH.
Qed.

Lemma unlink_all_same lst m :
  payload_free_kept free_data →
  unlink_all free_data lst true m = unlink_all free_data lst false m.
Proof.
  intros Hfree. unfold unlink_all, bind.
  destruct (get_size lst m) as [[sz m1]|]; [|done].
  destruct (sz <=? 0); [done|].
  destruct (get_head lst m1) as [[node m2]|]; [|done].
  unfold bounded. by rewrite unlink_all_loop_same.
Qed.

(** X15: [list_remove_all] on a list satisfying the invariant unlinks and
    frees every node of the chain: it returns true and leaves the list
    empty, with its header zeroed, when the list had elements, and
    returns false and changes nothing when it was empty.  Nodes outside
    the chain and the other headers are not touched.
    [list_remove_all_free] does the same, provided that freeing a
    payload returns and leaves nodes, headers and allocator alone. *)
Theorem list_remove_all_empties m lp l :
  list_inv m lp l →
  ∃ m',
    list_remove_all free_data (Some lp) m
    = Some (if decide (l = []) then false else true, m')
    ∧ (payload_free_kept free_data →
       list_remove_all_free free_data (Some lp) m
       = Some (if decide (l = []) then false else true, m'))
    ∧ list_inv m' lp []
    ∧ elements m' lp = Some []
    ∧ avail m' = (avail m + length l)%nat
    ∧ (∀ c, c ∈ l → nodes m' !! c = None)
    ∧ (∀ c, c ∉ l → nodes m' !! c = nodes m !! c)
    ∧ (∀ q, q ≠ lp → lists m' !! q = lists m !! q)
    ∧ (l = [] → m' = m).
Proof.
  intros Hinv.
  destruct (unlink_all_spec m lp l Hinv) as (m' & Hrun & Hinv' & Hrest).
  exists m'. split; [exact Hrun|]. split.
  { intros Hfree. unfold list_remove_all_free.
    by rewrite (unlink_all_same _ _ Hfree). }
  split; [done|].
  split; [exact (list_inv_elements _ _ _ Hinv')|done].
Qed.

Lemma free_list_eq m lp Lh :
  lists m !! lp = Some Lh →
  free_list (Some lp) m
  = Some (tt, mkMem (nodes m) (delete lp (lists m)) (S (avail m))).
Proof. unfold free_list. by intros ->. Qed.

Lemma list_destroy_ok m lp l :
  list_inv m lp l →
  ∃ m',
    list_destroy free_data (Some lp) m = Some (true, m')
    ∧ lists m' !! lp = None
    ∧ avail m' = S (avail m + length l)
    ∧ (∀ c, c ∈ l → nodes m' !! c = None)
    ∧ (∀ c, c ∉ l → nodes m' !! c = nodes m !! c)
    ∧ (∀ q, q ≠ lp → lists m' !! q = lists m !! q).
Proof.
  intros Hinv. pose proof Hinv as (HL & _). unfold list_destroy.
  erewrite bind_eq by (by apply get_size_eq). cbn [l_size].
  destruct l as [|a l'].
  - eexists. split; [|split; [|split; [|split; [|split]]]].
    + simpl. rewrite bind_ret.
      erewrite bind_eq by (by eapply free_list_eq). done.
    + simpl. apply lookup_delete_eq.
    + simpl. lia.
    + set_solver.
    + done.
    + intros q Hq. simpl. by rewrite lookup_delete_ne.
  - replace (0 <? Z.of_nat (length (a :: l'))) with true
      by (symmetry; apply Z.ltb_lt; simpl; lia).
    destruct (unlink_all_spec m lp (a :: l') Hinv)
      as (m1 & Hrun & (HL1 & _) & Hav & Hgone & Hfn & HfL & _).
    eexists. split; [|split; [|split; [|split; [|split]]]].
    + unfold list_remove_all. erewrite bind_eq by exact Hrun.
      erewrite bind_eq by (by eapply free_list_eq). done.
    + simpl. apply lookup_delete_eq.
    + simpl. by rewrite Hav.
    + done.
    + done.
    + intros q Hq. simpl. rewrite lookup_delete_ne by done. by apply HfL.
Qed.

(** X16: [list_destroy] on a list satisfying the invariant returns true
    and frees every node of the chain and the header itself; nodes
    outside the chain and the other headers are not touched.
    [list_destroy_free] does the same, provided that freeing a payload
    returns and leaves nodes, headers and allocator alone. *)
Theorem list_destroy_frees m lp l :
  list_inv m lp l →
  ∃ m',
    list_destroy free_data (Some lp) m = Some (true, m')
    ∧ (payload_free_kept free_data →
       list_destroy_free free_data (Some lp) m = Some (true, m'))
    ∧ lists m' !! lp = None
    ∧ avail m' = S (avail m + length l)
    ∧ (∀ c, c ∈ l → nodes m' !! c = None)
    ∧ (∀ c, c ∉ l → nodes m' !! c = nodes m !! c)
    ∧ (∀ q, q ≠ lp → lists m' !! q = lists m !! q).
Proof.
  intros Hinv.
  destruct (list_destroy_ok m lp l Hinv) as (m' & Hrun & Hrest).
  exists m'. split; [exact Hrun|]. split; [|done].
  intros Hfree. unfold list_destroy_free, list_remove_all_free.
  rewrite <- Hrun. unfold list_destroy, list_remove_all, bind.
  destruct (get_size (Some lp) m) as [[sz m1]|]; [|done].
  destruct (0 <? sz); [|done].
  by rewrite (unlink_all_same _ _ Hfree).
Qed.

End clearing.

Lemma list_remove_all_empties_witness :
  let m := mem_of [10; 20; 30] in
  ∃ m',
    list_remove_all (λ _, ret tt) (Some 1%positive) m
    = Some (if decide ([1; 2; 3]%positive = []) then false else true, m')
    ∧ (payload_free_kept (λ _, ret tt) →
       list_remove_all_free (λ _, ret tt) (Some 1%positive) m
       = Some (if decide ([1; 2; 3]%positive = []) then false else true, m'))
    ∧ list_inv m' 1%positive []
    ∧ elements m' 1%positive = Some []
    ∧ avail m' = (avail m + length [1; 2; 3]%positive)%nat
    ∧ (∀ c, c ∈ [1; 2; 3]%positive → nodes m' !! c = None)
    ∧ (∀ c, c ∉ [1; 2; 3]%positive → nodes m' !! c = nodes m !! c)
    ∧ (∀ q, q ≠ 1%positive → lists m' !! q = lists m !! q)
    ∧ ([1; 2; 3]%positive = [] → m' = m).
Proof.
  apply (list_remove_all_empties (λ _, ret tt) (mem_of [10; 20; 30]) 1%positive
           [1; 2; 3]%positive).
  exact mem_of_3_inv.
Defined.

Lemma list_destroy_frees_witness :
  let m := mem_of [10; 20; 30] in
  ∃ m',
    list_destroy (λ _, ret tt) (Some 1%positive) m = Some (true, m')
    ∧ (payload_free_kept (λ _, ret tt) →
       list_destroy_free (λ _, ret tt) (Some 1%positive) m = Some (true, m'))
    ∧ lists m' !! 1%positive = None
    ∧ avail m' = S (avail m + length [1; 2; 3]%positive)
    ∧ (∀ c, c ∈ [1; 2; 3]%positive → nodes m' !! c = None)
    ∧ (∀ c, c ∉ [1; 2; 3]%positive → nodes m' !! c = nodes m !! c)
    ∧ (∀ q, q ≠ 1%positive → lists m' !! q = lists m !! q).
Proof.
  apply (list_destroy_frees (λ _, ret tt) (mem_of [10; 20; 30]) 1%positive
           [1; 2; 3]%positive).
  exact mem_of_3_inv.
Defined.

(** ** Copies *)

Lemma calloc_node_exhausted m : avail m = 0%nat → calloc_node m = Some (None, m).
Proof. unfold calloc_node. by intros ->. Qed.

Lemma list_add_last_exhausted m p x :
  avail m = 0%nat → list_add_last p x m = Some (false, m).
Proof.
  intros Hav. unfold list_add_last.
  by erewrite bind_eq by (by apply calloc_node_exhausted).
Qed.

(** One round of a copy loop: read the payload of the source node [a],
    append [f] of it to the list under construction, and step to the
    next source node.  [m0] is the memory in which the loop was
    entered, [skip] the part of the source chain before the node the
    loop started at, [pre] the part already visited. *)
Lemma copy_step m0 lp l lp2 (f : Z → Z) m skip pre a rest l2 :
  list_inv m0 lp l → l = skip ++ pre ++ a :: rest →
  (∀ c, is_Some (nodes m0 !! c) → nodes m !! c = nodes m0 !! c) →
  (∀ q, q ≠ lp2 → lists m !! q = lists m0 !! q) →
  list_inv m lp2 l2 →
  (∀ c, c ∈ l2 → nodes m0 !! c = None) →
  contents m l2 = take (avail m0) (f <$> contents m0 pre) →
  avail m = (avail m0 - length pre)%nat →
  ∃ m1 l2',
    (∀ A (K : ptr → M A),
       (d <- get_data (Some a) ;;
        list_add (Some lp2) (f d) ;;;
        nx <- get_next (Some a) ;;
        K nx) m
       = K (head rest) m1)
    ∧ (∀ c, is_Some (nodes m0 !! c) → nodes m1 !! c = nodes m0 !! c)
    ∧ (∀ q, q ≠ lp2 → lists m1 !! q = lists m0 !! q)
    ∧ list_inv m1 lp2 l2'
    ∧ (∀ c, c ∈ l2' → nodes m0 !! c = None)
    ∧ contents m1 l2' = take (avail m0) (f <$> contents m0 (pre ++ [a]))
    ∧ avail m1 = (avail m0 - length (pre ++ [a]))%nat.
Proof.
  intros Hinv0 Hl Hfn HfL Hinv2 Hnew Hc Hav.
  pose proof Hinv0 as (_ & _ & Hd0 & Hb0). rewrite Hl in Hd0, Hb0.
  apply dseg_app in Hd0 as [_ Hd0].
  apply dseg_app in Hd0 as [_ [(n & Hn0 & _ & Hnx) _]].
  rewrite hd_or_head in Hnx.
  assert (Hn : nodes m !! a = Some n) by (rewrite Hfn; eauto).
  assert (Hlen2 : (length l2 ≤ length pre)%nat).
  { rewrite <- (length_fmap (data_at (nodes m)) l2).
    fold (contents m l2). rewrite Hc, length_take.
    unfold contents. rewrite !length_fmap. lia. }
  rewrite !length_app in Hb0. simpl in Hb0.
  unfold contents in *. rewrite !fmap_app, length_app. simpl.
  rewrite (data_at_lookup _ _ _ Hn0).
  destruct (avail m) as [|k] eqn:Hk.
  - exists m, l2. split; [|split; [done|split; [done|split; [done|split; [done|split]]]]].
    + intros A K. erewrite bind_eq by (by apply get_data_eq).
      unfold list_add.
      erewrite bind_eq by (by apply list_add_last_exhausted).
      by erewrite bind_eq by (by apply get_next_eq); rewrite Hnx.
    + rewrite Hc, take_app_le; [done|]. rewrite !length_fmap. lia.
    + lia.
  - destruct (list_add_last_ok m lp2 l2 (f (n_data n)) Hinv2)
      as (m1 & Hrun & Hfresh & Hinv1 & Hc1 & Hav1 & HfL1 & Hfn1); [lia..|].
    set (a' := fresh (dom (nodes m))) in *.
    assert (Ha' : nodes m0 !! a' = None).
    { destruct (nodes m0 !! a') as [x|] eqn:Hx; [|done].
      exfalso. apply (is_fresh (dom (nodes m))). apply elem_of_dom.
      rewrite Hfn by eauto. eauto. }
    assert (Hfn' : ∀ c, is_Some (nodes m0 !! c) → nodes m1 !! c = nodes m0 !! c).
    { intros c Hc0. rewrite Hfn1; [by apply Hfn| |].
      - intros Hin. apply Hnew in Hin. rewrite Hin in Hc0. by destruct Hc0.
      - intros ->. rewrite Ha' in Hc0. by destruct Hc0. }
    exists m1, (l2 ++ [a']).
    split; [|split; [done|split; [|split; [done|split; [|split]]]]].
    + intros A K. erewrite bind_eq by (by apply get_data_eq).
      unfold list_add. erewrite bind_eq by exact Hrun.
      erewrite bind_eq by (apply get_next_eq; rewrite Hfn'; eauto).
      by rewrite Hnx.
    + intros q Hq. by rewrite HfL1, HfL.
    + intros c [Hin| ->%list_elem_of_singleton]%elem_of_app; [by apply Hnew|done].
    + unfold contents in Hc1. rewrite Hc1, Hc.
      rewrite !take_ge by (rewrite ?length_app, !length_fmap; simpl; lia).
      done.
    + rewrite Hav1, Hk. simpl. lia.
Qed.

Lemma copy_deep_loop_spec m0 lp l lp2 (f : Z → Z) : ∀ rest fuel m pre l2,
  list_inv m0 lp l → l = pre ++ rest → (length rest ≤ fuel)%nat →
  (∀ c, is_Some (nodes m0 !! c) → nodes m !! c = nodes m0 !! c) →
  (∀ q, q ≠ lp2 → lists m !! q = lists m0 !! q) →
  list_inv m lp2 l2 →
  (∀ c, c ∈ l2 → nodes m0 !! c = None) →
  contents m l2 = take (avail m0) (f <$> contents m0 pre) →
  avail m = (avail m0 - length pre)%nat →
  ∃ m' l2',
    copy_deep_loop f fuel (Some lp2) (head rest) m = Some (tt, m')
    ∧ (∀ c, is_Some (nodes m0 !! c) → nodes m' !! c = nodes m0 !! c)
    ∧ (∀ q, q ≠ lp2 → lists m' !! q = lists m0 !! q)
    ∧ list_inv m' lp2 l2'
    ∧ (∀ c, c ∈ l2' → nodes m0 !! c = None)
    ∧ contents m' l2' = take (avail m0) (f <$> contents m0 l)
    ∧ avail m' = (avail m0 - length l)%nat.
Proof.
  induction rest as [|a rest IH];
    intros fuel m pre l2 Hinv0 Hl Hlen Hfn HfL Hinv2 Hnew Hc Hav.
  { rewrite app_nil_r in Hl. subst pre. exists m, l2.
    split; [by destruct fuel|done]. }
  destruct fuel as [|fuel]; [simpl in Hlen; lia|]. simpl in Hlen.
  destruct (copy_step m0 lp l lp2 f m [] pre a rest l2 Hinv0 Hl Hfn HfL Hinv2
              Hnew Hc Hav)
    as (m1 & l2' & Hstep & Hfn1 & HfL1 & Hinv1 & Hnew1 & Hc1 & Hav1).
  destruct (IH fuel m1 (pre ++ [a]) l2' Hinv0) as (m' & l2'' & Hrun & Hrest);
    [by rewrite <- app_assoc|lia|done..|].
  exists m', l2''. split; [|done].
  cbn [copy_deep_loop head not_null negb].
  by rewrite (Hstep _ (λ nx, copy_deep_loop f fuel (Some lp2) nx)).
Qed.

Lemma copy_shallow_deep fuel : ∀ copy node m,
  copy_shallow_loop fuel copy node m = copy_deep_loop id fuel copy node m.
Proof.
  induction fuel as [|fuel IH]; intros copy node m; [done|].
  cbn [copy_shallow_loop copy_deep_loop].
  destruct (negb (not_null node)); [done|].
  unfold bind. destruct (get_data node m) as [[d m1]|]; [|done].
  unfold id. destruct (list_add copy d m1) as [[r m2]|]; [|done].
  destruct (get_next node m2) as [[nx m3]|]; [|done]. apply IH.
Qed.

Lemma sublist_loop_spec m0 lp l lp2 skip : ∀ n rest m pre l2,
  list_inv m0 lp l → l = skip ++ pre ++ rest → (n ≤ length rest)%nat →
  (∀ c, is_Some (nodes m0 !! c) → nodes m !! c = nodes m0 !! c) →
  (∀ q, q ≠ lp2 → lists m !! q = lists m0 !! q) →
  list_inv m lp2 l2 →
  (∀ c, c ∈ l2 → nodes m0 !! c = None) →
  contents m l2 = take (avail m0) (id <$> contents m0 pre) →
  avail m = (avail m0 - length pre)%nat →
  ∃ m' l2',
    sublist_loop n (Some lp2) (head rest) m = Some (tt, m')
    ∧ (∀ c, is_Some (nodes m0 !! c) → nodes m' !! c = nodes m0 !! c)
    ∧ (∀ q, q ≠ lp2 → lists m' !! q = lists m0 !! q)
    ∧ list_inv m' lp2 l2'
    ∧ (∀ c, c ∈ l2' → nodes m0 !! c = None)
    ∧ contents m' l2'
      = take (avail m0) (id <$> contents m0 (pre ++ take n rest))
    ∧ avail m' = (avail m0 - length (pre ++ take n rest))%nat.
Proof.
  induction n as [|n IH];
    intros rest m pre l2 Hinv0 Hl Hlen Hfn HfL Hinv2 Hnew Hc Hav.
  { rewrite take_0, app_nil_r. exists m, l2. done. }
  destruct rest as [|a rest]; [simpl in Hlen; lia|]. simpl in Hlen.
  destruct (copy_step m0 lp l lp2 id m skip pre a rest l2 Hinv0 Hl Hfn HfL
              Hinv2 Hnew Hc Hav)
    as (m1 & l2' & Hstep & Hfn1 & HfL1 & Hinv1 & Hnew1 & Hc1 & Hav1).
  destruct (IH rest m1 (pre ++ [a]) l2' Hinv0) as (m' & l2'' & Hrun & Hrest);
    [by rewrite <- (app_assoc pre)|lia|done..|].
  exists m', l2''. split.
  - cbn [sublist_loop head].
    etrans; [exact (Hstep _ (λ nx, sublist_loop n (Some lp2) nx))|exact Hrun].
  - rewrite firstn_cons, (cons_middle a pre), app_assoc. exact Hrest.
Qed.

Lemma calloc_list_eq h L k :
  calloc_list (mkMem h L (S k))
  = Some (Some (fresh (dom L)),
          mkMem h (<[fresh (dom L) := mkList 0 None None]> L) k).
Proof. done. Qed.

(** The state in which a copy loop is entered: a new, empty list has
    been allocated, and the source list is as it was. *)
Lemma list_new_spec m lp l :
  list_inv m lp l → (0 < avail m)%nat →
  let lp' := fresh (dom (lists m)) in
  ∃ m0,
    list_new m = Some (Some lp', m0)
    ∧ lists m !! lp' = None ∧ lp ≠ lp'
    ∧ nodes m0 = nodes m
    ∧ avail m0 = (avail m - 1)%nat
    ∧ (∀ q, q ≠ lp' → lists m0 !! q = lists m !! q)
    ∧ list_inv m0 lp l ∧ contents m0 l = contents m l
    ∧ list_inv m0 lp' [].
Proof.
  intros Hinv Hav lp'. destruct m as [h L [|k]]; [simpl in Hav; lia|].
  simpl in lp'.
  assert (Hnone : L !! lp' = None).
  { apply not_elem_of_dom. apply is_fresh. }
  assert (Hne : lp ≠ lp').
  { intros ->. destruct Hinv as (HL & _). simpl in HL. congruence. }
  eexists. split; [apply calloc_list_eq|]. fold lp'.
  split; [done|]. split; [done|]. split; [done|].
  split; [simpl; lia|]. split.
  { intros q Hq. simpl. by rewrite lookup_insert_ne. }
  split; [|split].
  - apply (list_inv_frame _ _ _ _ Hinv); [|done].
    simpl. by rewrite lookup_insert_ne.
  - done.
  - split; [simpl; by rewrite lookup_insert_eq|].
    split; [apply NoDup_nil_2|]. split; [done|]. by vm_compute.
Qed.

Lemma list_copy_deep_ok m lp l cp :
  list_inv m lp l → (0 < avail m)%nat →
  ∃ lp' l' m',
    list_copy_deep (Some lp) cp m = Some (Some lp', m')
    ∧ lists m !! lp' = None
    ∧ list_inv m' lp' l'
    ∧ contents m' l' = take (avail m - 1) (cp <$> contents m l)
    ∧ (∀ c, c ∈ l' → nodes m !! c = None)
    ∧ (∀ c, is_Some (nodes m !! c) → nodes m' !! c = nodes m !! c)
    ∧ (∀ q, q ≠ lp' → lists m' !! q = lists m !! q)
    ∧ avail m' = (avail m - 1 - length l)%nat.
Proof.
  intros Hinv Hav.
  destruct (list_new_spec m lp l Hinv Hav)
    as (m0 & Hnew & Hnone & Hne & Hn0 & Hav0 & HfL0 & Hinv0 & Hc0 & Hinv00).
  set (lp' := fresh (dom (lists m))) in *.
  destruct (list_inv_walk _ _ _ Hinv0) as [_ Hlen].
  destruct (copy_deep_loop_spec m0 lp l lp' cp l (S (size (nodes m0))) m0 [] []
              Hinv0 eq_refl Hlen)
    as (m' & l' & Hrun & Hfn & HfL & Hinv' & Hnew' & Hc & Hav'); try done.
  { set_solver. }
  { unfold contents. simpl. by rewrite take_nil. }
  { simpl. lia. }
  exists lp', l', m'. split; [|split; [done|split; [done|split; [|split; [|split; [|split]]]]]].
  - unfold list_copy_deep. erewrite bind_eq by exact Hnew.
    pose proof Hinv0 as (HL0 & _).
    erewrite bind_eq by (by apply get_head_eq). cbn [l_head].
    by erewrite bind_eq by (rewrite bounded_eq; exact Hrun).
  - by rewrite Hc, Hav0, Hc0.
  - intros c Hc'. rewrite <- Hn0. by apply Hnew'.
  - intros c Hc'. rewrite <- Hn0 in *. by apply Hfn.
  - intros q Hq. by rewrite HfL, HfL0.
  - rewrite Hav', Hav0. done.
Qed.

(** X17: [list_copy_deep] on a list satisfying the invariant, when the
    allocator can provide the new header: the call returns a new list,
    built from new nodes, that satisfies the invariant and holds [cp]
    of each element of the source, in order, for as many elements as
    the allocator provides nodes (all of them when it can provide one
    per element; the copy is cut short otherwise, as the result of
    [list_add] is not looked at).  The source list, every node
    allocated before the call and every other header are unchanged. *)
Theorem list_copy_deep_copies m lp l cp :
  list_inv m lp l → (0 < avail m)%nat →
  ∃ lp' l' m',
    list_copy_deep (Some lp) cp m = Some (Some lp', m')
    ∧ lists m !! lp' = None
    ∧ list_inv m' lp' l'
    ∧ elements m' lp' = Some (take (avail m - 1) (cp <$> contents m l))
    ∧ (∀ c, c ∈ l' → nodes m !! c = None)
    ∧ list_inv m' lp l
    ∧ elements m' lp = elements m lp
    ∧ (∀ c, is_Some (nodes m !! c) → nodes m' !! c = nodes m !! c)
    ∧ (∀ q, q ≠ lp' → lists m' !! q = lists m !! q).
Proof.
  intros Hinv Hav.
  destruct (list_copy_deep_ok m lp l cp Hinv Hav)
    as (lp' & l' & m' & Hrun & Hnone & Hinv' & Hc & Hnew & Hfn & HfL & _).
  assert (Hne : lp ≠ lp').
  { intros ->. destruct Hinv as (HL & _). congruence. }
  destruct (list_inv_frame m m' lp l Hinv) as [Hinv1 Hc1].
  { by apply HfL. }
  { intros c Hc'. apply Hfn. by eapply list_inv_alloc. }
  exists lp', l', m'. split; [done|]. split; [done|]. split; [done|].
  split; [by rewrite (list_inv_elements _ _ _ Hinv'), Hc|].
  split; [done|]. split; [done|]. split; [|done].
  by rewrite (list_inv_elements _ _ _ Hinv1), (list_inv_elements _ _ _ Hinv), Hc1.
Qed.

Lemma list_copy_deep_copies_witness :
  let m := mem_of [10; 20; 30] in
  ∃ lp' l' m',
    list_copy_deep (Some 1%positive) (λ d, d + 1) m = Some (Some lp', m')
    ∧ lists m !! lp' = None
    ∧ list_inv m' lp' l'
    ∧ elements m' lp'
      = Some (take (avail m - 1)
                ((λ d, d + 1) <$> contents m [1; 2; 3]%positive))
    ∧ (∀ c, c ∈ l' → nodes m !! c = None)
    ∧ list_inv m' 1%positive [1; 2; 3]%positive
    ∧ elements m' 1%positive = elements m 1%positive
    ∧ (∀ c, is_Some (nodes m !! c) → nodes m' !! c = nodes m !! c)
    ∧ (∀ q, q ≠ lp' → lists m' !! q = lists m !! q).
Proof.
  apply (list_copy_deep_copies (mem_of [10; 20; 30]) 1%positive
           [1; 2; 3]%positive (λ d, d + 1)).
  - exact mem_of_3_inv.
  - vm_compute. lia.
Defined.

Lemma list_copy_shallow_deep lst m :
  list_copy_shallow lst m = list_copy_deep lst id m.
Proof.
  unfold list_copy_shallow, list_copy_deep, bind.
  destruct (list_new m) as [[copy m1]|]; [|done].
  destruct (get_head lst m1) as [[node m2]|]; [|done].
  unfold bounded. by rewrite copy_shallow_deep.
Qed.

(** X18: [list_copy_shallow] on a list satisfying the invariant, when the
    allocator can provide the new header: the call returns a new list,
    built from new nodes, that satisfies the invariant and holds the
    elements of the source in order, for as many elements as the
    allocator provides nodes (all of them when it can provide one per
    element).  The source list, every node allocated before the call
    and every other header are unchanged. *)
Theorem list_copy_shallow_copies m lp l :
  list_inv m lp l → (0 < avail m)%nat →
  ∃ lp' l' m',
    list_copy_shallow (Some lp) m = Some (Some lp', m')
    ∧ lists m !! lp' = None
    ∧ list_inv m' lp' l'
    ∧ elements m' lp' = Some (take (avail m - 1) (contents m l))
    ∧ ((length l < avail m)%nat → elements m' lp' = elements m lp)
    ∧ (∀ c, c ∈ l' → nodes m !! c = None)
    ∧ list_inv m' lp l
    ∧ elements m' lp = elements m lp
    ∧ (∀ c, is_Some (nodes m !! c) → nodes m' !! c = nodes m !! c)
    ∧ (∀ q, q ≠ lp' → lists m' !! q = lists m !! q).
Proof.
  intros Hinv Hav.
  destruct (list_copy_deep_ok m lp l id Hinv Hav)
    as (lp' & l' & m' & Hrun & Hnone & Hinv' & Hc & Hnew & Hfn & HfL & _).
  rewrite list_fmap_id in Hc.
  assert (Hne : lp ≠ lp').
  { intros ->. destruct Hinv as (HL & _). congruence. }
  destruct (list_inv_frame m m' lp l Hinv) as [Hinv1 Hc1].
  { by apply HfL. }
  { intros c Hc'. apply Hfn. by eapply list_inv_alloc. }
  exists lp', l', m'. split; [by rewrite list_copy_shallow_deep|].
  split; [done|]. split; [done|].
  split; [by rewrite (list_inv_elements _ _ _ Hinv'), Hc|]. split.
  { intros Hlt.
    rewrite (list_inv_elements _ _ _ Hinv'), (list_inv_elements _ _ _ Hinv), Hc.
    rewrite take_ge; [done|]. unfold contents. rewrite length_fmap. lia. }
  split; [done|]. split; [done|]. split; [|done].
  by rewrite (list_inv_elements _ _ _ Hinv1), (list_inv_elements _ _ _ Hinv), Hc1.
Qed.

Lemma list_copy_shallow_copies_witness :
  let m := mem_of [10; 20; 30] in
  ∃ lp' l' m',
    list_copy_shallow (Some 1%positive) m = Some (Some lp', m')
    ∧ lists m !! lp' = None
    ∧ list_inv m' lp' l'
    ∧ elements m' lp'
      = Some (take (avail m - 1) (contents m [1; 2; 3]%positive))
    ∧ ((length [1; 2; 3]%positive < avail m)%nat →
       elements m' lp' = elements m 1%positive)
    ∧ (∀ c, c ∈ l' → nodes m !! c = None)
    ∧ list_inv m' 1%positive [1; 2; 3]%positive
    ∧ elements m' 1%positive = elements m 1%positive
    ∧ (∀ c, is_Some (nodes m !! c) → nodes m' !! c = nodes m !! c)
    ∧ (∀ q, q ≠ lp' → lists m' !! q = lists m !! q).
Proof.
  apply (list_copy_shallow_copies (mem_of [10; 20; 30]) 1%positive
           [1; 2; 3]%positive).
  - exact mem_of_3_inv.
  - vm_compute. lia.
Defined.

(** X19: [list_sublist] on a list satisfying the invariant.  For indices
    [b ≤ e] below the count, when the allocator can provide the new
    header, the call returns a new list, built from new nodes, that
    satisfies the invariant and holds the elements at positions [b]
    to [e] of the source, in order, for as many of them as the
    allocator provides nodes (all of them when it can provide one per
    element); the source list, every node allocated before the call
    and every other header are unchanged.  For [b > e], or [e] not
    below the count, it returns [NULL] and changes nothing. *)
Theorem list_sublist_range m lp l b e :
  list_inv m lp l → 0 ≤ b → 0 ≤ e →
  (b ≤ e < Z.of_nat (length l) → (0 < avail m)%nat →
   ∃ lp' l' m',
     list_sublist (Some lp) b e m = Some (Some lp', m')
     ∧ lists m !! lp' = None
     ∧ list_inv m' lp' l'
     ∧ elements m' lp'
       = Some (take (avail m - 1)
                 (take (Z.to_nat (e - b + 1)) (drop (Z.to_nat b) (contents m l))))
     ∧ (∀ c, c ∈ l' → nodes m !! c = None)
     ∧ list_inv m' lp l
     ∧ elements m' lp = elements m lp
     ∧ (∀ c, is_Some (nodes m !! c) → nodes m' !! c = nodes m !! c)
     ∧ (∀ q, q ≠ lp' → lists m' !! q = lists m !! q))
  ∧ (e < b ∨ Z.of_nat (length l) ≤ e →
     list_sublist (Some lp) b e m = Some (None, m)).
Proof.
  intros Hinv Hb He. pose proof Hinv as (HL & _). split.
  - intros Hr Hav.
    destruct (list_new_spec m lp l Hinv Hav)
      as (m0 & Hnew & Hnone & Hne & Hn0 & Hav0 & HfL0 & Hinv0 & Hc0 & Hinv00).
    set (lp' := fresh (dom (lists m))) in *.
    set (nb := Z.to_nat b). set (n := Z.to_nat (e - b + 1)).
    assert (Hl : l = take nb l ++ [] ++ drop nb l)
      by (by simpl; rewrite take_drop).
    destruct (sublist_loop_spec m0 lp l lp' (take nb l) n (drop nb l) m0 [] []
                Hinv0 Hl)
      as (m' & l' & Hrun & Hfn & HfL & Hinv' & Hnew' & Hc & Hav'); try done.
    { rewrite length_drop. lia. }
    { set_solver. }
    { unfold contents. simpl. by rewrite take_nil. }
    { simpl. lia. }
    assert (Hinv1 : list_inv m' lp l ∧ contents m' l = contents m0 l).
    { apply (list_inv_frame m0 m' lp l Hinv0); [by apply HfL|].
      intros c Hc'. apply Hfn. exact (list_inv_alloc _ _ _ _ Hinv0 Hc'). }
    destruct Hinv1 as [Hinv1 Hc1].
    exists lp', l', m'.
    split; [|split; [done|split; [done|split; [|split; [|split; [done|split; [|split]]]]]]].
    + unfold list_sublist.
      erewrite bind_eq by (by apply get_size_eq). cbn [l_size].
      replace (b >? e) with false by (symmetry; rewrite Z.gtb_ltb; apply Z.ltb_ge; lia).
      replace (b <? 0) with false by (symmetry; apply Z.ltb_ge; lia).
      replace (e >=? Z.of_nat (length l)) with false
        by (symmetry; rewrite Z.geb_leb; apply Z.leb_gt; lia).
      cbn [orb]. erewrite bind_eq by exact Hnew.
      erewrite bind_eq by (by apply get_node_at_spec).
      fold nb. replace (l !! nb) with (head (drop nb l))
        by (by rewrite head_lookup, lookup_drop, Nat.add_0_r).
      by erewrite bind_eq by exact Hrun.
    + rewrite (list_inv_elements _ _ _ Hinv'), Hc. simpl.
      rewrite list_fmap_id, Hav0. unfold contents.
      by rewrite Hn0, fmap_take, fmap_drop.
    + intros c Hc'. rewrite <- Hn0. by apply Hnew'.
    + rewrite (list_inv_elements _ _ _ Hinv1), (list_inv_elements _ _ _ Hinv).
      by rewrite Hc1, Hc0.
    + intros c Hc'. rewrite <- Hn0 in *. by apply Hfn.
    + intros q Hq. by rewrite HfL, HfL0.
  - intros Hr. unfold list_sublist.
    erewrite bind_eq by (by apply get_size_eq). cbn [l_size].
    destruct Hr as [Hr|Hr].
    + by replace (b >? e) with true by (symmetry; rewrite Z.gtb_ltb; apply Z.ltb_lt; lia).
    + replace (e >=? Z.of_nat (length l)) with true
        by (symmetry; rewrite Z.geb_leb; apply Z.leb_le; lia).
      by rewrite !orb_true_r.
Qed.

Lemma list_sublist_range_witness :
  let m := mem_of [10; 20; 30] in
  (1 ≤ 2 < Z.of_nat (length [1; 2; 3]%positive) → (0 < avail m)%nat →
   ∃ lp' l' m',
     list_sublist (Some 1%positive) 1 2 m = Some (Some lp', m')
     ∧ lists m !! lp' = None
     ∧ list_inv m' lp' l'
     ∧ elements m' lp'
       = Some (take (avail m - 1)
                 (take (Z.to_nat (2 - 1 + 1))
                    (drop (Z.to_nat 1) (contents m [1; 2; 3]%positive))))
     ∧ (∀ c, c ∈ l' → nodes m !! c = None)
     ∧ list_inv m' 1%positive [1; 2; 3]%positive
     ∧ elements m' 1%positive = elements m 1%positive
     ∧ (∀ c, is_Some (nodes m !! c) → nodes m' !! c = nodes m !! c)
     ∧ (∀ q, q ≠ lp' → lists m' !! q = lists m !! q))
  ∧ (2 < 1 ∨ Z.of_nat (length [1; 2; 3]%positive) ≤ 2 →
     list_sublist (Some 1%positive) 1 2 m = Some (None, m)).
Proof.
  apply (list_sublist_range (mem_of [10; 20; 30]) 1%positive
           [1; 2; 3]%positive 1 2).
  - exact mem_of_3_inv.
  - lia.
  - lia.
Defined.

(** ** Bulk insertion of copies *)

Lemma free_chain_spec : ∀ nw m,
  fseg (nodes m) nw None → NoDup nw →
  ∃ m',
    free_chain (length nw) (head nw) m = Some (tt, m')
    ∧ lists m' = lists m
    ∧ avail m' = (avail m + length nw)%nat
    ∧ (∀ c, c ∈ nw → nodes m' !! c = None)
    ∧ (∀ c, c ∉ nw → nodes m' !! c = nodes m !! c).
Proof.
  induction nw as [|a nw IH]; intros m Hf Hnd.
  { exists m. split; [done|]. split; [done|]. split; [simpl; lia|].
    split; [set_solver|done]. }
  destruct Hf as [(n & Hn & Hnx) Hf]. apply NoDup_cons in Hnd as [Ha Hnd].
  rewrite hd_or_head in Hnx.
  set (m1 := mkMem (delete a (nodes m)) (lists m) (S (avail m))).
  destruct (IH m1) as (m' & Hrun & HL & Hav & Hgone & Hfr); [|done|].
  { eapply fseg_frame; [|exact Hf]. intros c Hc. simpl.
    apply lookup_delete_ne. intros ->. done. }
  exists m'. split; [|split; [done|split; [|split]]].
  - cbn [free_chain length head not_null].
    erewrite bind_eq by (by apply get_next_eq).
    erewrite bind_eq by (by eapply free_node_eq).
    by rewrite Hnx.
  - rewrite Hav. simpl. lia.
  - intros c [->|Hc]%elem_of_cons; [|by apply Hgone].
    rewrite Hfr by done. simpl. apply lookup_delete_eq.
  - intros c Hc. apply not_elem_of_cons in Hc as [Hca Hc].
    rewrite Hfr by done. simpl. by apply lookup_delete_ne.
Qed.

(** Appending a fresh node to the chain under construction. *)
Lemma chain_snoc h L k nw z a d :
  NoDup ((nw ++ [z]) ++ [a]) →
  dseg h None (nw ++ [z]) None →
  h !! a = Some (mkNode d None None) →
  ∃ h',
    (set_next (Some z) (Some a) ;;; set_prev (Some a) (Some z))
      (mkMem h L k) = Some (tt, mkMem h' L k)
    ∧ dseg h' None ((nw ++ [z]) ++ [a]) None
    ∧ data_at h' a = d
    ∧ (∀ c, c ∈ nw ++ [z] → data_at h' c = data_at h c)
    ∧ (∀ c, c ∉ nw ++ [z] → c ≠ a → h' !! c = h !! c).
Proof.
  intros Hnd Hd Ha. nd_facts Hnd. seg_destruct Hd.
  eexists. split; [|split; [|split; [|split]]].
  - mrun. reflexivity.
  - seg_solve.
  - unfold data_at. by rewrite lookup_insert_eq.
  - intros c Hc. assert (c ≠ a) by (intros ->; set_solver). unfold data_at.
    rewrite lookup_insert_ne by done.
    destruct (decide (c = z)) as [->|]; [|by rewrite !lookup_insert_ne].
    rewrite lookup_insert_eq.
    by match goal with H : h !! z = Some _ |- _ => rewrite H end.
  - intros c Hc Hca. rewrite !lookup_insert_ne; [done| |done].
    intros ->. apply Hc. set_solver.
Qed.

(** The copy loop of [list_add_all_at].  [m0] is the memory in which it
    is entered, [pre] the part of the donor chain already copied and
    [nw] the chain of new nodes built so far.  When the allocator can
    provide a node for each remaining element the loop returns the ends
    of a chain of new nodes holding the donor's payloads; otherwise it
    frees what it built and the memory is again [m0]. *)
Lemma add_all_copy_spec m0 lp2 l2 : ∀ rest pre nw m,
  list_inv m0 lp2 l2 → l2 = pre ++ rest →
  (∀ c, is_Some (nodes m0 !! c) → nodes m !! c = nodes m0 !! c) →
  (∀ c, nodes m0 !! c = None → c ∉ nw → nodes m !! c = None) →
  lists m = lists m0 →
  dseg (nodes m) None nw None → NoDup nw →
  (∀ c, c ∈ nw → nodes m0 !! c = None) →
  data_at (nodes m) <$> nw = contents m0 pre →
  (avail m + length nw = avail m0)%nat →
  ∃ r m',
    add_all_copy (length rest) (length nw) (head rest) (head nw) (last nw) m
    = Some (r, m')
    ∧ if decide (length rest ≤ avail m)%nat then
        ∃ nw', r = Some (head nw', last nw')
          ∧ (∀ c, is_Some (nodes m0 !! c) → nodes m' !! c = nodes m0 !! c)
          ∧ lists m' = lists m0
          ∧ dseg (nodes m') None nw' None ∧ NoDup nw'
          ∧ (∀ c, c ∈ nw' → nodes m0 !! c = None)
          ∧ data_at (nodes m') <$> nw' = contents m0 l2
          ∧ (avail m' + length nw' = avail m0)%nat
      else r = None ∧ m' = m0.
Proof.
  induction rest as [|a rest IH];
    intros pre nw m Hinv0 Hl Hold Hnone HL Hd Hnd Hnew Hdat Hav.
  { rewrite app_nil_r in Hl. subst pre. eexists _, m. split; [done|].
    rewrite decide_True by (simpl; lia). exists nw. done. }
  pose proof Hinv0 as (_ & _ & Hd0 & _). rewrite Hl in Hd0.
  apply dseg_app in Hd0 as [_ [(n & Hn0 & _ & Hnx) _]].
  rewrite hd_or_head in Hnx.
  assert (Hn : nodes m !! a = Some n) by (rewrite Hold; eauto).
  destruct m as [h L [|k]]; simpl in Hold, Hnone, HL, Hd, Hdat, Hav, Hn.
  - (* the allocator is exhausted *)
    destruct (free_chain_spec nw (mkMem h L 0)) as (m' & Hrun & HL' & Hav' & Hgone & Hfr);
      [by eapply dseg_fseg|done|].
    exists None, m'. split.
    + cbn [add_all_copy length].
      erewrite bind_eq by (by apply calloc_node_exhausted).
      cbn [not_null negb]. by erewrite bind_eq by exact Hrun.
    + rewrite decide_False by (simpl; lia). split; [done|].
      destruct m' as [h' L' k'], m0 as [h0 L0 k0]. simpl in *.
      f_equal; [|congruence|lia].
      apply map_eq. intros c.
      destruct (decide (c ∈ nw)) as [Hin|Hin].
      * by rewrite Hgone, Hnew.
      * rewrite Hfr by done.
        destruct (h0 !! c) as [x|] eqn:Hx; [rewrite Hold; eauto|by apply Hnone].
  - (* a node is allocated and linked after the chain built so far *)
    set (a' := fresh (dom h)).
    assert (Hfresh : h !! a' = None).
    { apply not_elem_of_dom. apply is_fresh. }
    assert (Ha'nw : a' ∉ nw) by (by eapply fresh_node_unused).
    assert (Ha'0 : nodes m0 !! a' = None).
    { destruct (nodes m0 !! a') as [x|] eqn:Hx; [|done].
      rewrite <- Hold in Hx by eauto. congruence. }
    assert (Haa' : a ≠ a') by (intros ->; congruence).
    assert (Hnd' : NoDup (nw ++ [a'])).
    { rewrite NoDup_app. split; [done|].
      split; [set_solver|apply NoDup_singleton]. }
    set (h2 := <[a' := mkNode (n_data n) None None]>
                 (<[a' := mkNode 0 None None]> h)).
    assert (Hd2 : dseg h2 None nw None).
    { eapply dseg_frame; [|exact Hd]. intros c Hc. unfold h2.
      rewrite !lookup_insert_ne by (intros ->; done). done. }
    assert (Ha2 : h2 !! a' = Some (mkNode (n_data n) None None)).
    { unfold h2. by rewrite lookup_insert_eq. }
    assert (∃ h3,
      (∀ A (K : M A),
         (if negb (not_null (head nw)) then K
          else set_next (last nw) (Some a') ;;;
               set_prev (Some a') (last nw) ;;; K) (mkMem h2 L k)
         = K (mkMem h3 L k))
      ∧ dseg h3 None (nw ++ [a']) None
      ∧ data_at h3 a' = n_data n
      ∧ (∀ c, c ∈ nw → data_at h3 c = data_at h2 c)
      ∧ (∀ c, c ∉ nw → c ≠ a' → h3 !! c = h2 !! c))
      as (h3 & Hlink & Hd3 & Hda3 & Hdat3 & Hfr3).
    { destruct (snoc_case nw) as [->|(nw' & z & ->)].
      - exists h2. split; [done|]. split; [simpl; eauto|].
        split; [by rewrite (data_at_lookup _ _ _ Ha2)|]. split; [set_solver|done].
      - destruct (chain_snoc h2 L k nw' z a' _ Hnd' Hd2 Ha2)
          as (h3 & Hrun & Hrest).
        exists h3. split; [|done]. intros A K.
        rewrite last_snoc.
        replace (head (nw' ++ [z])) with (Some (hd z nw')) by (by destruct nw').
        cbn [not_null negb].
        rewrite <- bind_assoc. by erewrite bind_eq by exact Hrun. }
    destruct (IH (pre ++ [a]) (nw ++ [a']) (mkMem h3 L k) Hinv0)
      as (r & m' & Hrun & Hres).
    + by rewrite <- app_assoc.
    + intros c Hc. simpl. rewrite Hfr3.
      * unfold h2. rewrite !lookup_insert_ne; [by apply Hold|..];
          intros <-; rewrite Ha'0 in Hc; by destruct Hc.
      * intros Hin. apply Hnew in Hin. rewrite Hin in Hc. by destruct Hc.
      * intros ->. rewrite Ha'0 in Hc. by destruct Hc.
    + intros c Hc Hin. apply not_elem_of_app in Hin as [Hin Hca].
      apply not_elem_of_cons in Hca as [Hca _]. simpl.
      rewrite Hfr3 by done. unfold h2. rewrite !lookup_insert_ne by done.
      by apply Hnone.
    + done.
    + done.
    + done.
    + intros c [Hin| ->%list_elem_of_singleton]%elem_of_app; [by apply Hnew|done].
    + simpl. unfold contents. rewrite !fmap_app. simpl.
      rewrite Hda3, (data_at_lookup _ _ _ Hn0). f_equal.
      rewrite (contents_frame h2 h3) by done.
      rewrite (contents_frame h h2); [done|].
      intros c Hc. unfold h2. rewrite !data_at_insert_ne by (intros ->; done).
      done.
    + simpl. rewrite length_app. simpl. lia.
    + exists r, m'. split.
      * cbn [add_all_copy length head].
        erewrite bind_eq by apply calloc_node_eq. fold a'.
        cbn [not_null negb].
        erewrite bind_eq by (apply get_data_eq; simpl;
                             rewrite lookup_insert_ne by done; exact Hn).
        erewrite bind_eq by (apply set_data_eq; simpl; apply lookup_insert_eq).
        cbn [n_next n_prev nodes lists avail]. fold h2.
        assert (Hnx3 : get_next (Some a) (mkMem h3 L k)
                       = Some (head rest, mkMem h3 L k)).
        { erewrite get_next_eq; [by rewrite Hnx|]. simpl.
          rewrite Hfr3; [|intros Hin; apply Hnew in Hin; congruence|done].
          unfold h2. by rewrite !lookup_insert_ne. }
        rewrite length_app, Nat.add_1_r in Hrun.
        destruct (head nw) as [x|] eqn:Hhd.
        -- cbn [not_null negb].
           pose proof (Hlink _ (nx <- get_next (Some a) ;;
                                add_all_copy (length rest) (S (length nw)) nx
                                  (Some x) (Some a'))) as Hk.
           cbn [not_null negb] in Hk. rewrite Hk.
           erewrite bind_eq by exact Hnx3.
           rewrite <- Hrun. f_equal.
           ++ destruct nw; simpl in *; congruence.
           ++ by rewrite last_snoc.
        -- cbn [not_null negb].
           pose proof (Hlink _ (nx <- get_next (Some a) ;;
                                add_all_copy (length rest) (S (length nw)) nx
                                  (Some a') (Some a'))) as Hk.
           cbn [not_null negb] in Hk. rewrite Hk.
           erewrite bind_eq by exact Hnx3.
           rewrite <- Hrun. destruct nw; [done|discriminate].
      * simpl in Hres. simpl.
        destruct (decide (length rest ≤ k)%nat);
          [rewrite decide_True by lia|rewrite decide_False by lia]; done.
Qed.

Lemma last_cons_snoc (x : addr) mid y : last (x :: mid ++ [y]) = Some y.
Proof. by rewrite app_comm_cons, last_snoc. Qed.

(** Linking the chain of copies [nw] into the receiver before the node
    [b]: after the last node of [A] when there is one, and as the new
    head otherwise. *)
Lemma add_all_link h L k lp1 A b B nw sz tl :
  NoDup (A ++ nw ++ b :: B) → nw ≠ [] →
  dseg h None (A ++ b :: B) None →
  dseg h None nw None →
  L !! lp1 = Some (mkList sz (head (A ++ b :: B)) tl) →
  ∃ h',
    (if negb (not_null (Some b)) then
       l1_tail <- get_tail (Some lp1) ;;
       set_next l1_tail (head nw) ;;;
       l1_tail <- get_tail (Some lp1) ;;
       set_prev (head nw) l1_tail ;;;
       set_tail (Some lp1) (last nw)
     else if negb (not_null (last A)) then
       l1_head <- get_head (Some lp1) ;;
       set_prev l1_head (last nw) ;;;
       l1_head <- get_head (Some lp1) ;;
       set_next (last nw) l1_head ;;;
       set_head (Some lp1) (head nw)
     else
       set_prev (head nw) (last A) ;;;
       set_next (last A) (head nw) ;;;
       set_next (last nw) (Some b) ;;;
       set_prev (Some b) (last nw)) (mkMem h L k)
    = Some (tt, mkMem h' (<[lp1 := mkList sz (head (A ++ nw ++ b :: B)) tl]> L) k)
    ∧ dseg h' None (A ++ nw ++ b :: B) None
    ∧ same_data h h'
    ∧ (∀ c, c ∉ A ++ nw ++ b :: B → h' !! c = h !! c).
Proof.
  intros Hnd Hne Hd1 Hd2 HL.
  destruct nw as [|x nw]; [done|]. clear Hne.
  destruct (snoc_case A) as [->|(A' & z & ->)];
    (destruct (snoc_case nw) as [->|(mid & y & ->)]).
  - nd_facts Hnd. seg_norm_in Hd2. seg_destruct Hd1.
    eexists. split; [|split; [|split]].
    + simpl. simpl in HL. mrun. reflexivity.
    + simpl. seg_solve.
    + data_solve.
    + intros c Hc. rewrite !lookup_insert_ne; [done|intros ->; set_solver..].
  - nd_facts Hnd. seg_norm_in Hd2. seg_destruct Hd1.
    eexists. split; [|split; [|split]].
    + simpl. simpl in HL. rewrite last_cons_snoc. mrun. reflexivity.
    + simpl. seg_solve.
    + data_solve.
    + intros c Hc. rewrite !lookup_insert_ne; [done|intros ->; set_solver..].
  - rewrite head_snoc_app in HL. rewrite head_snoc_app, last_snoc.
    nd_facts Hnd. seg_norm_in Hd2. seg_destruct Hd1.
    eexists. split; [|split; [|split]].
    + rewrite insert_id by done. simpl. mrun. reflexivity.
    + simpl. seg_solve.
    + data_solve.
    + intros c Hc. rewrite !lookup_insert_ne; [done|intros ->; set_solver..].
  - rewrite head_snoc_app in HL. rewrite head_snoc_app, last_snoc.
    nd_facts Hnd. seg_norm_in Hd2. seg_destruct Hd1.
    eexists. split; [|split; [|split]].
    + rewrite insert_id by done. simpl. rewrite last_cons_snoc.
      mrun. reflexivity.
    + simpl. seg_solve.
    + data_solve.
    + intros c Hc. rewrite !lookup_insert_ne; [done|intros ->; set_solver..].
Qed.

Lemma list_add_all_at_ok m lp1 lp2 l1 l2 index :
  let i := Z.to_nat index in
  list_inv m lp1 l1 → list_inv m lp2 l2 → l2 ≠ [] →
  0 ≤ index < Z.of_nat (length l1) →
  Z.of_nat (length l1 + length l2) < SIZE_MOD →
  if decide (length l2 ≤ avail m)%nat then
    ∃ m' nw,
      list_add_all_at (Some lp1) (Some lp2) index m = Some (true, m')
      ∧ (∀ c, c ∈ nw → nodes m !! c = None)
      ∧ list_inv m' lp1 (take i l1 ++ nw ++ drop i l1)
      ∧ contents m' (take i l1 ++ nw ++ drop i l1)
        = take i (contents m l1) ++ contents m l2 ++ drop i (contents m l1)
      ∧ avail m' = (avail m - length l2)%nat
      ∧ (∀ q, q ≠ lp1 → lists m' !! q = lists m !! q)
      ∧ (∀ c, is_Some (nodes m !! c) → c ∉ l1 → nodes m' !! c = nodes m !! c)
  else list_add_all_at (Some lp1) (Some lp2) index m = Some (false, m).
Proof.
  intros i Hinv1 Hinv2 Hne Hi Hb.
  pose proof Hinv1 as (HL1 & Hnd1 & Hd1 & _).
  pose proof Hinv2 as (HL2 & _).
  destruct (add_all_copy_spec m lp2 l2 l2 [] [] m Hinv2 eq_refl)
    as (r & m1 & Hcopy & Hres); try done.
  { apply NoDup_nil_2. }
  { set_solver. }
  assert (Hpre : ∀ (K : option (ptr * ptr) → M bool),
    (sz2 <- get_size (Some lp2) ;;
     if sz2 =? 0 then ret false else
     sz1 <- get_size (Some lp1) ;;
     if index >=? sz1 then ret false else
     insert <- get_head (Some lp2) ;;
     sz2 <- get_size (Some lp2) ;;
     r <- add_all_copy (Z.to_nat sz2) 0 insert None None ;;
     K r) m = K r m1).
  { intros K.
    erewrite bind_eq by (by apply get_size_eq). cbn [l_size].
    replace (Z.of_nat (length l2) =? 0) with false
      by (symmetry; apply Z.eqb_neq; destruct l2; [done|simpl; lia]).
    erewrite bind_eq by (by apply get_size_eq). cbn [l_size].
    replace (index >=? Z.of_nat (length l1)) with false
      by (symmetry; rewrite Z.geb_leb; apply Z.leb_gt; lia).
    erewrite bind_eq by (by apply get_head_eq).
    erewrite bind_eq by (by apply get_size_eq). cbn [l_size l_head].
    rewrite Nat2Z.id. by erewrite bind_eq by exact Hcopy. }
  unfold list_add_all_at. rewrite Hpre. clear Hpre Hcopy.
  destruct (decide (length l2 ≤ avail m)%nat) as [Hen|Hen];
    [|by destruct Hres as [-> ->]].
  destruct Hres as (nw & -> & Hold & HLm & Hdn & Hndn & Hnew & Hdat & Hav).
  assert (Hnwne : nw ≠ []).
  { intros ->. destruct l2; [done|]. simpl in Hdat. discriminate. }
  assert (Hlen : length nw = length l2).
  { rewrite <- (length_fmap (data_at (nodes m1)) nw), Hdat.
    unfold contents. by rewrite length_fmap. }
  destruct (list_inv_frame m m1 lp1 l1 Hinv1) as [Hinv1' Hc1].
  { by rewrite HLm. }
  { intros c Hc. apply Hold. exact (list_inv_alloc _ _ _ _ Hinv1 Hc). }
  destruct (lookup_lt_is_Some_2 l1 i) as [b Hbi]; [lia|].
  pose proof (take_drop_middle _ _ _ Hbi) as Hl1.
  assert (HlenA : length (take i l1) = i) by (apply length_take_le; lia).
  rewrite (drop_S _ _ _ Hbi).
  set (A := take i l1) in *. set (B := drop (S i) l1) in *.
  assert (Hdis : ∀ c, c ∈ nw → c ∉ l1).
  { intros c Hc Hin. apply Hnew in Hc.
    destruct (list_inv_alloc _ _ _ _ Hinv1 Hin) as [x Hx]. congruence. }
  assert (Hnd : NoDup (A ++ nw ++ b :: B)).
  { rewrite <- Hl1 in Hnd1, Hdis. revert Hnd1 Hdis Hndn.
    rewrite !NoDup_app, !NoDup_cons. set_solver. }
  destruct m1 as [h1 L1 k1]. simpl in Hold, HLm, Hdn, Hdat, Hav.
  pose proof Hinv1' as (HL1' & _ & Hd1' & _). simpl in HL1', Hd1'.
  rewrite <- Hl1 in Hd1'.
  destruct (add_all_link h1 L1 k1 lp1 A b B nw (Z.of_nat (length l1)) (last l1)
              Hnd Hnwne Hd1' Hdn)
    as (h' & Hlink & Hd' & Hsd & Hfr).
  { by rewrite HL1', Hl1. }
  assert (Hbase : (if 0 <? index then get_prev (Some b) else ret None)
                    (mkMem h1 L1 k1) = Some (last A, mkMem h1 L1 k1)).
  { destruct (Z.ltb_spec 0 index) as [Hpos|Hzero].
    - destruct (dseg_lookup _ _ _ _ i b Hd1') as (nb & Hnb & Hpv & _).
      { rewrite Hl1. done. }
      erewrite get_prev_eq by exact Hnb. rewrite Hpv.
      destruct i as [|j] eqn:Hj; [lia|].
      rewrite Hl1. f_equal. rewrite last_lookup.
      rewrite HlenA. simpl. subst A. rewrite lookup_take_lt by lia. done.
    - assert (A = []) as -> by (apply length_zero_iff_nil; lia). done. }
  set (H1 := mkList (Z.of_nat (length l1)) (head (A ++ nw ++ b :: B)) (last l1))
    in *.
  assert (Hsz2 : (<[lp1 := H1]> L1) !! lp2
                 = Some (mkList (Z.of_nat (length l2))
                           (if decide (lp2 = lp1) then l_head H1 else head l2)
                           (last l2))).
  { destruct (decide (lp2 = lp1)) as [->|Hne12].
    - rewrite lookup_insert_eq. unfold H1. simpl.
      rewrite HL1 in HL2. by injection HL2 as -> _ ->.
    - rewrite lookup_insert_ne by done. by rewrite HLm. }
  eexists _, nw. split; [|split; [done|split; [|split; [|split; [|split]]]]].
  - erewrite bind_eq by (by apply get_size_eq). cbn [l_size].
    replace (index <? Z.of_nat (length l1)) with true
      by (symmetry; apply Z.ltb_lt; lia).
    erewrite bind_eq by (apply get_node_at_spec; [exact Hinv1'|lia]).
    fold i. rewrite Hbi.
    erewrite bind_eq by exact Hbase.
    erewrite bind_eq by exact Hlink.
    erewrite bind_eq by (apply get_size_eq; simpl; apply lookup_insert_eq).
    cbn [l_size].
    erewrite bind_eq by (apply get_size_eq; simpl; exact Hsz2).
    erewrite bind_eq by (apply set_size_eq; simpl; apply lookup_insert_eq).
    cbn [l_size l_head l_tail nodes lists avail]. rewrite insert_insert_eq.
    reflexivity.
  - split; [|split; [done|split; [done|]]].
    + simpl. rewrite lookup_insert_eq. unfold H1. simpl.
      rewrite wrap_small by lia. f_equal. f_equal.
      * rewrite <- Hl1, !length_app. simpl. rewrite ?length_app. simpl. lia.
      * by rewrite <- Hl1, (app_assoc A nw), !last_app_cons.
    + rewrite !length_app. simpl. rewrite <- Hl1, length_app in Hb.
      simpl in Hb. lia.
  - unfold contents in *. simpl in *.
    rewrite (same_data_map _ _ _ Hsd), !fmap_app, Hdat, <- Hc1.
    rewrite <- fmap_take, <- fmap_drop. fold A.
    by rewrite (drop_S _ _ _ Hbi).
  - simpl. lia.
  - intros q Hq. simpl. rewrite lookup_insert_ne by done. by rewrite HLm.
  - intros c Hc Hcl. simpl. rewrite Hfr; [by apply Hold|].
    rewrite <- Hl1 in Hcl. intros Hin. apply Hcl.
    apply elem_of_app in Hin as [Hin|Hin]; [set_solver|].
    apply elem_of_app in Hin as [Hin|Hin]; [|set_solver].
    apply Hnew in Hin. rewrite Hin in Hc. by destruct Hc.
Qed.

(** X20: [list_add_all_at] at an index below the receiver's count, with
    a non-empty donor, both lists satisfying the invariant, and an
    allocator that can provide one node per donor element: the call
    returns true and links a chain of new nodes, holding the donor's
    elements in order, before the previous occupant of the index.  The
    receiver again satisfies the invariant, and reads the same sequence
    walking forward from its head and backward from its tail.  A donor
    that shares no node with the receiver is unchanged, as are all
    other headers and all nodes outside the receiver's chain. *)
Theorem list_add_all_at_inserts m lp1 lp2 l1 l2 index :
  let i := Z.to_nat index in
  list_inv m lp1 l1 → list_inv m lp2 l2 → l2 ≠ [] →
  0 ≤ index < Z.of_nat (length l1) →
  Z.of_nat (length l1 + length l2) < SIZE_MOD →
  (length l2 ≤ avail m)%nat →
  ∃ m' nw,
    list_add_all_at (Some lp1) (Some lp2) index m = Some (true, m')
    ∧ (∀ c, c ∈ nw → nodes m !! c = None)
    ∧ list_inv m' lp1 (take i l1 ++ nw ++ drop i l1)
    ∧ elements m' lp1
      = Some (take i (contents m l1) ++ contents m l2 ++ drop i (contents m l1))
    ∧ elements_back m' lp1
      = Some (reverse (take i (contents m l1) ++ contents m l2
                       ++ drop i (contents m l1)))
    ∧ avail m' = (avail m - length l2)%nat
    ∧ (lp2 ≠ lp1 → (∀ c, c ∈ l2 → c ∉ l1) →
       list_inv m' lp2 l2 ∧ contents m' l2 = contents m l2)
    ∧ (∀ q, q ≠ lp1 → lists m' !! q = lists m !! q)
    ∧ (∀ c, is_Some (nodes m !! c) → c ∉ l1 → nodes m' !! c = nodes m !! c).
Proof.
  intros i Hinv1 Hinv2 Hne Hi Hb Hen.
  pose proof (list_add_all_at_ok m lp1 lp2 l1 l2 index Hinv1 Hinv2 Hne Hi Hb)
    as Hok.
  rewrite decide_True in Hok by done.
  destruct Hok as (m' & nw & Hrun & Hnew & Hinv' & Hc & Hav & HfL & Hfn).
  exists m', nw. split; [done|]. split; [done|]. split; [done|].
  split; [by rewrite (list_inv_elements _ _ _ Hinv'), Hc|].
  split; [by rewrite (list_inv_elements_back _ _ _ Hinv'), Hc|].
  split; [done|]. split; [|done].
  intros Hne12 Hdis. apply (list_inv_frame _ _ _ _ Hinv2); [by apply HfL|].
  intros c Hc'. apply Hfn; [exact (list_inv_alloc _ _ _ _ Hinv2 Hc')|].
  by apply Hdis.
Qed.

Lemma mem_of2_inv :
  list_inv (mem_of2 [10; 20; 30] [7; 8]) 1%positive [1; 2; 3]%positive
  ∧ list_inv (mem_of2 [10; 20; 30] [7; 8]) 2%positive [4; 5]%positive.
Proof. split; solve_inv. Qed.

Lemma list_add_all_at_inserts_witness :
  let m := mem_of2 [10; 20; 30] [7; 8] in
  ∃ m' nw,
    list_add_all_at (Some 1%positive) (Some 2%positive) 1 m = Some (true, m')
    ∧ (∀ c, c ∈ nw → nodes m !! c = None)
    ∧ list_inv m' 1%positive
        (take (Z.to_nat 1) [1; 2; 3]%positive ++ nw
         ++ drop (Z.to_nat 1) [1; 2; 3]%positive)
    ∧ elements m' 1%positive
      = Some (take (Z.to_nat 1) (contents m [1; 2; 3]%positive)
              ++ contents m [4; 5]%positive
              ++ drop (Z.to_nat 1) (contents m [1; 2; 3]%positive))
    ∧ elements_back m' 1%positive
      = Some (reverse (take (Z.to_nat 1) (contents m [1; 2; 3]%positive)
                       ++ contents m [4; 5]%positive
                       ++ drop (Z.to_nat 1) (contents m [1; 2; 3]%positive)))
    ∧ avail m' = (avail m - length [4; 5]%positive)%nat
    ∧ (2%positive ≠ 1%positive →
       (∀ c, c ∈ [4; 5]%positive → c ∉ [1; 2; 3]%positive) →
       list_inv m' 2%positive [4; 5]%positive
       ∧ contents m' [4; 5]%positive = contents m [4; 5]%positive)
    ∧ (∀ q, q ≠ 1%positive → lists m' !! q = lists m !! q)
    ∧ (∀ c, is_Some (nodes m !! c) → c ∉ [1; 2; 3]%positive →
         nodes m' !! c = nodes m !! c).
Proof.
  apply (list_add_all_at_inserts (mem_of2 [10; 20; 30] [7; 8]) 1%positive
           2%positive [1; 2; 3]%positive [4; 5]%positive 1).
  - exact (proj1 mem_of2_inv).
  - exact (proj2 mem_of2_inv).
  - discriminate.
  - vm_compute. split; [discriminate|reflexivity].
  - vm_compute. reflexivity.
  - vm_compute. lia.
Defined.

(** X21: [list_add_all_at] gives up without a trace.  It returns false
    and leaves the whole memory as it was when the donor is empty, when
    the index is not below the receiver's count, and when the allocator
    cannot provide a node for every donor element: the nodes allocated
    before the failure are freed again. *)
Theorem list_add_all_at_fails m lp1 lp2 l1 l2 index :
  list_inv m lp1 l1 → list_inv m lp2 l2 →
  0 ≤ index → Z.of_nat (length l1 + length l2) < SIZE_MOD →
  l2 = [] ∨ Z.of_nat (length l1) ≤ index ∨ (avail m < length l2)%nat →
  list_add_all_at (Some lp1) (Some lp2) index m = Some (false, m).
Proof.
  intros Hinv1 Hinv2 Hi Hb Hcase.
  pose proof Hinv1 as (HL1 & _). pose proof Hinv2 as (HL2 & _).
  destruct (decide (l2 = [])) as [->|Hne].
  { unfold list_add_all_at. by erewrite bind_eq by (by apply get_size_eq). }
  destruct (Z.le_gt_cases (Z.of_nat (length l1)) index) as [Hge|Hlt].
  { unfold list_add_all_at.
    erewrite bind_eq by (by apply get_size_eq). cbn [l_size].
    replace (Z.of_nat (length l2) =? 0) with false
      by (symmetry; apply Z.eqb_neq; destruct l2; [done|simpl; lia]).
    erewrite bind_eq by (by apply get_size_eq). cbn [l_size].
    by replace (index >=? Z.of_nat (length l1)) with true
      by (symmetry; rewrite Z.geb_leb; apply Z.leb_le; lia). }
  destruct Hcase as [?|[?|Hav]]; [done|lia|].
  pose proof (list_add_all_at_ok m lp1 lp2 l1 l2 index Hinv1 Hinv2 Hne) as Hok.
  rewrite decide_False in Hok by lia. apply Hok; [lia|done].
Qed.

Lemma mem_tight_inv :
  let m := mkMem (nodes (mem_of2 [10; 20; 30] [7; 8]))
                 (lists (mem_of2 [10; 20; 30] [7; 8])) 1 in
  list_inv m 1%positive [1; 2; 3]%positive
  ∧ list_inv m 2%positive [4; 5]%positive.
Proof. split; solve_inv. Qed.

Lemma list_add_all_at_fails_witness :
  let m := mkMem (nodes (mem_of2 [10; 20; 30] [7; 8]))
                 (lists (mem_of2 [10; 20; 30] [7; 8])) 1 in
  list_add_all_at (Some 1%positive) (Some 2%positive) 1 m = Some (false, m).
Proof.
  apply (list_add_all_at_fails _ 1%positive 2%positive
           [1; 2; 3]%positive [4; 5]%positive 1).
  - exact (proj1 mem_tight_inv).
  - exact (proj2 mem_tight_inv).
  - lia.
  - vm_compute. reflexivity.
  - right. right. vm_compute. lia.
Defined.

(** ** Reversal *)

(** X22: [list_reverse] on a list satisfying the invariant relinks the
    same nodes in the opposite order: the list again satisfies the
    invariant, no payload is touched, its element sequence is the
    reverse of the old one, and walking back from its tail reads the
    old sequence. *)
Theorem list_reverse_reverses m lp l :
  list_inv m lp l →
  ∃ m',
    list_reverse (Some lp) m = Some (tt, m')
    ∧ list_inv m' lp (reverse l)
    ∧ same_data (nodes m) (nodes m')
    ∧ elements m' lp = Some (reverse (contents m l))
    ∧ elements_back m' lp = Some (contents m l).
Proof.
  intros Hinv.
  destruct (list_reverse_spec m lp l Hinv) as (m' & Hrun & Hinv' & Hsd).
  assert (Hc : contents m' (reverse l) = reverse (contents m l)).
  { unfold contents. by rewrite (same_data_map _ _ _ Hsd), fmap_reverse. }
  exists m'. do 3 (split; [done|]). split.
  - by rewrite (list_inv_elements _ _ _ Hinv'), Hc.
  - by rewrite (list_inv_elements_back _ _ _ Hinv'), Hc, reverse_involutive.
Qed.

Lemma list_reverse_reverses_witness :
  let m := mem_of [10; 20; 30] in
  ∃ m',
    list_reverse (Some 1%positive) m = Some (tt, m')
    ∧ list_inv m' 1%positive (reverse [1; 2; 3]%positive)
    ∧ same_data (nodes m) (nodes m')
    ∧ elements m' 1%positive = Some (reverse (contents m [1; 2; 3]%positive))
    ∧ elements_back m' 1%positive = Some (contents m [1; 2; 3]%positive).
Proof.
  apply (list_reverse_reverses (mem_of [10; 20; 30]) 1%positive
           [1; 2; 3]%positive).
  exact mem_of_3_inv.
Defined.

(** ** Cursors *)

Lemma wrap_succ z : wrap (wrap z + 1) = wrap (z + 1).
Proof. unfold wrap. by rewrite Zplus_mod_idemp_l. Qed.

Lemma malloc_iter_ok m :
  (0 < avail m)%nat →
  malloc_iter m = Some (true, mkMem (nodes m) (lists m) (pred (avail m))).
Proof. unfold malloc_iter. destruct (avail m); [lia|done]. Qed.

Lemma malloc_iter_null m :
  avail m = 0%nat → malloc_iter m = Some (false, m).
Proof. unfold malloc_iter. by intros ->. Qed.

(** X23: a forward cursor walks the list from head to tail.  On a list
    satisfying the invariant, [list_iter_new] faults when the allocator
    is exhausted (the result of [malloc] is written through unchecked);
    otherwise it takes one block from the allocator, changes nothing
    else, and gives the cursor at position 0.  In the memory it leaves,
    at every position [j] below the count [list_iter_has_next] holds
    and [list_iter_next] returns the element at position [j] and the
    cursor at position [j + 1], for which [list_iter_index] is [j],
    without changing the memory; at the position equal to the count
    [list_iter_has_next] fails. *)
Theorem list_iter_walk m lp l :
  list_inv m lp l →
  let cur := λ j : nat,
    mkIter (Z.of_nat j) (Some lp)
      (match j with O => None | S j' => l !! j' end) (l !! j) in
  let m1 := mkMem (nodes m) (lists m) (pred (avail m)) in
  (avail m = 0%nat → list_iter_new (Some lp) m = None)
  ∧ ((0 < avail m)%nat → list_iter_new (Some lp) m = Some (cur 0%nat, m1))
  ∧ (∀ j, (j < length l)%nat →
       list_iter_has_next (cur j) = true
       ∧ list_iter_next (cur j) m1 = Some ((contents m l !!! j, cur (S j)), m1)
       ∧ list_iter_index (cur (S j)) = Z.of_nat j)
  ∧ list_iter_has_next (cur (length l)) = false.
Proof.
  intros Hinv cur m1. pose proof Hinv as (HL & _ & Hd & Hb).
  assert (HL1 : lists m1 !! lp
                = Some (mkList (Z.of_nat (length l)) (head l) (last l)))
    by exact HL.
  assert (Hd1 : dseg (nodes m1) None l None) by exact Hd.
  split; [|split; [|split]].
  - intros Hz. unfold list_iter_new.
    by erewrite bind_eq by (by apply malloc_iter_null).
  - intros Hpos. unfold list_iter_new.
    erewrite bind_eq by (by apply malloc_iter_ok). cbn [negb]. fold m1.
    erewrite bind_eq by (by apply get_head_eq).
    unfold cur. cbn [l_head]. by rewrite head_lookup.
  - intros j Hj.
    destruct (lookup_lt_is_Some_2 l j Hj) as [a Ha].
    destruct (dseg_lookup _ _ _ _ _ _ Hd1 Ha) as (n & Hn & _ & Hnx).
    split; [|split].
    + unfold list_iter_has_next, cur. cbn [it_next]. by rewrite Ha.
    + unfold list_iter_next, cur. cbn [it_next it_index it_list]. rewrite Ha.
      erewrite bind_eq by (by apply get_data_eq).
      erewrite bind_eq by (by apply get_next_eq).
      unfold ret. do 3 f_equal.
      * symmetry. apply list_lookup_total_correct.
        by rewrite contents_lookup, Ha, <- (data_at_lookup _ _ _ Hn).
      * rewrite wrap_small by lia. f_equal; [lia|].
        rewrite Hnx. by destruct (l !! S j).
    + unfold list_iter_index, cur. cbn [it_index]. rewrite wrap_small; lia.
  - unfold list_iter_has_next, cur. cbn [it_next].
    by rewrite lookup_ge_None_2.
Qed.

Lemma list_iter_walk_witness :
  let m := mem_of [10; 20; 30] in
  let l := [1; 2; 3]%positive in
  let cur := λ j : nat,
    mkIter (Z.of_nat j) (Some 1%positive)
      (match j with O => None | S j' => l !! j' end) (l !! j) in
  let m1 := mkMem (nodes m) (lists m) (pred (avail m)) in
  list_iter_new (Some 1%positive) m = Some (cur 0%nat, m1)
  ∧ (∀ j, (j < length l)%nat →
       list_iter_has_next (cur j) = true
       ∧ list_iter_next (cur j) m1 = Some ((contents m l !!! j, cur (S j)), m1)
       ∧ list_iter_index (cur (S j)) = Z.of_nat j)
  ∧ list_iter_has_next (cur (length l)) = false.
Proof.
  intros m l cur m1.
  destruct (list_iter_walk (mem_of [10; 20; 30]) 1%positive
              [1; 2; 3]%positive mem_of_3_inv)
    as (_ & Hnew & Hwalk & Hend).
  split; [|split; [exact Hwalk|exact Hend]].
  apply Hnew. vm_compute. lia.
Defined.

(** X24: a backward cursor walks the list from tail to head, and its
    position counter runs the other way.  On a list of [n] elements
    satisfying the invariant, [list_diter_new] faults when the
    allocator is exhausted (the result of [malloc] is written through
    unchecked); otherwise it takes one block from the allocator,
    changes nothing else, and gives the cursor that has yielded
    nothing.  In the memory it leaves, the cursor that has yielded
    [j < n] elements has a next element, and [list_diter_next] returns
    the element at position [n - 1 - j] without changing the memory;
    after it [dlist_diter_index] is [n - 1 + j] (as a [size_t]), which
    is that position only for [j = 0].  The cursor that has yielded [n]
    elements has no next element. *)
Theorem list_diter_walk m lp l :
  list_inv m lp l →
  let n := length l in
  let cur := λ j : nat,
    mkIter (wrap (Z.of_nat n - 1 + Z.of_nat j)) (Some lp)
      (match j with O => None | S j' => l !! (n - 1 - j')%nat end)
      (if (j <? n)%nat then l !! (n - 1 - j)%nat else None) in
  let m1 := mkMem (nodes m) (lists m) (pred (avail m)) in
  (avail m = 0%nat → list_diter_new (Some lp) m = None)
  ∧ ((0 < avail m)%nat → list_diter_new (Some lp) m = Some (cur 0%nat, m1))
  ∧ (∀ j, (j < n)%nat →
       list_diter_has_next (cur j) = true
       ∧ list_diter_next (cur j) m1
         = Some ((contents m l !!! (n - 1 - j)%nat, cur (S j)), m1)
       ∧ dlist_diter_index (cur (S j)) = wrap (Z.of_nat n - 1 + Z.of_nat j))
  ∧ list_diter_has_next (cur n) = false.
Proof.
  intros Hinv n cur m1. pose proof Hinv as (HL & _ & Hd & Hb).
  assert (HL1 : lists m1 !! lp
                = Some (mkList (Z.of_nat (length l)) (head l) (last l)))
    by exact HL.
  assert (Hd1 : dseg (nodes m1) None l None) by exact Hd.
  split; [|split; [|split]].
  - intros Hz. unfold list_diter_new.
    erewrite bind_eq by (by apply malloc_iter_null).
    by erewrite bind_eq by (by apply get_size_eq).
  - intros Hpos. unfold list_diter_new.
    erewrite bind_eq by (by apply malloc_iter_ok). fold m1.
    erewrite bind_eq by (by apply get_size_eq). cbn [negb].
    erewrite bind_eq by (by apply get_tail_eq).
    unfold cur. cbn [l_size l_tail]. fold n. rewrite Z.add_0_r.
    unfold ret. do 3 f_equal. rewrite last_lookup. fold n.
    destruct (Nat.ltb_spec 0 n) as [Hn|Hn].
    + f_equal. lia.
    + apply lookup_ge_None_2. lia.
  - intros j Hj.
    destruct (lookup_lt_is_Some_2 l (n - 1 - j)) as [a Ha]; [unfold n in *; lia|].
    destruct (dseg_lookup _ _ _ _ _ _ Hd1 Ha) as (x & Hx & Hpv & _).
    assert (Hcur : it_next (cur j) = Some a).
    { unfold cur. cbn [it_next].
      destruct (Nat.ltb_spec j n); [done|lia]. }
    split; [|split].
    + unfold list_diter_has_next. by rewrite Hcur.
    + unfold list_diter_next. rewrite Hcur.
      erewrite bind_eq by (by apply get_data_eq).
      erewrite bind_eq by (by apply get_prev_eq).
      unfold ret. do 3 f_equal.
      * symmetry. apply list_lookup_total_correct.
        by rewrite contents_lookup, Ha, <- (data_at_lookup _ _ _ Hx).
      * unfold cur. cbn [it_index it_list]. rewrite wrap_succ. f_equal.
        -- f_equal. lia.
        -- done.
        -- rewrite Hpv.
           destruct (Nat.ltb_spec (S j) n) as [Hlt|Hge].
           ++ destruct (n - 1 - j)%nat as [|k] eqn:Hk; [lia|].
              f_equal. lia.
           ++ by replace (n - 1 - j)%nat with 0%nat by lia.
    + unfold dlist_diter_index, cur. cbn [it_index].
      unfold wrap. rewrite Zminus_mod_idemp_l. f_equal. lia.
  - unfold list_diter_has_next, cur. cbn [it_next].
    by rewrite Nat.ltb_irrefl.
Qed.

Lemma list_diter_walk_witness :
  let m := mem_of [10; 20; 30] in
  let l := [1; 2; 3]%positive in
  let n := length l in
  let cur := λ j : nat,
    mkIter (wrap (Z.of_nat n - 1 + Z.of_nat j)) (Some 1%positive)
      (match j with O => None | S j' => l !! (n - 1 - j')%nat end)
      (if (j <? n)%nat then l !! (n - 1 - j)%nat else None) in
  let m1 := mkMem (nodes m) (lists m) (pred (avail m)) in
  list_diter_new (Some 1%positive) m = Some (cur 0%nat, m1)
  ∧ (∀ j, (j < n)%nat →
       list_diter_has_next (cur j) = true
       ∧ list_diter_next (cur j) m1
         = Some ((contents m l !!! (n - 1 - j)%nat, cur (S j)), m1)
       ∧ dlist_diter_index (cur (S j)) = wrap (Z.of_nat n - 1 + Z.of_nat j))
  ∧ list_diter_has_next (cur n) = false.
Proof.
  intros m l n cur m1.
  destruct (list_diter_walk (mem_of [10; 20; 30]) 1%positive
              [1; 2; 3]%positive mem_of_3_inv)
    as (_ & Hnew & Hwalk & Hend).
  split; [|split; [exact Hwalk|exact Hend]].
  apply Hnew. vm_compute. lia.
Defined.

(** Both constructors on an exhausted allocator, and a cursor made and
    advanced once with room for its block. *)
Example cursor_new_runs :
  let m := mem_of [10; 20; 30] in
  let m0 := mkMem (nodes m) (lists m) 0 in
  list_iter_new (Some 1%positive) m0 = None
  ∧ list_diter_new (Some 1%positive) m0 = None
  ∧ match (it <- list_iter_new (Some 1%positive) ;; list_iter_next it) m with
    | Some ((e, _), m') => e = 10 ∧ avail m' = pred (avail m)
    | None => False
    end
  ∧ match (it <- list_diter_new (Some 1%positive) ;; list_diter_next it) m with
    | Some ((e, _), m') => e = 30 ∧ avail m' = pred (avail m)
    | None => False
    end.
Proof. by vm_compute. Qed.

(** X25: removal through a cursor.  When the cursor's last yielded node
    is the node at position [j] of a list satisfying the invariant,
    [list_iter_remove] (and [list_diter_remove], which is the same
    code) returns that element, unlinks its node and clears the
    cursor's [last], leaving the position counter and the upcoming node
    as they were; the list again satisfies the invariant.  A second
    removal through the resulting cursor returns [NULL] and changes
    nothing. *)
Theorem list_iter_remove_yielded m lp l j a idx nx :
  list_inv m lp l → l !! j = Some a →
  let it := mkIter idx (Some lp) (Some a) nx in
  let it' := mkIter idx (Some lp) None nx in
  ∃ m',
    list_iter_remove it m = Some ((Some (contents m l !!! j), it'), m')
    ∧ list_diter_remove it m = Some ((Some (contents m l !!! j), it'), m')
    ∧ list_inv m' lp (delete j l)
    ∧ elements m' lp = Some (delete j (contents m l))
    ∧ list_iter_remove it' m' = Some ((None, it'), m')
    ∧ list_diter_remove it' m' = Some ((None, it'), m').
Proof.
  intros Hinv Hj it it'.
  destruct (unlink_at _ _ _ _ _ Hinv Hj) as (m' & Hrun & Hinv' & Hc & _).
  assert (Hd : contents m l !!! j = data_at (nodes m) a).
  { apply list_lookup_total_correct. by rewrite contents_lookup, Hj. }
  exists m'. split; [|split; [|split; [done|split; [|done]]]].
  - unfold list_iter_remove, it. cbn [it_last it_list not_null negb].
    erewrite bind_eq by exact Hrun. by rewrite Hd.
  - unfold list_diter_remove, it. cbn [it_last it_list not_null negb].
    erewrite bind_eq by exact Hrun. by rewrite Hd.
  - by rewrite (list_inv_elements _ _ _ Hinv'), Hc.
Qed.

Lemma list_iter_remove_yielded_witness :
  let m := mem_of [10; 20; 30] in
  let it := mkIter 2 (Some 1%positive) (Some 2%positive) (Some 3%positive) in
  let it' := mkIter 2 (Some 1%positive) None (Some 3%positive) in
  ∃ m',
    list_iter_remove it m
    = Some ((Some (contents m [1; 2; 3]%positive !!! 1%nat), it'), m')
    ∧ list_diter_remove it m
      = Some ((Some (contents m [1; 2; 3]%positive !!! 1%nat), it'), m')
    ∧ list_inv m' 1%positive (delete 1%nat [1; 2; 3]%positive)
    ∧ elements m' 1%positive
      = Some (delete 1%nat (contents m [1; 2; 3]%positive))
    ∧ list_iter_remove it' m' = Some ((None, it'), m')
    ∧ list_diter_remove it' m' = Some ((None, it'), m').
Proof.
  apply (list_iter_remove_yielded (mem_of [10; 20; 30]) 1%positive
           [1; 2; 3]%positive 1%nat 2%positive 2 (Some 3%positive)).
  - exact mem_of_3_inv.
  - reflexivity.
Defined.

(** X26: replacement through a cursor.  When the cursor's last yielded
    node is the node at position [j] of a list satisfying the
    invariant, [list_iter_replace] (and [list_diter_replace], which is
    the same code) stores the new element there and returns the old
    one; chain and header are kept.  Through a cursor that has not
    yielded anything, or whose last element was removed, the call
    dereferences [NULL]. *)
Theorem list_iter_replace_yielded m lp l j a idx nx x :
  list_inv m lp l → l !! j = Some a →
  let it := mkIter idx (Some lp) (Some a) nx in
  (∃ m',
     list_iter_replace it x m = Some (contents m l !!! j, m')
     ∧ list_diter_replace it x m = Some (contents m l !!! j, m')
     ∧ list_inv m' lp l
     ∧ contents m' l = <[j := x]> (contents m l)
     ∧ lists m' = lists m)
  ∧ list_iter_replace (mkIter idx (Some lp) None nx) x m = None
  ∧ list_diter_replace (mkIter idx (Some lp) None nx) x m = None.
Proof.
  intros Hinv Hj it. split; [|done].
  destruct (list_inv_alloc _ _ _ a Hinv) as [n Hn];
    [by eapply list_elem_of_lookup_2|].
  pose proof Hinv as (HL & Hnd & Hd & Hbd).
  assert (Hdj : contents m l !!! j = n_data n).
  { apply list_lookup_total_correct.
    by rewrite contents_lookup, Hj, <- (data_at_lookup _ _ _ Hn). }
  eexists. split; [|split; [|split; [|split]]].
  - unfold list_iter_replace, it. cbn [it_last].
    erewrite bind_eq by (by apply get_data_eq).
    erewrite bind_eq by (by apply set_data_eq). by rewrite Hdj.
  - unfold list_diter_replace, it. cbn [it_last].
    erewrite bind_eq by (by apply get_data_eq).
    erewrite bind_eq by (by apply set_data_eq). by rewrite Hdj.
  - split; [done|]. split; [done|]. split; [|done].
    simpl. by apply dseg_set_data.
  - unfold contents. simpl. by apply contents_set_data.
  - done.
Qed.

Lemma list_iter_replace_yielded_witness :
  let m := mem_of [10; 20; 30] in
  let it := mkIter 2 (Some 1%positive) (Some 2%positive) (Some 3%positive) in
  (∃ m',
     list_iter_replace it 99 m = Some (contents m [1; 2; 3]%positive !!! 1%nat, m')
     ∧ list_diter_replace it 99 m
       = Some (contents m [1; 2; 3]%positive !!! 1%nat, m')
     ∧ list_inv m' 1%positive [1; 2; 3]%positive
     ∧ contents m' [1; 2; 3]%positive
       = <[1%nat := 99]> (contents m [1; 2; 3]%positive)
     ∧ lists m' = lists m)
  ∧ list_iter_replace (mkIter 2 (Some 1%positive) None (Some 3%positive)) 99 m
    = None
  ∧ list_diter_replace (mkIter 2 (Some 1%positive) None (Some 3%positive)) 99 m
    = None.
Proof.
  apply (list_iter_replace_yielded (mem_of [10; 20; 30]) 1%positive
           [1; 2; 3]%positive 1%nat 2%positive 2 (Some 3%positive) 99).
  - exact mem_of_3_inv.
  - reflexivity.
Defined.

(** ** Running out of memory *)

(** X27: when the allocator is exhausted, [list_add_first],
    [list_add_last], [list_add] and (on a list satisfying the
    invariant) [list_add_at] return false and leave the memory as it
    was. *)
Theorem list_add_exhausted m lp l x index :
  list_inv m lp l → 0 ≤ index → avail m = 0%nat →
  list_add_first (Some lp) x m = Some (false, m)
  ∧ list_add_last (Some lp) x m = Some (false, m)
  ∧ list_add (Some lp) x m = Some (false, m)
  ∧ list_add_at (Some lp) x index m = Some (false, m).
Proof.
  intros Hinv Hi Hav. split; [|split; [|split]].
  - unfold list_add_first.
    by erewrite bind_eq by (by apply calloc_node_exhausted).
  - by apply list_add_last_exhausted.
  - by apply list_add_last_exhausted.
  - unfold list_add_at.
    erewrite bind_eq by (by apply get_node_at_spec).
    erewrite bind_eq by (by apply calloc_node_exhausted).
    cbn [not_null negb]. by rewrite orb_true_r.
Qed.

Lemma list_add_exhausted_witness :
  let m := mkMem (nodes (mem_of [10; 20; 30])) (lists (mem_of [10; 20; 30])) 0 in
  list_add_first (Some 1%positive) 5 m = Some (false, m)
  ∧ list_add_last (Some 1%positive) 5 m = Some (false, m)
  ∧ list_add (Some 1%positive) 5 m = Some (false, m)
  ∧ list_add_at (Some 1%positive) 5 1 m = Some (false, m).
Proof.
  apply (list_add_exhausted _ 1%positive [1; 2; 3]%positive 5 1).
  - solve_inv.
  - lia.
  - reflexivity.
Defined.

(** X28: [list_iter_add] and [list_diter_add] do not look at what they
    get from the allocator or at the cursor's upcoming node: when the
    allocator is exhausted, and when the cursor has no upcoming node
    (at the far end of the list, or on an empty list), they
    dereference [NULL]. *)
Theorem cursor_add_faults m iter e :
  avail m = 0%nat ∨ it_next iter = None →
  list_iter_add iter e m = None ∧ list_diter_add iter e m = None.
Proof.
  intros Hcase. unfold list_iter_add, list_diter_add.
  destruct m as [h L [|k]].
  - split; by erewrite bind_eq by (by apply calloc_node_exhausted).
  - destruct Hcase as [Hav|Hnx]; [done|]. rewrite Hnx.
    split; erewrite bind_eq by apply calloc_node_eq; simpl;
      unfold link_behind, link_after; mrun; done.
Qed.

Lemma cursor_add_faults_witness :
  list_iter_add (mkIter 3 (Some 1%positive) (Some 3%positive) None) 99
    (mem_of [10; 20; 30]) = None
  ∧ list_diter_add (mkIter 3 (Some 1%positive) (Some 3%positive) None) 99
      (mem_of [10; 20; 30]) = None.
Proof.
  apply (cursor_add_faults (mem_of [10; 20; 30])
           (mkIter 3 (Some 1%positive) (Some 3%positive) None) 99).
  right. reflexivity.
Defined.

(** ** Building a list *)

Lemma add_each_spec lp : ∀ xs m l,
  list_inv m lp l →
  (length xs ≤ avail m)%nat →
  Z.of_nat (length l + length xs) < SIZE_MOD →
  ∃ m' l',
    add_each (Some lp) xs m = Some (tt, m')
    ∧ list_inv m' lp (l ++ l')
    ∧ contents m' (l ++ l') = contents m l ++ xs
    ∧ avail m' = (avail m - length xs)%nat
    ∧ (∀ q, q ≠ lp → lists m' !! q = lists m !! q).
Proof.
  induction xs as [|x xs IH]; intros m l Hinv Hav Hb.
  { exists m, []. rewrite !app_nil_r. split; [done|]. split; [done|].
    split; [done|]. split; [simpl; lia|done]. }
  simpl in Hav, Hb.
  destruct (list_add_last_ok m lp l x Hinv)
    as (m1 & Hrun & _ & Hinv1 & Hc1 & Hav1 & HfL1 & _); [lia..|].
  destruct (IH m1 _ Hinv1) as (m' & l' & Hrun' & Hinv' & Hc' & Hav' & HfL');
    [lia|rewrite length_app; simpl; lia|].
  exists m', (fresh (dom (nodes m)) :: l').
  rewrite (cons_middle _ l l'), app_assoc.
  split; [|split; [done|split; [|split]]].
  - cbn [add_each]. unfold list_add.
    by erewrite bind_eq by exact Hrun.
  - by rewrite Hc', Hc1, <- app_assoc.
  - rewrite Hav', Hav1. simpl. lia.
  - intros q Hq. by rewrite HfL', HfL1.
Qed.

(** X29: a list built with [list_new] and then [list_add] of the
    elements [xs], one after the other, satisfies the invariant, holds
    exactly [xs] and has [list_size] equal to their number, when the
    allocator can provide the header and one node per element. *)
Theorem list_new_then_add m xs :
  (length xs < avail m)%nat →
  Z.of_nat (length xs) < SIZE_MOD →
  ∃ lp l m',
    (lst <- list_new ;; add_each lst xs ;;; ret lst) m = Some (Some lp, m')
    ∧ lists m !! lp = None
    ∧ list_inv m' lp l
    ∧ elements m' lp = Some xs
    ∧ list_size (Some lp) m' = Some (Z.of_nat (length xs), m')
    ∧ avail m' = (avail m - 1 - length xs)%nat
    ∧ (∀ q, q ≠ lp → lists m' !! q = lists m !! q).
Proof.
  intros Hav Hb. destruct m as [h L [|k]]; [simpl in Hav; lia|].
  simpl in Hav.
  set (lp := fresh (dom L)).
  set (m0 := mkMem h (<[lp := mkList 0 None None]> L) k).
  assert (Hnone : L !! lp = None) by (apply not_elem_of_dom, is_fresh).
  assert (Hinv0 : list_inv m0 lp []).
  { split; [simpl; by rewrite lookup_insert_eq|].
    split; [apply NoDup_nil_2|]. split; [done|]. by vm_compute. }
  destruct (add_each_spec lp xs m0 [] Hinv0)
    as (m' & l' & Hrun & Hinv' & Hc & Hav' & HfL); [simpl; lia|simpl; lia|].
  exists lp, l', m'.
  split; [|split; [done|split; [done|split; [|split; [|split]]]]].
  - unfold list_new. erewrite bind_eq by apply calloc_list_eq.
    fold lp m0. by erewrite bind_eq by exact Hrun.
  - by rewrite (list_inv_elements _ _ _ Hinv'), Hc.
  - destruct Hinv' as (HL' & _). unfold list_size.
    erewrite get_size_eq by exact HL'. cbn [l_size]. do 3 f_equal.
    rewrite <- (length_fmap (data_at (nodes m')) ([] ++ l')).
    fold (contents m' ([] ++ l')). by rewrite Hc.
  - rewrite Hav'. simpl. lia.
  - intros q Hq. rewrite HfL by done. simpl. by rewrite lookup_insert_ne.
Qed.

Lemma list_new_then_add_witness :
  let m := empty_mem 8 in
  ∃ lp l m',
    (lst <- list_new ;; add_each lst [10; 20; 30] ;;; ret lst) m
    = Some (Some lp, m')
    ∧ lists m !! lp = None
    ∧ list_inv m' lp l
    ∧ elements m' lp = Some [10; 20; 30]
    ∧ list_size (Some lp) m' = Some (Z.of_nat (length [10; 20; 30]), m')
    ∧ avail m' = (avail m - 1 - length [10; 20; 30])%nat
    ∧ (∀ q, q ≠ lp → lists m' !! q = lists m !! q).
Proof.
  apply (list_new_then_add (empty_mem 8) [10; 20; 30]).
  - vm_compute. lia.
  - vm_compute. reflexivity.
Defined.

(** ** Splicing at an index *)

(** X30: [list_splice_before] and [list_splice_after] reject an index
    that is not below the receiver's count: they return false and
    change nothing, whatever the donor is. *)
Theorem list_splice_index_rejected m lp1 l1 list2 index :
  list_inv m lp1 l1 → Z.of_nat (length l1) ≤ index →
  list_splice_before (Some lp1) list2 index m = Some (false, m)
  ∧ list_splice_after (Some lp1) list2 index m = Some (false, m).
Proof.
  intros Hinv Hi. unfold list_splice_before, list_splice_after.
  erewrite !bind_eq by (apply get_node_at_spec; [exact Hinv|lia]).
  by rewrite lookup_ge_None_2 by lia.
Qed.

Lemma list_splice_index_rejected_witness :
  let m := mem_of2 [10; 20; 30] [7; 8] in
  list_splice_before (Some 1%positive) (Some 2%positive) 3 m = Some (false, m)
  ∧ list_splice_after (Some 1%positive) (Some 2%positive) 3 m = Some (false, m).
Proof.
  apply (list_splice_index_rejected (mem_of2 [10; 20; 30] [7; 8]) 1%positive
           [1; 2; 3]%positive (Some 2%positive) 3).
  - exact (proj1 mem_of2_inv).
  - vm_compute. discriminate.
Defined.

Lemma list_splice_empty_donor_witness :
  let m := mem_of2 [10; 20; 30] [] in
  list_splice (Some 1%positive) (Some 2%positive) m = Some (true, m).
Proof.
  apply (list_splice_empty_donor (mem_of2 [10; 20; 30] []) 1%positive 2%positive
           [1; 2; 3]%positive (mkList 0 None None)).
  - solve_inv.
  - discriminate.
  - reflexivity.
  - reflexivity.
Defined.

Lemma list_splice_forward_witness :
  let m := mem_of2 [10; 20; 30] [7; 8] in
  ∃ m',
    list_splice (Some 1%positive) (Some 2%positive) m = Some (true, m')
    ∧ lists m' !! 2%positive = Some (mkList 0 None None)
    ∧ lists m' !! 1%positive
      = Some (mkList (Z.of_nat (length [1; 2; 3]%positive
                                + length [4; 5]%positive))
                (head [1; 2; 3]%positive) (last [4; 5]%positive))
    ∧ fseg (nodes m') ([1; 2; 3]%positive ++ [4; 5]%positive) None
    ∧ contents m' ([1; 2; 3]%positive ++ [4; 5]%positive)
      = contents m [1; 2; 3]%positive ++ contents m [4; 5]%positive.
Proof.
  apply (list_splice_forward (mem_of2 [10; 20; 30] [7; 8]) 1%positive 2%positive
           [1; 2; 3]%positive [4; 5]%positive).
  - exact (proj1 mem_of2_inv).
  - exact (proj2 mem_of2_inv).
  - discriminate.
  - discriminate.
  - discriminate.
  - repeat (apply NoDup_cons_2; [set_solver|]). apply NoDup_nil_2.
  - vm_compute. reflexivity.
Defined.
